(** * The organize engine of [wrrarms]: a shallow embedding

    This development embeds the deferred, batching file-placement engine
    of [tool/wrrarms/__main__.py] ([SeenCounter], [make_deferred_emit],
    [make_organize_emit]) and [file_content_equals] of
    [tool/hoardy_web/util.py], and proves properties of the engine over
    that embedding.

    Conventions.
    - Python [int] is [Z]; [len(x)] of a path is [Z.of_nat (String.length x)].
    - [collections.OrderedDict] is an association list in insertion
      order ([Module OD]); [popitem(False)] removes the head.
    - Python exceptions are values of [exn]; a computation that may
      raise returns [result].  The closures [emit], [flush_updates] and
      [finish_updates] share [mem], [seen_counter], [deferred_intents],
      [source_cache] and [dsync]; they are functions on the state
      [engine], which an exception leaves as it was when raised.
    - The operating system (file system, [dsync] log) is an abstract
      [World] reached through the interface [OS]; the engine records
      every external call it makes in [trace].
    - [new_source] is an object of its own in every [emit]; the identity
      test [source is old_source] of [defer] is the flag [uf_adopted].

    The file has three parts: the embedding, the predicates the
    properties are stated with, and the properties. *)

From Stdlib Require Import Ascii String ZArith List Bool Lia DecimalString.
Import ListNotations.
Local Open Scope string_scope.
Local Open Scope Z_scope.

(** ** Basic data *)

Definition path := string.
Definition bytes := string.

(** [len(x)] for a path or a byte string. *)
Definition len (s : string) : Z := Z.of_nat (String.length s).

(** ** Insertion-ordered dictionaries *)

Module OD.
Section Dict.
Context {V : Type}.

Definition t := list (string * V).

(** [d[k]], [None] standing for [KeyError]. *)
Fixpoint get (k : string) (d : t) : option V :=
  match d with
  | [] => None
  | (k', v) :: d' => if String.eqb k k' then Some v else get k d'
  end.

(** [d[k] = v]: an existing key keeps its position, a new one is
    appended. *)
Fixpoint set (k : string) (v : V) (d : t) : t :=
  match d with
  | [] => [(k, v)]
  | (k', v') :: d' =>
      if String.eqb k k' then (k', v) :: d' else (k', v') :: set k v d'
  end.

(** The dictionary left by [d.pop(k)]. *)
Fixpoint remove (k : string) (d : t) : t :=
  match d with
  | [] => []
  | (k', v') :: d' =>
      if String.eqb k k' then d' else (k', v') :: remove k d'
  end.

(** [d.popitem(False)]: the oldest entry and the rest. *)
Definition popitem_first (d : t) : option ((string * V) * t) :=
  match d with
  | [] => None
  | kv :: d' => Some (kv, d')
  end.

Definition keys (d : t) : list string := map fst d.

(** Sum over the entries of [len key + size value]. *)
Fixpoint footprint (size : V -> Z) (d : t) : Z :=
  match d with
  | [] => 0
  | (k, v) :: d' => (size v + len k) + footprint size d'
  end.

(** Sum over the entries of [size value] alone. *)
Fixpoint values_size (size : V -> Z) (d : t) : Z :=
  match d with
  | [] => 0
  | (_, v) :: d' => size v + values_size size d'
  end.

Definition entry_cost (size : V -> Z) (k : string) (o : option V) : Z :=
  match o with
  | Some v => size v + len k
  | None => 0
  end.

End Dict.
Arguments t : clear implicits.
End OD.

(** ** Memory account and seen counter *)

(** [SeenCounter]: the ordered map of pre-numbering output keys; the
    shared [Memory] object is threaded explicitly as an integer. *)
Module SeenCounter.
Record t := mk { consumption : Z; state : OD.t Z }.

Definition __len__ (s : t) : Z := Z.of_nat (List.length (state s)).

(** [count]: returns the new state and the returned integer. *)
Definition count (value : string) (s : t) : t * Z :=
  match OD.get value (state s) with
  | None =>
      (mk (consumption s + len value) (OD.set value 0 (state s)), 0)
  | Some c =>
      let count := c + 1 in
      (mk (consumption s) (OD.set value count (state s)), count)
  end.

(** [pop]: [None] stands for the [KeyError] of [popitem] on an empty
    dictionary. *)
Definition pop (s : t) : option (t * (string * Z)) :=
  match OD.popitem_first (state s) with
  | None => None
  | Some ((abs_out_path, c), rest) =>
      Some (mk (consumption s - len abs_out_path) rest, (abs_out_path, c))
  end.

(** [n] consecutive calls of [count value]; the list of returned
    values, oldest first. *)
Fixpoint count_n (n : nat) (value : string) (s : t) : t * list Z :=
  match n with
  | O => (s, [])
  | S n' =>
      let '(s1, r) := count value s in
      let '(s2, rs) := count_n n' value s1 in
      (s2, r :: rs)
  end.

(** A history of calls on one counter. *)
Inductive op :=
| Count (value : string)
| Pop.

(** Runs a history; returns the final counter and the keys evicted by
    its [pop]s, [None] if a [pop] hit an empty counter. *)
Fixpoint run_ops (ops : list op) (s : t) : option (t * list string) :=
  match ops with
  | [] => Some (s, [])
  | Count value :: ops' => run_ops ops' (fst (count value s))
  | Pop :: ops' =>
      match pop s with
      | None => None
      | Some (s', (k, _)) =>
          match run_ops ops' s' with
          | None => None
          | Some (s'', evicted) => Some (s'', k :: evicted)
          end
      end
  end.

(** How many times a history calls [count value]. *)
Fixpoint calls (value : string) (ops : list op) : nat :=
  match ops with
  | [] => O
  | Count v :: ops' =>
      if String.eqb v value then S (calls value ops') else calls value ops'
  | Pop :: ops' => calls value ops'
  end.
End SeenCounter.

(** ** Exceptions and results *)

Inductive errno := ENOENT | EEXIST | EXDEV | ENAMETOOLONG | EOTHER (code : Z).

(** The Python exceptions the engine raises or lets through.
    [FileNotFoundError] is [OSError ENOENT], [FileExistsError] is
    [OSError EEXIST].  [OutOfFuel] is not a Python exception: it marks
    a [while True] loop of the model that ran out of fuel. *)
Inductive exn :=
| Failure (description : string)
| CatastrophicFailure (description : string)
| OSError (e : errno)
| KeyError
| AssertionError
| OutOfFuel.

Inductive result (A : Type) :=
| Ok (a : A)
| Raise (e : exn).
Arguments Ok {A} a.
Arguments Raise {A} e.

(** [exc.elaborate(pattern, args)] of a [Failure]: the rendered context
    is put in front of the description. *)
Definition elaborate (context : string) (description : string) : string :=
  context ++ ": " ++ description.

(** [what % ()]: a [Failure(what)] keeps the pattern rendered with its
    arguments as its description, and with no arguments the rendering
    turns each [%%] of the pattern into [%].  The patterns rendered this
    way here hold no other conversion. *)
Fixpoint render (what : string) : string :=
  match what with
  | String "%"%char (String "%"%char rest) => String "%"%char (render rest)
  | String c rest => String c (render rest)
  | EmptyString => EmptyString
  end.

Definition not_allowed : string :=
  "; this is not allowed to prevent accidental data loss".

Definition variance_help : string :=
  "; your `--output` format fails to provide enough variance to solve this problem automatically (did your forget to place a `%%(num)d` substitution in there?)"
  ++ not_allowed.

(** Modelled from the spec: [handle_ENAMETOOLONG] lives in the package's
    [io] module, which is not among the sources; the spec says
    "ENAMETOOLONG: wrap and re-raise with the offending path".  The
    function returns the exception that leaves the handler: the wrapped
    [Failure] for [ENAMETOOLONG], the original exception otherwise. *)
Definition handle_ENAMETOOLONG (exc : exn) (name : path) : exn :=
  match exc with
  | OSError ENAMETOOLONG => Failure ("target file system rejects `" ++ name ++ "` as too long")
  | _ => exc
  end.

(** ** The operating system *)

Record stat_result := mkstat { st_islnk : bool; st_dev : Z; st_ino : Z }.

(** [os.path.samestat]. *)
Definition samestat (s1 s2 : stat_result) : bool :=
  (st_ino s1 =? st_ino s2) && (st_dev s1 =? st_dev s2).

(** The four organize actions ([cargs.action]). *)
Inductive action := Move | Copy | Hardlink | Symlink.

Definition action_name (a : action) : string :=
  match a with
  | Move => "move" | Copy => "copy" | Hardlink => "hardlink"
  | Symlink => "symlink"
  end.

(** What the engine asks of its environment.  [World] holds the file
    system and the [DeferredSync] log [dsync]. *)
Class OS (World : Type) := {
  (** [os.lstat], [os.stat], [os.path.realpath], [os.path.abspath],
      [os.path.dirname] *)
  lstat : World -> path -> result stat_result;
  stat : World -> path -> result stat_result;
  realpath : World -> path -> path;
  abspath : path -> path;
  dirname : path -> path;
  (** [open(path, "rb")] followed by [read()] *)
  read_file : World -> path -> result bytes;
  (** [wrr_loadf_expr(path).stime] and
      [wrr_load_expr(BytesIO(data), path).stime] *)
  wrr_loadf_stime : World -> path -> result Z;
  wrr_load_stime : bytes -> path -> result Z;
  (** [os.makedirs(dirname, exist_ok = True)] *)
  makedirs : path -> World -> World * result unit;
  (** [atomic_move], [atomic_copy2], [atomic_link], [atomic_symlink],
      called as [action_op(src, dst, dsync, exists)] *)
  action_op : action -> path -> path -> bool -> World -> World * result unit;
  (** [dsync.sync()] and [dsync.finish()] *)
  dsync_sync : World -> World * result unit;
  dsync_finish : World -> World * result unit
}.

(** ** [hoardy_web/util.py] *)

Definition fileobj_content_equals (fdata data : bytes) : bool :=
  String.eqb fdata data.

Definition file_content_equals {World} `{OS World} (w : World) (p : path)
    (data : bytes) : result bool :=
  match read_file w p with
  | Ok fdata => Ok (fileobj_content_equals fdata data)
  | Raise (OSError ENOENT) => Ok false
  | Raise e => Raise e
  end.

(** ** Sources and intents of [make_organize_emit] *)

Record OrganizeSource := mksource {
  abs_path : path;
  stat_res : stat_result;
  stime_maybe : option Z
}.

Record OrganizeIntent := mkintent {
  source : OrganizeSource;
  exists_ : bool
}.

(** [OrganizeSource.approx_size], [format_source], [get_stime]. *)
Definition source_approx_size (self : OrganizeSource) : Z :=
  128 + len (abs_path self).

Definition source_format_source (self : OrganizeSource) : path := abs_path self.

(** [get_stime] returns the value and the object with the value cached
    in [stime_maybe]. *)
Definition get_stime {World} `{OS World} (w : World) (self : OrganizeSource)
    (data : option bytes) : result (OrganizeSource * Z) :=
  match stime_maybe self with
  | Some t => Ok (self, t)
  | None =>
      let loaded :=
        match data with
        | Some d => wrr_load_stime d (abs_path self)
        | None => wrr_loadf_stime w (abs_path self)
        end in
      match loaded with
      | Ok res => Ok (mksource (abs_path self) (stat_res self) (Some res), res)
      | Raise e => Raise e
      end
  end.

(** [OrganizeIntent.format_source] and [approx_size]. *)
Definition format_source (self : OrganizeIntent) : path :=
  source_format_source (source self).

Definition approx_size (self : OrganizeIntent) : Z :=
  32 + source_approx_size (source self).

(** The closure variables of [make_organize_emit]. *)
Record organize := mkorganize {
  act : action;
  allow_updates : bool;
  actioning : string;
  moving : bool;
  check_data : bool;
  symlinking : bool
}.

Definition make_organize (a : action) (allow_updates : bool) : result organize :=
  let actioning :=
    if allow_updates then "updating " ++ action_name a
    else action_name a ++ "ing" in
  match a with
  | Move =>
      if allow_updates
      then Raise (Failure "`--move` and `--latest` are not allowed together, it will lose your data")
      else Ok (mkorganize a allow_updates "moving" true true false)
  | Copy =>
      if allow_updates
      then Raise (Failure "`--copy` and `--latest` are not allowed together at the moment, it could lose your data")
      else Ok (mkorganize a allow_updates actioning false true false)
  | Hardlink =>
      if allow_updates
      then Raise (Failure "`--hardlink` and `--latest` are not allowed together at the moment, it could lose your data")
      else Ok (mkorganize a allow_updates actioning false true false)
  | Symlink => Ok (mkorganize a allow_updates actioning false false true)
  end.

(** ** The intent protocol: [update_from], [defer], [run] *)

(** What [update_from] leaves behind: the intent [self] after the call
    (its [source] is the returned source), the argument [new_source]
    after the call ([get_stime] may have cached its time), whether
    [self.source] was replaced by [new_source], and [permitted].
    The identity test [source is old_source] of [defer] is the negation
    of [uf_adopted]: [new_source] is an object of its own. *)
Record uf_result := mkuf {
  uf_self : OrganizeIntent;
  uf_new : OrganizeSource;
  uf_adopted : bool;
  uf_permitted : bool
}.

Definition uf_source (r : uf_result) : OrganizeSource := source (uf_self r).

(** The outcome of the data comparison of [update_from]: the early
    [return self.source, True], or falling through with [disk_data]. *)
Inductive data_check :=
| SameData
| FallThrough (disk_data : option bytes).

Section Protocol.
Context {World : Type} {os : OS World}.
Variable cfg : organize.

Definition check_same_data (w : World) (self : OrganizeIntent)
    (new_source : OrganizeSource) : result data_check :=
  if check_data cfg then
    if samestat (stat_res (source self)) (stat_res new_source) then
      (* same source file inode *)
      Ok SameData
    else
      match read_file w (abs_path (source self)) with
      | Raise e => Raise e
      | Ok disk_data =>
          match file_content_equals w (abs_path new_source) disk_data with
          | Raise e => Raise e
          | Ok true => Ok SameData (* same data on disk *)
          | Ok false => Ok (FallThrough (Some disk_data))
          end
      end
  else Ok (FallThrough None).

Definition update_from (w : World) (self : OrganizeIntent)
    (new_source : OrganizeSource) : result uf_result :=
  if symlinking cfg && String.eqb (abs_path (source self)) (abs_path new_source)
  then (* same source file path *)
    Ok (mkuf self new_source false true)
  else
    match check_same_data w self new_source with
    | Raise e => Raise e
    | Ok SameData => Ok (mkuf self new_source false true)
    | Ok (FallThrough disk_data) =>
        if negb (allow_updates cfg) then Ok (mkuf self new_source false false)
        else
          match get_stime w (source self) disk_data with
          | Raise e => Raise e
          | Ok (old', t_old) =>
              match get_stime w new_source None with
              | Raise e => Raise e
              | Ok (new', t_new) =>
                  if t_old <? t_new
                  then (* update source *)
                    Ok (mkuf (mkintent new' (exists_ self)) new' true true)
                  else Ok (mkuf (mkintent old' (exists_ self)) new' false true)
              end
          end
    end.

(** The result of [defer]: the triple the code returns, and
    [new_source] after the call. *)
Record defer_result := mkdefer {
  d_intent : option OrganizeIntent;
  d_source : option OrganizeSource;
  d_permitted : bool;
  d_new : OrganizeSource
}.

(** [defer] from the comment "re-create an intent for the target as
    if it was generated from old_source" on. *)
Definition defer_update (w : World) (old_source new_source : OrganizeSource)
  : result defer_result :=
  let intent := mkintent old_source true in
  match update_from w intent new_source with
  | Raise e => Raise e
  | Ok r =>
      if moving cfg && uf_permitted r then
        (* permitted moves always generate a replace *)
        Ok (mkdefer (Some (mkintent (uf_new r) true)) (Some (uf_new r)) true
              (uf_new r))
      else if negb (uf_adopted r) then
        (* the source was unchanged, generate a noop *)
        Ok (mkdefer None (Some (uf_source r)) (uf_permitted r) (uf_new r))
      else
        Ok (mkdefer (Some (uf_self r)) (Some (uf_source r)) (uf_permitted r)
              (uf_new r))
  end.

Definition defer (w : World) (abs_out_path : path)
    (old_source : option OrganizeSource) (new_source : OrganizeSource)
  : result defer_result :=
  if String.eqb (abs_path new_source) abs_out_path then
    (* hot evaluation path: renaming, hardlinking, symlinking, or etc
       to itself; skip it *)
    Ok (mkdefer None old_source true new_source)
  else
    match old_source with
    | Some old => defer_update w old new_source
    | None =>
        match lstat w abs_out_path with
        | Raise (OSError ENOENT) =>
            (* target does not exists *)
            Ok (mkdefer (Some (mkintent new_source false)) (Some new_source)
                  true new_source)
        | Raise e => Raise (handle_ENAMETOOLONG e abs_out_path)
        | Ok out_lstat =>
            if st_islnk out_lstat then
              (* abs_out_path is a symlink *)
              match stat w abs_out_path with
              | Raise (OSError ENOENT) =>
                  (* target is a broken symlink *)
                  Ok (mkdefer (Some (mkintent new_source true))
                        (Some new_source) true new_source)
              | Raise e => Raise e
              | Ok out_stat =>
                  if negb (symlinking cfg) then
                    Raise (Failure ("`--" ++ action_name (act cfg)
                                    ++ "` is set but `" ++ abs_out_path
                                    ++ "` exists and is a symlink" ++ not_allowed))
                  else
                    defer_update w
                      (mksource (realpath w abs_out_path) out_stat None)
                      new_source
              end
            else if symlinking cfg then
              Raise (Failure ("`--" ++ action_name (act cfg)
                              ++ "` is set but `" ++ abs_out_path
                              ++ "` exists and is not a symlink" ++ not_allowed))
            else
              defer_update w (mksource abs_out_path out_lstat None) new_source
        end
    end.

(** [run]: the new world and the returned source. *)
Definition run (self : OrganizeIntent) (abs_out_path : path) (dry_run : bool)
    (w : World) : World * result (option OrganizeSource) :=
  if String.eqb (abs_path (source self)) abs_out_path
  then (w, Raise AssertionError)
  else if dry_run then (w, Ok (Some (source self)))
  else
    let dname := dirname abs_out_path in
    match makedirs dname w with
    | (w1, Raise e) => (w1, Raise (handle_ENAMETOOLONG e dname))
    | (w1, Ok _) =>
        match action_op (act cfg) (abs_path (source self)) abs_out_path
                (exists_ self) w1 with
        | (w2, Raise (OSError EEXIST)) =>
            (w2, Raise (Failure ("`" ++ abs_out_path ++ "` already exists")))
        | (w2, Raise (OSError e)) =>
            match handle_ENAMETOOLONG (OSError e) abs_out_path with
            | OSError EXDEV =>
                (w2, Raise (Failure ("can't " ++ action_name (act cfg)
                                     ++ " across file systems")))
            | exc => (w2, Raise exc)
            end
        | (w2, Raise e) => (w2, Raise e)
        | (w2, Ok _) => (w2, Ok (Some (source self)))
        end
    end.
End Protocol.

(** ** The engine: [make_deferred_emit] *)

(** [cargs.errors]. *)
Inductive errors_policy := ErrFail | ErrSkip | ErrIgnore.

(** The fields of [cargs] the engine reads. *)
Record cargs := mkcargs {
  max_seen : Z;
  max_cached : Z;
  max_deferred : Z;
  max_batched : Z;
  max_memory : Z;
  terminator : option bytes;
  quiet : bool;
  dry_run : bool;
  errors : errors_policy;
  lazy : bool
}.

(** The external calls the engine makes, in the order it makes them. *)
Inductive event :=
| EvStderr (line : string)          (* the [stderr.write*] calls of one log line, and [stderr.flush()] *)
| EvLogError (msg : string)         (* [_logging.error] *)
| EvRun (abs_out_path : path)       (* [intent.run(abs_out_path, dsync, dry_run)] *)
| EvSync                            (* [dsync.sync()] *)
| EvStdout (abs_out_path : path) (terminator : bytes)
                                    (* [stdout.write(abs_out_path)]; [stdout.write_bytes(terminator)] *)
| EvStdoutFlush                     (* [stdout.flush()] *)
| EvStdoutFsync                     (* [fsync_maybe(stdout.fobj.fileno())] *)
| EvFinish.                         (* [dsync.finish()] *)

Section Engine.
Context {World : Type} {os : OS World}.

(** The state captured by the closures [emit] and [finish_updates]:
    [mem.consumption], [seen_counter.state], [deferred_intents],
    [source_cache], the world (with [dsync]) and the log of calls. *)
Record engine := mkengine {
  consumption : Z;
  seen_counter : OD.t Z;
  deferred_intents : OD.t OrganizeIntent;
  source_cache : OD.t OrganizeSource;
  world : World;
  trace : list event
}.

Definition M (A : Type) : Type := engine -> engine * result A.

Definition ret {A} (a : A) : M A := fun st => (st, Ok a).
Definition raise {A} (e : exn) : M A := fun st => (st, Raise e).
Definition bind {A B} (m : M A) (k : A -> M B) : M B :=
  fun st =>
    match m st with
    | (st', Ok a) => k a st'
    | (st', Raise e) => (st', Raise e)
    end.

Definition get_state : M engine := fun st => (st, Ok st).

Definition add_consumption (d : Z) : M unit :=
  fun st =>
    (mkengine (consumption st + d) (seen_counter st) (deferred_intents st)
       (source_cache st) (world st) (trace st), Ok tt).

Definition set_deferred (d : OD.t OrganizeIntent) : M unit :=
  fun st =>
    (mkengine (consumption st) (seen_counter st) d (source_cache st)
       (world st) (trace st), Ok tt).

Definition set_cache (c : OD.t OrganizeSource) : M unit :=
  fun st =>
    (mkengine (consumption st) (seen_counter st) (deferred_intents st) c
       (world st) (trace st), Ok tt).

Definition log (e : event) : M unit :=
  fun st =>
    (mkengine (consumption st) (seen_counter st) (deferred_intents st)
       (source_cache st) (world st) (trace st ++ [e])%list, Ok tt).

(** A call that changes the world. *)
Definition syscall {A} (f : World -> World * result A) : M A :=
  fun st =>
    let '(w, r) := f (world st) in
    (mkengine (consumption st) (seen_counter st) (deferred_intents st)
       (source_cache st) w (trace st), r).

(** A call that only reads the world. *)
Definition observe {A} (f : World -> result A) : M A :=
  fun st => (st, f (world st)).
End Engine.

Arguments engine : clear implicits.
Arguments M : clear implicits.

Declare Scope engine_scope.
Delimit Scope engine_scope with engine.
Notation "x <- m ;; k" := (bind m (fun x => k))
  (at level 61, m at next level, right associativity) : engine_scope.
Notation "m ;;; k" := (bind m (fun _ => k))
  (at level 61, right associativity) : engine_scope.
Local Open Scope engine_scope.

(** Each access to [source_cache] and [deferred_intents] comes with its
    line of memory accounting; the pairs are named here. *)
Section Accounting.
Context {World : Type} {os : OS World}.

(** [old_source = source_cache.pop(abs_out_path)], [None] on
    [KeyError], else [mem.consumption -= ...]. *)
Definition pop_source (abs_out_path : path) : M World (option OrganizeSource) :=
  st <- get_state ;;
  match OD.get abs_out_path (source_cache st) with
  | None => ret None
  | Some old_source =>
      set_cache (OD.remove abs_out_path (source_cache st)) ;;;
      add_consumption (- (source_approx_size old_source + len abs_out_path)) ;;;
      ret (Some old_source)
  end.

(** [intent = deferred_intents.pop(abs_out_path)], [None] on
    [KeyError], else [mem.consumption -= ...]. *)
Definition pop_intent (abs_out_path : path) : M World (option OrganizeIntent) :=
  st <- get_state ;;
  match OD.get abs_out_path (deferred_intents st) with
  | None => ret None
  | Some intent =>
      set_deferred (OD.remove abs_out_path (deferred_intents st)) ;;;
      add_consumption (- (approx_size intent + len abs_out_path)) ;;;
      ret (Some intent)
  end.

(** [deferred_intents[abs_out_path] = intent; mem.consumption += ...]. *)
Definition put_intent (abs_out_path : path) (intent : OrganizeIntent)
  : M World unit :=
  st <- get_state ;;
  set_deferred (OD.set abs_out_path intent (deferred_intents st)) ;;;
  add_consumption (approx_size intent + len abs_out_path).

(** [source_cache[abs_out_path] = updated_source; mem.consumption += ...]. *)
Definition put_source (abs_out_path : path) (updated_source : OrganizeSource)
  : M World unit :=
  st <- get_state ;;
  set_cache (OD.set abs_out_path updated_source (source_cache st)) ;;;
  add_consumption (source_approx_size updated_source + len abs_out_path).

(** The end of [complete_intent]: the cached entry at [abs_out_path],
    if any, is discounted before [put_source]. *)
Definition replace_source (abs_out_path : path) (updated_source : OrganizeSource)
  : M World unit :=
  st <- get_state ;;
  match OD.get abs_out_path (source_cache st) with
  | None => ret tt
  | Some old_source =>
      add_consumption (- (source_approx_size old_source + len abs_out_path))
  end ;;;
  put_source abs_out_path updated_source.
End Accounting.

Section MakeDeferredEmit.
Context {World : Type} {os : OS World}.

(** The arguments of [make_deferred_emit] and the closure variables
    of [make_organize_emit]. *)
Variable args : cargs.
Variable cfg : organize.

(** The reqres expression is opaque to the engine, which only expands
    the output template against it: [format_path rrexpr num] is
    [os.path.join(destination, output_format % rrexpr)] evaluated
    with [rrexpr.items["num"] = num]. *)
Variable ReqresExpr : Type.
Variable format_path : ReqresExpr -> Z -> path.
Variable filters_allow : ReqresExpr -> result bool.

(** [try: m except exc: handler exc]. *)
Definition catch {A} (m : M World A) (handler : exn -> M World A) : M World A :=
  fun st =>
    match m st with
    | (st', Raise e) => handler e st'
    | r => r
    end.

(** [seen_counter.count(value)] and [seen_counter.pop()] on the
    engine's shared memory account. *)
Definition seen_count (value : string) : M World Z :=
  fun st =>
    let '(s, r) := SeenCounter.count value
                     (SeenCounter.mk (consumption st) (seen_counter st)) in
    (mkengine (SeenCounter.consumption s) (SeenCounter.state s)
       (deferred_intents st) (source_cache st) (world st) (trace st), Ok r).

Definition seen_pop : M World (string * Z) :=
  fun st =>
    match SeenCounter.pop (SeenCounter.mk (consumption st) (seen_counter st)) with
    | None => (st, Raise KeyError)
    | Some (s, res) =>
        (mkengine (SeenCounter.consumption s) (SeenCounter.state s)
           (deferred_intents st) (source_cache st) (world st) (trace st),
         Ok res)
    end.

Definition while_actioning (src dst : path) : string :=
  "while " ++ actioning cfg ++ " `" ++ src ++ "` -> `" ++ dst ++ "`".

(** [complete_intent]; the list [done_files] of the enclosing
    [flush_updates] is passed in and returned. *)
Definition complete_intent (done_files : option (list path))
    (abs_out_path : path) (intent : OrganizeIntent) : M World (option (list path)) :=
  add_consumption (- (approx_size intent + len abs_out_path)) ;;;
  (if negb (quiet args) then
     let ing := if dry_run args then "dry-run: (not) " ++ actioning cfg
                else actioning cfg in
     log (EvStderr (ing ++ ": `" ++ format_source intent ++ "` -> `"
                    ++ abs_out_path ++ "`"))
   else ret tt) ;;;
  log (EvRun abs_out_path) ;;;
  catch
    (updated_source <- syscall (run cfg intent abs_out_path (dry_run args)) ;;
     let done_files' :=
       option_map (fun l => (l ++ [abs_out_path])%list) done_files in
     match updated_source with
     | None => ret done_files'
     | Some updated =>
         replace_source abs_out_path updated ;;;
         ret done_files'
     end)
    (fun exc =>
       match exc with
       | Failure description =>
           match errors args with
           | ErrIgnore => ret done_files
           | ErrSkip =>
               log (EvLogError
                      (elaborate (while_actioning (format_source intent) abs_out_path)
                         description)) ;;;
               ret done_files
           | ErrFail =>
               (* raise CatastrophicFailure so that load_map_orderly
                  wouldn't try handling it *)
               raise (CatastrophicFailure
                        (elaborate (while_actioning (format_source intent) abs_out_path)
                           description))
           end
       | _ => raise exc
       end).

(** The loop "flush seen cache".  [num_seen] and [num_deferred] are
    the loop's counters; [num_seen] also bounds the recursion. *)
Fixpoint flush_seen (max_memory_ : Z) (num_seen num_deferred : nat)
    (done_files : option (list path)) : M World (nat * option (list path)) :=
  match num_seen with
  | O => ret (num_deferred, done_files)
  | S num_seen' =>
      st <- get_state ;;
      if (Z.of_nat num_seen >? max_seen args)
         || (consumption st >? max_memory_) then
        kv <- seen_pop ;;
        let abs_out_path := fst kv in
        st <- get_state ;;
        match OD.get abs_out_path (deferred_intents st) with
        | None => flush_seen max_memory_ num_seen' num_deferred done_files
        | Some intent =>
            set_deferred (OD.remove abs_out_path (deferred_intents st)) ;;;
            done_files' <- complete_intent done_files abs_out_path intent ;;
            flush_seen max_memory_ num_seen' (Nat.pred num_deferred) done_files'
        end
      else ret (num_deferred, done_files)
  end.

(** The loop "flush deferred_intents". *)
Fixpoint flush_deferred (max_deferred_ max_memory_ : Z) (num_deferred : nat)
    (done_files : option (list path)) : M World (option (list path)) :=
  match num_deferred with
  | O => ret done_files
  | S num_deferred' =>
      st <- get_state ;;
      if (Z.of_nat num_deferred >? max_deferred_)
         || (consumption st >? max_memory_) then
        match OD.popitem_first (deferred_intents st) with
        | None => raise KeyError
        | Some ((abs_out_path, intent), rest) =>
            set_deferred rest ;;;
            done_files' <- complete_intent done_files abs_out_path intent ;;
            flush_deferred max_deferred_ max_memory_ num_deferred' done_files'
        end
      else ret done_files
  end.

(** The loop "flush source_cache". *)
Fixpoint flush_cache (max_memory_ : Z) (num_cached : nat) : M World unit :=
  match num_cached with
  | O => ret tt
  | S num_cached' =>
      st <- get_state ;;
      if (Z.of_nat num_cached >? max_cached args)
         || (consumption st >? max_memory_) then
        match OD.popitem_first (source_cache st) with
        | None => raise KeyError
        | Some ((abs_out_path, src), rest) =>
            set_cache rest ;;;
            add_consumption (- (source_approx_size src + len abs_out_path)) ;;;
            flush_cache max_memory_ num_cached'
        end
      else ret tt
  end.

(** "report to stdout". *)
Fixpoint report (t : bytes) (done_files : list path) : M World unit :=
  match done_files with
  | [] => ret tt
  | abs_out_path :: rest => log (EvStdout abs_out_path t) ;;; report t rest
  end.

(** [flush_updates]: "Flush some of the queue." *)
Definition flush_updates (final : bool) : M World unit :=
  st <- get_state ;;
  let max_deferred0 := if negb final then max_deferred args else 0 in
  let max_memory_ := if negb final then max_memory args * 1024 * 1024 else 0 in
  let num_deferred := List.length (deferred_intents st) in
  let num_cached := List.length (source_cache st) in
  let num_seen := List.length (seen_counter st) in
  if (Z.of_nat num_deferred <=? max_deferred0)
     && (Z.of_nat num_cached <=? max_cached args)
     && (Z.of_nat num_seen <=? max_seen args)
     && (consumption st <=? max_memory_)
  then ret tt
  else
    let done_files0 :=
      match terminator args with
      | Some _ => Some []
      | None => None
      end in
    (* flush seen cache *)
    r <- flush_seen max_memory_ num_seen num_deferred done_files0 ;;
    let num_deferred1 := fst r in
    (* flush deferred_intents *)
    st1 <- get_state ;;
    let max_deferred1 :=
      if negb final
         && (Z.of_nat num_deferred1 <=? max_deferred0 + max_batched args)
         && (consumption st1 <=? max_memory_)
      then max_deferred0 + max_batched args
      else max_deferred0 in
    done_files <- flush_deferred max_deferred1 max_memory_ num_deferred1 (snd r) ;;
    (* fsync *)
    log EvSync ;;;
    syscall dsync_sync ;;;
    (* report to stdout; [done_files] is a list exactly when the
       terminator is set *)
    match done_files, terminator args with
    | Some files, Some t =>
        report t files ;;;
        log EvStdoutFlush ;;;
        log EvStdoutFsync
    | _, _ => ret tt
    end ;;;
    (* delete source files when doing --move, etc *)
    log EvFinish ;;;
    syscall dsync_finish ;;;
    (* flush source_cache *)
    flush_cache max_memory_ num_cached.

(** [finish_updates]: "Flush all of the queue." *)
Definition finish_updates : M World unit :=
  flush_updates true ;;;
  st <- get_state ;;
  if consumption st =? 0 then ret tt else raise AssertionError.

(** How one turn of the [while True] loop of [emit] ends. *)
Inductive turn :=
| Break (intent : option OrganizeIntent) (abs_out_path : path)
| Continue (rel_out_path : path).

(** One turn of the loop of [emit] up to the test of [permitted]:
    the destination is computed and the intent and the source are put
    back into their collections.  Returns what [defer] or [update_from]
    decided, [rel_out_path] and [abs_out_path]. *)
Definition place (ogprefix : path) (new_source : OrganizeSource)
    (rrexpr : ReqresExpr) : M World (defer_result * path * path) :=
  num <- seen_count ogprefix ;;
  let rel_out_path := format_path rrexpr num in
  let abs_out_path := abspath rel_out_path in
  old_source <- pop_source abs_out_path ;;
  popped <- pop_intent abs_out_path ;;
  d <-
    match popped with
    | None => observe (fun w => defer cfg w abs_out_path old_source new_source)
    | Some intent =>
        r <- observe (fun w => update_from cfg w intent new_source) ;;
        ret (mkdefer (Some (uf_self r)) (Some (uf_source r)) (uf_permitted r)
               (uf_new r))
    end ;;
  match d_intent d with
  | None => ret tt
  | Some intent => put_intent abs_out_path intent
  end ;;;
  match d_source d with
  | None => ret tt
  | Some updated_source => put_source abs_out_path updated_source
  end ;;;
  ret (d, rel_out_path, abs_out_path).

(** The failure of [emit] on a destination that does not vary. *)
Definition variance_failure (new_source : OrganizeSource) (abs_out_path : path)
  : exn :=
  Failure (elaborate
             (while_actioning (source_format_source new_source) abs_out_path)
             (render ("destination already exists" ++ variance_help))).

(** One turn of the loop of [emit]; returns [new_source] after the
    turn as well. *)
Definition emit_turn (ogprefix : path) (new_source : OrganizeSource)
    (rrexpr : ReqresExpr) (prev_rel_out_path : option path)
  : M World (OrganizeSource * turn) :=
  placed <- place ogprefix new_source rrexpr ;;
  let '(d, rel_out_path, abs_out_path) := placed in
  if negb (d_permitted d) then
    if match prev_rel_out_path with
       | Some prev => String.eqb prev rel_out_path
       | None => false
       end
    then raise (variance_failure (d_new d) abs_out_path)
    else ret (d_new d, Continue rel_out_path)
  else ret (d_new d, Break (d_intent d) abs_out_path).

(** The [while True] loop of [emit], with fuel. *)
Fixpoint emit_loop (fuel : nat) (ogprefix : path) (new_source : OrganizeSource)
    (rrexpr : ReqresExpr) (prev_rel_out_path : option path)
  : M World (option OrganizeIntent * path) :=
  match fuel with
  | O => raise OutOfFuel
  | S fuel' =>
      r <- emit_turn ogprefix new_source rrexpr prev_rel_out_path ;;
      match snd r with
      | Break intent abs_out_path => ret (intent, abs_out_path)
      | Continue rel_out_path =>
          emit_loop fuel' ogprefix (fst r) rrexpr (Some rel_out_path)
      end
  end.

Definition emit (fuel : nat) (new_source : OrganizeSource) (rrexpr : ReqresExpr)
  : M World unit :=
  allowed <- (fun st => (st, filters_allow rrexpr)) ;;
  if negb allowed then ret tt
  else
    let ogprefix := format_path rrexpr 0 in
    r <- emit_loop fuel ogprefix new_source rrexpr None ;;
    match fst r, terminator args with
    | None, Some t => (* noop *) log (EvStdout (snd r) t)
    | _, _ => ret tt
    end ;;;
    if negb (lazy args) then flush_updates false else ret tt.
End MakeDeferredEmit.

(** ** A concrete world

    A small file system with two devices, symbolic links and a
    [DeferredSync] log; the engine is run on it in the examples and
    counterexamples below.  The atomic operations and [DeferredSync]
    belong to the package's [io] module, which is not among the
    sources. *)
Module SimpleFS.
Inductive node :=
| File (ino : Z) (data : bytes)
| Link (target : path).

(** Modelled from the spec: the [DeferredSync] log of the missing [io]
    module, "an ordered list of fsync targets (file descriptors,
    parent directories) and post-success actions (e.g. unlink source
    after move)"; [fsync_pending] and [unlink_pending] are the two
    lists, [fsynced] records what [sync()] has made durable. *)
Record fs := mkfs {
  files : OD.t node;
  next_ino : Z;
  fsync_pending : list path;
  unlink_pending : list path;
  fsynced : list path
}.

(** Paths under [/mnt/] are on device 2, all others on device 1. *)
Definition dev_of (p : path) : Z :=
  if String.prefix "/mnt/" p then 2 else 1.

Fixpoint contains_slash (s : string) : bool :=
  match s with
  | EmptyString => false
  | String c r => Ascii.eqb c "/"%char || contains_slash r
  end.

(** [os.path.dirname] for normalized paths: everything before the
    last slash, the root for entries of the root. *)
Fixpoint dir_prefix (s : string) : string :=
  match s with
  | EmptyString => EmptyString
  | String c r =>
      if contains_slash r then String c (dir_prefix r) else EmptyString
  end.

Definition fs_dirname (p : path) : path :=
  match dir_prefix p with
  | EmptyString => if String.prefix "/" p then "/" else ""
  | d => d
  end.

Definition enoent {A} : result A := Raise (OSError ENOENT).

Definition fs_lstat (w : fs) (p : path) : result stat_result :=
  match OD.get p (files w) with
  | None => enoent
  | Some (File ino _) => Ok (mkstat false (dev_of p) ino)
  | Some (Link _) => Ok (mkstat true (dev_of p) 0)
  end.

(** Links are followed one level: a link to a link is dangling. *)
Definition fs_realpath (w : fs) (p : path) : path :=
  match OD.get p (files w) with
  | Some (Link target) => target
  | _ => p
  end.

Definition fs_stat (w : fs) (p : path) : result stat_result :=
  let q := fs_realpath w p in
  match OD.get q (files w) with
  | Some (File ino _) => Ok (mkstat false (dev_of q) ino)
  | _ => enoent
  end.

Definition fs_read_file (w : fs) (p : path) : result bytes :=
  match OD.get (fs_realpath w p) (files w) with
  | Some (File _ data) => Ok data
  | _ => enoent
  end.

(** The source time of a record is read off its bytes; here it is
    their number. *)
Definition fs_wrr_load_stime (data : bytes) (p : path) : result Z :=
  Ok (len data).

Definition fs_wrr_loadf_stime (w : fs) (p : path) : result Z :=
  match fs_read_file w p with
  | Ok data => fs_wrr_load_stime data p
  | Raise e => Raise e
  end.

Definition fs_makedirs (p : path) (w : fs) : fs * result unit := (w, Ok tt).

Definition exists_at (w : fs) (p : path) : bool :=
  match OD.get p (files w) with Some _ => true | None => false end.

Definition put (dst : path) (n : node) (w : fs) : fs :=
  mkfs (OD.set dst n (files w)) (next_ino w)
    (fsync_pending w ++ [dst; fs_dirname dst])%list
    (unlink_pending w) (fsynced w).

(** [rename(2)]: fails with [EXDEV] across devices. *)
Definition rename (src dst : path) (allow_overwrites : bool) (w : fs)
  : fs * result unit :=
  match OD.get src (files w) with
  | None => (w, enoent)
  | Some n =>
      if negb (dev_of src =? dev_of dst) then (w, Raise (OSError EXDEV))
      else if exists_at w dst && negb allow_overwrites
      then (w, Raise (OSError EEXIST))
      else
        let w' := put dst n w in
        (mkfs (OD.remove src (files w')) (next_ino w') (fsync_pending w')
           (unlink_pending w') (fsynced w'), Ok tt)
  end.

(** Modelled from the spec: [atomic_copy2] of the missing [io] module;
    the data is written to a fresh inode at [dst] and the data and
    directory fsyncs are queued; "On EEXIST raise fatal". *)
Definition atomic_copy2 (src dst : path) (allow_overwrites : bool) (w : fs)
  : fs * result unit :=
  match fs_read_file w src with
  | Raise e => (w, Raise e)
  | Ok data =>
      if exists_at w dst && negb allow_overwrites
      then (w, Raise (OSError EEXIST))
      else
        let w' := put dst (File (next_ino w) data) w in
        (mkfs (files w') (next_ino w' + 1) (fsync_pending w')
           (unlink_pending w') (fsynced w'), Ok tt)
  end.

(** Modelled from the spec: [atomic_move] of the missing [io] module,
    "on cross-device EXDEV during move, decompose into copy +
    scheduled unlink"; the unlink is a post-success action of the
    sync log. *)
Definition atomic_move (src dst : path) (allow_overwrites : bool) (w : fs)
  : fs * result unit :=
  match rename src dst allow_overwrites w with
  | (_, Raise (OSError EXDEV)) =>
      match atomic_copy2 src dst allow_overwrites w with
      | (w', Ok _) =>
          (mkfs (files w') (next_ino w') (fsync_pending w')
             (unlink_pending w' ++ [src])%list (fsynced w'), Ok tt)
      | r => r
      end
  | r => r
  end.

(** Modelled from the spec: [atomic_link] of the missing [io] module
    ([linkat]); a hard link cannot cross devices. *)
Definition atomic_link (src dst : path) (allow_overwrites : bool) (w : fs)
  : fs * result unit :=
  match OD.get src (files w) with
  | None => (w, enoent)
  | Some n =>
      if negb (dev_of src =? dev_of dst) then (w, Raise (OSError EXDEV))
      else if exists_at w dst && negb allow_overwrites
      then (w, Raise (OSError EEXIST))
      else (put dst n w, Ok tt)
  end.

(** Modelled from the spec: [atomic_symlink] of the missing [io]
    module ([symlinkat]). *)
Definition atomic_symlink (src dst : path) (allow_overwrites : bool) (w : fs)
  : fs * result unit :=
  if exists_at w dst && negb allow_overwrites
  then (w, Raise (OSError EEXIST))
  else (put dst (Link src) w, Ok tt).

Definition fs_action_op (a : action) : path -> path -> bool -> fs -> fs * result unit :=
  match a with
  | Move => atomic_move
  | Copy => atomic_copy2
  | Hardlink => atomic_link
  | Symlink => atomic_symlink
  end.

(** Modelled from the spec: "sync() executes all fsyncs; finish()
    runs post-success actions". *)
Definition sync (w : fs) : fs * result unit :=
  (mkfs (files w) (next_ino w) [] (unlink_pending w)
     (fsynced w ++ fsync_pending w)%list, Ok tt).

Definition finish (w : fs) : fs * result unit :=
  (mkfs (fold_left (fun d p => OD.remove p d) (unlink_pending w) (files w))
     (next_ino w) (fsync_pending w) [] (fsynced w), Ok tt).

#[global] Instance simple_os : OS fs := {|
  lstat := fs_lstat;
  stat := fs_stat;
  realpath := fs_realpath;
  abspath := fun p => p;
  dirname := fs_dirname;
  read_file := fs_read_file;
  wrr_loadf_stime := fs_wrr_loadf_stime;
  wrr_load_stime := fs_wrr_load_stime;
  makedirs := fs_makedirs;
  action_op := fs_action_op;
  dsync_sync := sync;
  dsync_finish := finish
|}.

Definition empty_engine (w : fs) : engine fs := mkengine 0 [] [] [] w [].
End SimpleFS.

(** ** Examples *)

(** The world of the examples: two records on device 1, the first with
    two hard links, a dangling symbolic link and a symbolic link to the
    first record. *)
Definition example_fs : SimpleFS.fs :=
  SimpleFS.mkfs
    [("/src/a.wrr", SimpleFS.File 10 "aaaa");
     ("/src/a-link.wrr", SimpleFS.File 10 "aaaa");
     ("/src/b.wrr", SimpleFS.File 11 "bbbbbb");
     ("/dst/dangling.wrr", SimpleFS.Link "/src/gone.wrr");
     ("/dst/link.wrr", SimpleFS.Link "/src/a.wrr")]
    100 [] [] [].

Definition example_a : OrganizeSource :=
  mksource "/src/a.wrr" (mkstat false 1 10) (Some 4).
Definition example_a_link : OrganizeSource :=
  mksource "/src/a-link.wrr" (mkstat false 1 10) (Some 4).
Definition example_b : OrganizeSource :=
  mksource "/src/b.wrr" (mkstat false 1 11) (Some 6).
Definition example_gone : OrganizeSource :=
  mksource "/src/gone.wrr" (mkstat false 1 12) (Some 5).

Definition copying : organize := mkorganize Copy false "copying" false true false.
Definition moving_ : organize := mkorganize Move false "moving" true true false.
Definition symlinking_ (u : bool) : organize :=
  mkorganize Symlink u (if u then "updating symlink" else "symlinking")
    false false true.

Definition newline : bytes := String "010"%char EmptyString.


(** The default budgets of the command line, reporting with a newline
    terminator. *)
Definition example_args : cargs :=
  mkcargs 16384 8192 1024 128 1024 (Some newline) false false ErrFail false.

(** The same with [--cache-number 0]. *)
Definition example_args_no_cache : cargs :=
  mkcargs 16384 0 1024 128 1024 (Some newline) false false ErrFail false.

(** An output template without a [num] substitution, and one with. *)
Definition fixed_path (_ : unit) (num : Z) : path := "/dst/x.wrr".

Definition numbered_path (_ : unit) (num : Z) : path :=
  "/dst/x." ++ NilZero.string_of_int (Z.to_int num) ++ ".wrr".

Definition allow_all (_ : unit) : result bool := Ok true.

Definition example_engine : engine SimpleFS.fs := SimpleFS.empty_engine example_fs.

(** [emit] of the first record into the empty engine. *)
Definition after_first_emit (args : cargs) (cfg : organize)
    (format_path : unit -> Z -> path) : engine SimpleFS.fs :=
  fst (emit args cfg unit format_path allow_all 3 example_a tt example_engine).

(** Budgets of one intent and one key: the second and third records
    push the first ones out. *)
Definition example_args_tight : cargs :=
  mkcargs 1 8192 1 0 1024 (Some newline) false false ErrFail false.

(** [--lazy]: [emit] leaves all flushing to [finish_updates]. *)
Definition example_args_lazy : cargs :=
  mkcargs 16384 8192 1024 128 1024 (Some newline) false false ErrFail true.

(** [--dry-run] with one queued intent allowed; [elaborate_output] has
    reset the terminator. *)
Definition example_args_dry : cargs :=
  mkcargs 16384 8192 0 0 1024 None false true ErrFail false.

(** ** Filters: [filters_allow] *)

(** What a compiled [--and] or [--or] expression evaluates to: a
    [bool], or a value of another type, of which the error message
    shows the [repr]. *)
Inductive linst_value :=
| VBool (b : bool)
| VOther (repr : string).

Section Filters.
Variable ReqresExpr : Type.

(** [rrexpr.fs_path]. *)
Variable fs_path : ReqresExpr -> option path.

(** A compiled expression, called as [func(rrexpr, None)]. *)
Definition LinstFunc : Type := ReqresExpr -> result linst_value.

Definition eval_it (rrexpr : ReqresExpr) (expr : string) (func : LinstFunc)
  : result bool :=
  match func rrexpr with
  | Raise e => Raise e
  | Ok (VBool ev) => Ok ev
  | Ok (VOther repr) =>
      let description :=
        "while evaluating `" ++ expr
        ++ "`: expected a value of type `bool`, got `" ++ repr ++ "`" in
      Raise (CatastrophicFailure
               match fs_path rrexpr with
               | Some p => elaborate ("while processing `" ++ p ++ "`") description
               | None => description
               end)
  end.

(** The loop over [cargs.anys], and what follows it. *)
Fixpoint filters_any (rrexpr : ReqresExpr) (anys : list (string * LinstFunc))
    (some_anys : bool) : result bool :=
  match anys with
  | [] => if some_anys then Ok false else Ok true
  | (expr, func) :: rest =>
      match eval_it rrexpr expr func with
      | Raise e => Raise e
      | Ok true => Ok true
      | Ok false => filters_any rrexpr rest some_anys
      end
  end.

(** The loop over [cargs.alls]. *)
Fixpoint filters_all (rrexpr : ReqresExpr) (alls : list (string * LinstFunc))
    (k : result bool) : result bool :=
  match alls with
  | [] => k
  | (expr, func) :: rest =>
      match eval_it rrexpr expr func with
      | Raise e => Raise e
      | Ok false => Ok false
      | Ok true => filters_all rrexpr rest k
      end
  end.

Definition filters_allow (alls anys : list (string * LinstFunc))
    (rrexpr : ReqresExpr) : result bool :=
  filters_all rrexpr alls
    (filters_any rrexpr anys (0 <? Z.of_nat (List.length anys))).
End Filters.

Arguments eval_it {ReqresExpr} fs_path rrexpr expr func.
Arguments filters_allow {ReqresExpr} fs_path alls anys rrexpr.

(** ** Input paths: [elaborate_paths], [handle_paths] *)

(** A path of [cargs.paths]: a [str] of the command line, or [bytes]
    read from stdin. *)
Inductive anystr :=
| Str (s : string)
| Bytes (b : bytes).

(** What [handle_paths] leaves: the new [cargs.paths], or its
    exception.  [TypeError] is what [list.sort] raises when it
    compares a [str] with [bytes]. *)
Inductive paths_result :=
| Paths (paths : list anystr)
| PathsFailure (description : string)
| PathsTypeError.

Definition NUL : ascii := "000"%char.

(** [data.split(b"\0")]: the pieces between the NUL bytes, one more
    than there are NUL bytes. *)
Fixpoint split0 (data : bytes) : list bytes :=
  match data with
  | EmptyString => [EmptyString]
  | String c rest =>
      if Ascii.eqb c NUL then EmptyString :: split0 rest
      else
        match split0 rest with
        | piece :: pieces => String c piece :: pieces
        | [] => [String c EmptyString]
        end
  end.

(** [x < y]; [None] is the [TypeError] between [str] and [bytes]. *)
Definition anystr_ltb (x y : anystr) : option bool :=
  match x, y with
  | Str a, Str b => Some (String.ltb a b)
  | Bytes a, Bytes b => Some (String.ltb a b)
  | _, _ => None
  end.

(** [paths.sort(reverse=reverse)] as a stable insertion sort: [x],
    which comes before the elements of the sorted [l], stays before
    the ones it is equal to. *)
Fixpoint sort_insert (reverse : bool) (x : anystr) (l : list anystr)
  : option (list anystr) :=
  match l with
  | [] => Some [x]
  | y :: l' =>
      match (if reverse then anystr_ltb x y else anystr_ltb y x) with
      | None => None
      | Some true =>
          match sort_insert reverse x l' with
          | Some r => Some (y :: r)
          | None => None
          end
      | Some false => Some (x :: l)
      end
  end.

Fixpoint sort (reverse : bool) (l : list anystr) : option (list anystr) :=
  match l with
  | [] => Some []
  | x :: l' =>
      match sort reverse l' with
      | Some sorted => sort_insert reverse x sorted
      | None => None
      end
  end.

Section HandlePaths.
(** [os.path.expanduser]. *)
Variable expanduser : anystr -> anystr.

Definition elaborate_paths (paths : list anystr) : list anystr :=
  map expanduser paths.

(** [handle_paths(cargs, append_stdin0)], with the fields [stdin0],
    [walk_paths] and [paths] of [cargs] and the bytes that
    [stdin.read_all_bytes()] returns.  [split] never returns an empty
    list, so [paths.pop()] cannot raise. *)
Definition handle_paths (append_stdin0 stdin0 : bool) (stdin : bytes)
    (walk_paths : option bool) (paths : list anystr) : paths_result :=
  let continue (paths : list anystr) :=
    let paths := elaborate_paths paths in
    match walk_paths with
    | None => Paths paths
    | Some walk =>
        match sort (negb walk) paths with
        | Some sorted => Paths sorted
        | None => PathsTypeError
        end
    end in
  if append_stdin0 && stdin0 then
    let pieces := split0 stdin in
    let last := List.last pieces EmptyString in
    let pieces := removelast pieces in
    if negb (String.eqb last "")
    then PathsFailure "`--stdin0` input format error"
    else continue (paths ++ map Bytes pieces)%list
  else continue paths.
End HandlePaths.

(** ** The walk over the inputs: [load_map_orderly], [map_wrr_paths_extra] *)

(** How a walk over the inputs ends: it returns, [KeyboardInterrupt]
    is raised, or another exception is. *)
Inductive outcome :=
| Finished
| Interrupted
| Raised (e : exn).

(** [s.endswith(suffix)]. *)
Definition endswith (s suffix : string) : bool :=
  let n := String.length s in
  let m := String.length suffix in
  (m <=? n)%nat && String.eqb (substring (n - m) m s) suffix.

Section LoadMapOrderly.
Context {World : Type} {os : OS World}.

Variable LoadElem : Type.

(** [load_func(fobj, abs_path)] on the bytes of the opened file. *)
Variable load_func : bytes -> path -> result LoadElem.

(** [emit_func(abs_path, path, in_stat, data)]. *)
Variable emit_func : path -> path -> stat_result -> LoadElem -> M World unit.

Variable follow_symlinks : bool.
Variable errors : errors_policy.

(** [try: m except OSError: raise Failure("failed to open `%s`", path)]. *)
Definition failed_to_open {A} (path : path) (m : M World A) : M World A :=
  catch m
    (fun exc =>
       match exc with
       | OSError _ => raise (Failure ("failed to open `" ++ path ++ "`"))
       | _ => raise exc
       end).

(** The body of the loop of [load_map_orderly] for a path that is
    processed, from [abs_path = os.path.abspath(path)] on. *)
Definition load_map_one (path : path) : M World unit :=
  let abs_path := abspath path in
  catch
    (st <- get_state ;;
     let abs_path :=
       if follow_symlinks then realpath (world st) abs_path else abs_path in
     fobj <- failed_to_open path (observe (fun w => read_file w abs_path)) ;;
     in_stat <- failed_to_open path (observe (fun w => stat w abs_path)) ;;
     data <- observe (fun _ => load_func fobj abs_path) ;;
     emit_func abs_path path in_stat data)
    (fun exc =>
       match exc with
       | Failure description =>
           match errors with
           | ErrIgnore => ret tt
           | ErrSkip =>
               log (EvLogError
                      (elaborate ("while processing `" ++ path ++ "`")
                         description)) ;;;
               ret tt
           | ErrFail =>
               raise (Failure
                        (elaborate ("while processing `" ++ path ++ "`")
                           description))
           end
       | _ => raise exc
       end).

(** [load_map_orderly] on the paths that [walk_orderly] yields, each
    with the value of the global [want_stop] that the loop reads
    before it looks at the path. *)
Fixpoint load_map_orderly (walked : list (bool * path)) (st : engine World)
  : engine World * outcome :=
  match walked with
  | [] => (st, Finished)
  | (want_stop, path) :: rest =>
      if want_stop then (st, Interrupted)
      else if endswith path ".part" then load_map_orderly rest st
      else
        match load_map_one path st with
        | (st', Ok _) => load_map_orderly rest st'
        | (st', Raise e) => (st', Raised e)
        end
  end.

(** [map_wrr_paths_extra]: [walk_orderly path] is the walk from
    [path]. *)
Fixpoint map_wrr_paths_extra (walk_orderly : path -> list (bool * path))
    (paths : list path) (st : engine World) : engine World * outcome :=
  match paths with
  | [] => (st, Finished)
  | path :: rest =>
      match load_map_orderly (walk_orderly path) st with
      | (st', Finished) => map_wrr_paths_extra walk_orderly rest st'
      | r => r
      end
  end.

(** [try: body finally: handler()]. *)
Definition finally (body : engine World -> engine World * outcome)
    (handler : M World unit) (st : engine World) : engine World * outcome :=
  let '(st1, o) := body st in
  match handler st1 with
  | (st2, Ok _) => (st2, o)
  | (st2, Raise e) => (st2, Raised e)
  end.
End LoadMapOrderly.

(** ** [cmd_organize] with a destination *)

Section CmdOrganize.
Context {World : Type} {os : OS World}.
Variable args : cargs.
Variable cfg : organize.
Variable ReqresExpr : Type.
Variable format_path : ReqresExpr -> Z -> path.
Variable filters_allow : ReqresExpr -> result bool.

(** [rrexpr.stime] and [wrr_load_expr]. *)
Variable stime : ReqresExpr -> Z.
Variable wrr_load_expr : bytes -> path -> result ReqresExpr.

(** The [emit] that [make_organize_emit] returns. *)
Definition organize_emit (fuel : nat) (abs_in_path rel_in_path : path)
    (in_stat : stat_result) (rrexpr : ReqresExpr) : M World unit :=
  emit args cfg ReqresExpr format_path filters_allow fuel
    (mksource abs_in_path in_stat (Some (stime rrexpr))) rrexpr.

(** The branch "destination is set explicitly" of [cmd_organize],
    after [make_organize_emit] has returned [emit] and [finish]:
    [try: map_wrr_paths_extra(...) finally: finish()]. *)
Definition cmd_organize_to (fuel : nat)
    (walk_orderly : path -> list (bool * path)) (paths : list path)
  : engine World -> engine World * outcome :=
  finally
    (map_wrr_paths_extra ReqresExpr wrr_load_expr (organize_emit fuel) true
       (errors args) walk_orderly paths)
    (finish_updates args cfg).
End CmdOrganize.

(** A walk of [/src] during which no interrupt arrives, a loader that
    accepts every file, and the [emit] of [organize --move]. *)
Definition example_walk (root : path) : list (bool * path) :=
  [(false, "/src/a.wrr"); (false, "/src/b.wrr.part"); (false, "/src/b.wrr")].

Definition example_load (data : bytes) (p : path) : result unit := Ok tt.

Definition example_emit
  : path -> path -> stat_result -> unit -> M SimpleFS.fs unit :=
  organize_emit example_args moving_ unit numbered_path allow_all
    (fun _ => 4) 3.

(** ** [elaborate_output] *)

(** The table [output_aliases]. *)
Definition output_aliases : OD.t string :=
  [("default",
    "%(syear)d/%(smonth)02d/%(sday)02d/%(shour)02d%(sminute)02d%(ssecond)02d%(stime_msq)03d_%(qtime_ms)s_%(method)s_%(net_url|to_ascii|sha256|take_prefix 4)s_%(status)s_%(hostname)s.%(num)d");
   ("short",
    "%(syear)d/%(smonth)02d/%(sday)02d/%(stime_ms)d_%(qtime_ms)s.%(num)d");
   ("surl",
    "%(scheme)s/%(netloc)s/%(mq_path)s%(oqm)s%(mq_query)s");
   ("surl_msn",
    "%(scheme)s/%(netloc)s/%(mq_path)s%(oqm)s%(mq_query)s_%(method)s_%(status)s.%(num)d");
   ("shupq",
    "%(scheme)s/%(hostname)s/%(wget_parts|abbrev_each 120|pp_to_path)s%(oqm)s%(mq_query|abbrev 120)s");
   ("shupq_msn",
    "%(scheme)s/%(hostname)s/%(wget_parts|abbrev_each 120|pp_to_path)s%(oqm)s%(mq_query|abbrev 100)s_%(method)s_%(status)s.%(num)d");
   ("shupnq",
    "%(scheme)s/%(hostname)s/%(wget_parts|abbrev_each 120|pp_to_path)s%(oqm)s%(mq_nquery|abbrev 120)s");
   ("shupnq_msn",
    "%(scheme)s/%(hostname)s/%(wget_parts|abbrev_each 120|pp_to_path)s%(oqm)s%(mq_nquery|abbrev 100)s_%(method)s_%(status)s.%(num)d");
   ("srhupq",
    "%(scheme)s/%(rhostname)s/%(wget_parts|abbrev_each 120|pp_to_path)s%(oqm)s%(mq_query|abbrev 120)s");
   ("srhupq_msn",
    "%(scheme)s/%(rhostname)s/%(wget_parts|abbrev_each 120|pp_to_path)s%(oqm)s%(mq_query|abbrev 100)s_%(method)s_%(status)s.%(num)d");
   ("srhupnq",
    "%(scheme)s/%(rhostname)s/%(wget_parts|abbrev_each 120|pp_to_path)s%(oqm)s%(mq_nquery|abbrev 120)s");
   ("srhupnq_msn",
    "%(scheme)s/%(rhostname)s/%(wget_parts|abbrev_each 120|pp_to_path)s%(oqm)s%(mq_nquery|abbrev 100)s_%(method)s_%(status)s.%(num)d");
   ("url",
    "%(netloc)s/%(mq_path)s%(oqm)s%(mq_query)s");
   ("url_msn",
    "%(netloc)s/%(mq_path)s%(oqm)s%(mq_query)s_%(method)s_%(status)s.%(num)d");
   ("hupq",
    "%(hostname)s/%(wget_parts|abbrev_each 120|pp_to_path)s%(oqm)s%(mq_query|abbrev 120)s");
   ("hupq_msn",
    "%(hostname)s/%(wget_parts|abbrev_each 120|pp_to_path)s%(oqm)s%(mq_query|abbrev 100)s_%(method)s_%(status)s.%(num)d");
   ("hupnq",
    "%(hostname)s/%(wget_parts|abbrev_each 120|pp_to_path)s%(oqm)s%(mq_nquery|abbrev 120)s");
   ("hupnq_msn",
    "%(hostname)s/%(wget_parts|abbrev_each 120|pp_to_path)s%(oqm)s%(mq_nquery|abbrev 100)s_%(method)s_%(status)s.%(num)d");
   ("rhupq",
    "%(rhostname)s/%(wget_parts|abbrev_each 120|pp_to_path)s%(oqm)s%(mq_query|abbrev 120)s");
   ("rhupq_msn",
    "%(rhostname)s/%(wget_parts|abbrev_each 120|pp_to_path)s%(oqm)s%(mq_query|abbrev 100)s_%(method)s_%(status)s.%(num)d");
   ("rhupnq",
    "%(rhostname)s/%(wget_parts|abbrev_each 120|pp_to_path)s%(oqm)s%(mq_nquery|abbrev 120)s");
   ("rhupnq_msn",
    "%(rhostname)s/%(wget_parts|abbrev_each 120|pp_to_path)s%(oqm)s%(mq_nquery|abbrev 100)s_%(method)s_%(status)s.%(num)d");
   ("flat",
    "%(hostname)s/%(wget_parts|abbrev_each 120|pp_to_path|replace / __|abbrev 120)s%(oqm)s%(mq_nquery|abbrev 100)s_%(method)s_%(net_url|to_ascii|sha256|take_prefix 4)s_%(status)s");
   ("flat_n",
    "%(hostname)s/%(wget_parts|abbrev_each 120|pp_to_path|replace / __|abbrev 120)s%(oqm)s%(mq_nquery|abbrev 100)s_%(method)s_%(net_url|to_ascii|sha256|take_prefix 4)s_%(status)s.%(num)d")].

(** The double quote of the error message. *)
Definition dquote : string := String (ascii_of_nat 34) EmptyString.

(** [elaborate_output]: the fields [terminator] and [output] of
    [cargs] are read, [terminator] and [output_format] are set; the
    function returns [cargs] after the call and [cargs.output_format]. *)
Definition elaborate_output (args : cargs) (output : string)
  : result (cargs * string) :=
  let args :=
    if dry_run args
    then mkcargs (max_seen args) (max_cached args) (max_deferred args)
           (max_batched args) (max_memory args) None (quiet args)
           (dry_run args) (errors args) (lazy args)
    else args in
  if String.prefix "format:" output
  then Ok (args, substring 7 (String.length output - 7) output)
  else
    match OD.get output output_aliases with
    | Some output_format => Ok (args, output_format)
    | None =>
        Raise (CatastrophicFailure
                 ("unknown `--output` alias " ++ dquote ++ output ++ dquote
                  ++ ", prepend " ++ dquote ++ "format:" ++ dquote
                  ++ " if you want it to be interpreted as a Pythonic %-substutition"))
    end.

(** ** More of [hoardy_web/util.py]: [gzip_maybe], [ungzip_fileobj_maybe], pipes *)

(** The first two bytes of a GZip stream, [b"\037\213"]. *)
Definition gzip_magic : bytes :=
  String (ascii_of_nat 31) (String (ascii_of_nat 139) EmptyString).

Section Gzip.
(** What [gzip.GzipFile(fileobj=buf, filename="", mtime=0, mode="wb",
    compresslevel=9)] leaves in [buf] for the data written, and what
    reading a [gzip.GzipFile(fileobj=fobj, mode="rb")] gives. *)
Variable gzip : bytes -> bytes.
Variable gunzip : bytes -> result bytes.

Definition gzip_maybe (data : bytes) : bytes :=
  let compressed_data := gzip data in
  if len compressed_data <? len data then compressed_data else data.

(** [ungzip_fileobj_maybe], with the file objects given by what is
    read from them. *)
Definition ungzip_fileobj_maybe (fobj : bytes) : result bytes :=
  let head := substring 0 2 fobj in
  if String.eqb head gzip_magic then gunzip fobj else Ok fobj.
End Gzip.

Definition make_func_pipe {PipeType : Type} (pipe : list (PipeType -> PipeType))
    (x : PipeType) : PipeType :=
  fold_left (fun x func => func x) pipe x.

Definition make_envfunc_pipe {EnvType PipeType : Type}
    (pipe : list (EnvType -> PipeType -> PipeType)) (env : EnvType)
    (x : PipeType) : PipeType :=
  fold_left (fun x func => func env x) pipe x.

(** A stand-in for GZip in the examples: the magic bytes, then the
    data as it is. *)
Definition example_gzip (data : bytes) : bytes := gzip_magic ++ data.

Definition example_gunzip (fobj : bytes) : result bytes :=
  Ok (substring 2 (String.length fobj - 2) fobj).

(** * Specifications *)

(** ** The seen counter *)

Module SeenCounterSpec.
Import SeenCounter.

(** The value stored for [key]. *)
Definition stored (key : string) (s : t) : option Z := OD.get key (state s).

(** What [count key] returns on a counter storing [o] for [key]. *)
Definition next (o : option Z) : Z :=
  match o with
  | None => 0
  | Some c => c + 1
  end.

(** The stored value after [n] more calls. *)
Definition advance (o : option Z) (n : nat) : option Z :=
  match n with
  | O => o
  | S n' => Some (next o + Z.of_nat n')
  end.

End SeenCounterSpec.

(** ** Diagnostics, call traces *)

(** The diagnostic of a non-symlink action that finds a symlink. *)
Definition is_a_symlink (cfg : organize) (abs_out_path : path) : exn :=
  Failure ("`--" ++ action_name (act cfg) ++ "` is set but `" ++ abs_out_path
           ++ "` exists and is a symlink" ++ not_allowed).

(** The failure on a destination that does not vary, as the user
    reads it. *)
Definition destination_exists (cfg : organize) (src abs_out_path : path) : exn :=
  Failure ("while " ++ actioning cfg ++ " `" ++ src ++ "` -> `" ++ abs_out_path
           ++ "`: destination already exists; your `--output` format fails to provide enough variance to solve this problem automatically (did your forget to place a `%(num)d` substitution in there?); this is not allowed to prevent accidental data loss").

(** The calls made while intents are executed. *)
Definition exec_event (e : event) : Prop :=
  match e with
  | EvStderr _ | EvLogError _ | EvRun _ => True
  | _ => False
  end.

(** The list [done_files] of [flush_updates], empty when reporting is
    disabled ([done_files is None]). *)
Definition files_of (done_files : option (list path)) : list path :=
  match done_files with
  | Some files => files
  | None => []
  end.

(** The calls "report to stdout" makes for [files]; none when
    reporting is disabled. *)
Definition reporting (t : option bytes) (files : list path) : list event :=
  match t with
  | Some t => (map (fun p => EvStdout p t) files
               ++ [EvStdoutFlush; EvStdoutFsync])%list
  | None => []
  end.

(** The calls of one [flush_updates], in order: nothing at all (no
    budget is exceeded), or the executions [pre] of intents, cut short
    by an exception or followed by [dsync.sync()], cut short there or
    followed by the report of the completed paths [files], the flush
    and fsync of stdout, and [dsync.finish()].  [complete] tells
    whether the calls ran to the end. *)
Inductive flush_calls (t : option bytes) : bool -> list event -> Prop :=
| calls_none : flush_calls t true []
| calls_aborted pre :
    Forall exec_event pre -> flush_calls t false pre
| calls_sync_failed pre :
    Forall exec_event pre -> flush_calls t false (pre ++ [EvSync])%list
| calls_all pre files complete :
    Forall exec_event pre ->
    (forall p, In p files -> In (EvRun p) pre) ->
    flush_calls t complete
      (pre ++ EvSync :: reporting t files ++ [EvFinish])%list.

(** What the order means for a reported path: [dsync.sync()] was
    called before it was written, and after it come only further
    paths, then the flush and the fsync of stdout, then
    [dsync.finish()]. *)
Definition report_is_durable (calls : list event) : Prop :=
  forall l1 p t l2,
    calls = (l1 ++ EvStdout p t :: l2)%list ->
    In EvSync l1
    /\ exists paths,
         l2 = (map (fun q => EvStdout q t) paths
               ++ [EvStdoutFlush; EvStdoutFsync; EvFinish])%list.

(** [done_files] stays a list, or stays [None]. *)
Definition same_kind (d d' : option (list path)) : Prop :=
  match d, d' with
  | Some _, Some _ | None, None => True
  | _, _ => False
  end.

(** What [update_from] leaves when it returns [permitted = False]. *)
Definition refused (intent : OrganizeIntent) (new_source : OrganizeSource)
  : uf_result := mkuf intent new_source false false.

(** ** Predicates on the engine *)

Section Specifications.
Context {World : Type} {os : OS World}.

(** The contents of the two sources differ: the old one can be read
    and the new one holds other bytes or is gone. *)
Definition content_differs (w : World) (old_source new_source : OrganizeSource)
  : Prop :=
  match read_file w (abs_path old_source), read_file w (abs_path new_source) with
  | Ok d_old, Ok d_new => d_old <> d_new
  | Ok _, Raise (OSError ENOENT) => True
  | _, _ => False
  end.

(** Stat records that denote one inode belong to files with the same
    bytes. *)
Definition inode_coherent (w : World) (old_source new_source : OrganizeSource)
  : Prop :=
  samestat (stat_res old_source) (stat_res new_source) = true ->
  read_file w (abs_path old_source) = read_file w (abs_path new_source).

(** [post m P Q E]: from a state satisfying [P], [m] ends in a state
    satisfying [Q] with its result, or raises in a state satisfying
    [E]. *)
Definition post {A} (m : M World A) (P : engine World -> Prop)
    (Q : A -> engine World -> Prop) (E : engine World -> Prop) : Prop :=
  forall st, P st ->
    match m st with
    | (st', Ok a) => Q a st'
    | (st', Raise _) => E st'
    end.

(** Predicates that look at the memory account and the three
    collections only. *)
Definition books_only (P : engine World -> Prop) : Prop :=
  forall st w tr,
    P st ->
    P (mkengine (consumption st) (seen_counter st) (deferred_intents st)
         (source_cache st) w tr).

(** What the engine charges for its collections: every cached source
    and every queued intent costs its [approx_size()] plus the length
    of the path it is filed under, every seen key costs its length. *)
Definition charged (st : engine World) : Z :=
  OD.footprint source_approx_size (source_cache st)
  + OD.footprint approx_size (deferred_intents st)
  + OD.footprint (fun _ => 0) (seen_counter st).

(** The sum the specification gives: the [approx_size()] of every
    cached source and queued intent, and the length of every seen
    key. *)
Definition specified (st : engine World) : Z :=
  OD.values_size source_approx_size (source_cache st)
  + OD.values_size approx_size (deferred_intents st)
  + OD.footprint (fun _ => 0) (seen_counter st).

(** The collections are dictionaries: no key occurs twice. *)
Definition well_keyed (st : engine World) : Prop :=
  NoDup (OD.keys (deferred_intents st)) /\ NoDup (OD.keys (source_cache st)).

(** The account is off by [c]: [c] has been charged for an object
    that is in no collection (or is still owed, if negative). *)
Definition balanced (c : Z) (st : engine World) : Prop :=
  consumption st = charged st + c /\ well_keyed st.

(** The memory account matches the collections. *)
Definition accounted (st : engine World) : Prop := balanced 0 st.

(** [suf] holds calls of intent executions only, and a [run] for
    every path of [done_files]. *)
Definition ran (done_files : option (list path)) (suf : list event) : Prop :=
  Forall exec_event suf
  /\ forall p, In p (files_of done_files) -> In (EvRun p) suf.

(** Since the trace was [tr0], intents were executed, those of
    [done_files] among them. *)
Definition running (tr0 : list event) (done_files : option (list path))
    (st : engine World) : Prop :=
  exists suf, trace st = (tr0 ++ suf)%list /\ ran done_files suf.

(** Since the trace was [tr0], only intents were executed. *)
Definition aborted (tr0 : list event) (st : engine World) : Prop :=
  exists suf, trace st = (tr0 ++ suf)%list /\ Forall exec_event suf.

(** Computations that make no external call. *)
Definition silent {A} (m : M World A) : Prop :=
  forall st, trace (fst (m st)) = trace st.

(** Predicates that look at the trace only. *)
Definition trace_only (P : engine World -> Prop) : Prop :=
  forall st st', trace st' = trace st -> P st -> P st'.

(** The calls made since the trace was [tr0] are those of a flush
    that ran to the end ([complete = true]) or was cut short. *)
Definition flushed (t : option bytes) (tr0 : list event) (complete : bool)
    (st : engine World) : Prop :=
  exists suf, trace st = (tr0 ++ suf)%list
              /\ flush_calls t complete suf.

(** A refused placement leaves the collections so that the next turn
    for the same destination meets the same decision. *)
Definition settled (cfg : organize) (k : path) (new_source : OrganizeSource)
    (d : defer_result) (st : engine World) : Prop :=
  (exists i,
      d = mkdefer (Some i) (Some (source i)) false new_source
      /\ OD.get k (deferred_intents st) = Some i
      /\ OD.get k (source_cache st) = Some (source i)
      /\ update_from cfg (world st) i new_source = Ok (refused i new_source))
  \/ (exists old,
        d = mkdefer None (Some old) false new_source
        /\ OD.get k (deferred_intents st) = None
        /\ OD.get k (source_cache st) = Some old
        /\ String.eqb (abs_path new_source) k = false
        /\ update_from cfg (world st) (mkintent old true) new_source
           = Ok (refused (mkintent old true) new_source)).

End Specifications.

(** ** The seen counter's share of the memory account *)

Module SeenCounterAccount.
Import SeenCounter.

(** The bytes the counter has on the memory account. *)
Definition keys_len (s : t) : Z := OD.footprint (fun _ => 0) (state s).
End SeenCounterAccount.

(** The bound on the queue after a flush: nothing after the final
    flush, else [max_deferred], widened by [max_batched]. *)
Definition queue_bound (args : cargs) (final : bool) : Z :=
  if final then 0
  else Z.max (max_deferred args) (max_deferred args + max_batched args).

(** ** Frames *)

Section Frames.
Context {World : Type} {os : OS World}.

(** [m] leaves the component [f] of the engine's state alone. *)
Definition keeps {X A : Type} (f : engine World -> X) (m : M World A) : Prop :=
  forall st, f (fst (m st)) = f st.

(** Every queued intent has a source other than the path it is queued
    for: the assertion at the head of [run] holds for it. *)
Definition sources_elsewhere (st : engine World) : Prop :=
  Forall (fun ki => String.eqb (abs_path (source (snd ki))) (fst ki) = false)
    (deferred_intents st).

(** The state the loops of [flush_updates] run in: the counters
    [num_seen] and [num_deferred] are the sizes of the seen counter and
    of the queue. *)
Definition counted (num_seen num_deferred : nat) (st : engine World) : Prop :=
  List.length (seen_counter st) = num_seen
  /\ List.length (deferred_intents st) = num_deferred.

(** The seen counter is what is left of [seen] after evictions from
    its front. *)
Definition seen_suffix (seen : OD.t Z) (st : engine World) : Prop :=
  exists evicted, seen = (evicted ++ seen_counter st)%list.

(** The calls that write to the reporting channel. *)
Definition stdout_event (e : event) : Prop :=
  match e with
  | EvStdout _ _ | EvStdoutFlush | EvStdoutFsync => True
  | _ => False
  end.
End Frames.

(** ** What the engine does to the world *)

(** The worlds a flush that executes nothing can leave: the world [w]
    it started in, [w] after [dsync.sync()], or [w] after
    [dsync.sync()] and [dsync.finish()]. *)
Definition synced_only {World : Type} `{OS World} (w : World)
    (st : engine World) : Prop :=
  world st = w
  \/ world st = fst (dsync_sync w)
  \/ world st = fst (dsync_finish (fst (dsync_sync w))).

(** The report of a no-op by [emit]: nothing, or the one path. *)
Definition noop_report (t : option bytes) (calls : list event) : Prop :=
  calls = [] \/ exists p t', t = Some t' /\ calls = [EvStdout p t'].

(** ** Failures *)

(** [m] never raises [Failure], the exception that the per-file
    handler of [load_map_orderly] catches. *)
Definition never_raises_Failure {World : Type} {A : Type} (m : M World A)
  : Prop :=
  forall st d, snd (m st) <> Raise (Failure d).

(** ** Filters and input paths *)

(** The expression evaluates to [True] for the record. *)
Definition holds {ReqresExpr : Type} (rrexpr : ReqresExpr)
    (filter : string * LinstFunc ReqresExpr) : bool :=
  match snd filter rrexpr with
  | Ok (VBool true) => true
  | _ => false
  end.

(** The expression evaluates to a [bool] for the record. *)
Definition boolean {ReqresExpr : Type} (rrexpr : ReqresExpr)
    (filter : string * LinstFunc ReqresExpr) : Prop :=
  exists b, snd filter rrexpr = Ok (VBool b).

(** The bytes end with a NUL byte. *)
Fixpoint ends_with_NUL (data : bytes) : bool :=
  match data with
  | EmptyString => false
  | String c EmptyString => Ascii.eqb c NUL
  | String _ rest => ends_with_NUL rest
  end.

(** The path holds no NUL byte. *)
Fixpoint no_NUL (p : bytes) : bool :=
  match p with
  | EmptyString => true
  | String c rest => negb (Ascii.eqb c NUL) && no_NUL rest
  end.

(** What the calls of a trace have written to stdout. *)
Fixpoint stdout_bytes (calls : list event) : bytes :=
  match calls with
  | [] => EmptyString
  | EvStdout p t :: rest => p ++ t ++ stdout_bytes rest
  | _ :: rest => stdout_bytes rest
  end.

(** [str] or [bytes]. *)
Definition is_bytes (x : anystr) : bool :=
  match x with
  | Bytes _ => true
  | Str _ => false
  end.

(** The zero byte as a terminator. *)
Definition zero : bytes := String NUL EmptyString.

(** ** The walk over the inputs *)

(** A path the loop of [load_map_orderly] processes. *)
Definition processed (item : bool * path) : bool :=
  negb (endswith (snd item) ".part").

(** Nothing is queued, cached or charged. *)
Definition drained {World : Type} (st : engine World) : Prop :=
  consumption st = 0 /\ deferred_intents st = [] /\ source_cache st = [].

(** The queue, the world and the trace of [s'] are those of [s]. *)
Definition same_outside {World : Type} (s s' : engine World) : Prop :=
  deferred_intents s' = deferred_intents s
  /\ world s' = world s
  /\ trace s' = trace s.

(** * Properties *)

Lemma len_nonneg (s : string) : 0 <= len s.
Proof. unfold len; lia. Qed.

(** ** Facts on ordered dictionaries *)

Module ODFacts.
Import OD.
Section Facts.
Context {V : Type}.
Implicit Types (d : OD.t V) (k : string) (v : V) (size : V -> Z).

Lemma footprint_set size k v d :
  footprint size (set k v d)
  = footprint size d - entry_cost size k (get k d) + (size v + len k).
Proof.
  induction d as [|[k' v'] d IH]; simpl.
  - lia.
  - destruct (String.eqb_spec k k') as [->|Hne]; simpl; [lia|].
    rewrite IH. lia.
Qed.

Lemma footprint_remove size k d :
  footprint size (remove k d)
  = footprint size d - entry_cost size k (get k d).
Proof.
  induction d as [|[k' v'] d IH]; simpl.
  - lia.
  - destruct (String.eqb_spec k k') as [->|Hne]; simpl; [lia|].
    rewrite IH. lia.
Qed.

Lemma get_none_notin k d : get k d = None <-> ~ In k (keys d).
Proof.
  induction d as [|[k' v'] d IH]; simpl; [tauto|].
  destruct (String.eqb_spec k k') as [->|Hne].
  - split; [discriminate | tauto].
  - rewrite IH. split; [intros H [E|I]; [congruence | tauto] | tauto].
Qed.

Lemma keys_remove_incl k k0 d : In k0 (keys (remove k d)) -> In k0 (keys d).
Proof.
  induction d as [|[k' v'] d IH]; simpl; [tauto|].
  destruct (String.eqb k k'); simpl; tauto.
Qed.

Lemma nodup_remove k d : NoDup (keys d) -> NoDup (keys (remove k d)).
Proof.
  induction d as [|[k' v'] d IH]; simpl; intros Hnd; [constructor|].
  inversion Hnd as [|? ? Hnotin Hnd']; subst.
  destruct (String.eqb k k'); simpl; [assumption|].
  constructor; [|auto].
  intros Hin. apply Hnotin. eapply keys_remove_incl; eauto.
Qed.

Lemma get_remove_same k d : NoDup (keys d) -> get k (remove k d) = None.
Proof.
  induction d as [|[k' v'] d IH]; simpl; intros Hnd; [reflexivity|].
  inversion Hnd as [|? ? Hnotin Hnd']; subst.
  destruct (String.eqb_spec k k') as [->|Hne].
  - now apply get_none_notin.
  - simpl. destruct (String.eqb_spec k k'); [contradiction|]. auto.
Qed.

Lemma keys_set_in k k0 v d : In k0 (keys (set k v d)) -> k0 = k \/ In k0 (keys d).
Proof.
  induction d as [|[k' v'] d IH]; simpl; [intuition|].
  destruct (String.eqb_spec k k') as [->|Hne]; simpl; intuition.
Qed.

Lemma nodup_set k v d : NoDup (keys d) -> NoDup (keys (set k v d)).
Proof.
  induction d as [|[k' v'] d IH]; simpl; intros Hnd.
  - constructor; [simpl; tauto | constructor].
  - inversion Hnd as [|? ? Hnotin Hnd']; subst.
    destruct (String.eqb_spec k k') as [->|Hne]; simpl.
    + constructor; assumption.
    + constructor; [|auto].
      intros Hin. apply keys_set_in in Hin. destruct Hin; [congruence|tauto].
Qed.

Lemma get_set_same k v d : get k (set k v d) = Some v.
Proof.
  induction d as [|[k' v'] d IH]; simpl.
  - now rewrite String.eqb_refl.
  - destruct (String.eqb_spec k k') as [->|Hne]; simpl.
    + now rewrite String.eqb_refl.
    + destruct (String.eqb_spec k k'); [contradiction|]. exact IH.
Qed.

Lemma get_set_other k k' v d : k <> k' -> get k (set k' v d) = get k d.
Proof.
  intros Hne. induction d as [|[k'' v''] d IH]; simpl.
  - destruct (String.eqb_spec k k'); [contradiction|]. reflexivity.
  - destruct (String.eqb_spec k' k'') as [->|Hne']; simpl.
    + destruct (String.eqb_spec k k''); [contradiction|]. reflexivity.
    + destruct (String.eqb_spec k k''); [reflexivity|]. exact IH.
Qed.


Lemma footprint_nonneg size d :
  (forall v, 0 <= size v) -> 0 <= footprint size d.
Proof.
  intros Hs. induction d as [|[k v] d IH]; simpl; [lia|].
  pose proof (Hs v). pose proof (len_nonneg k). lia.
Qed.

Lemma footprint_zero_nil size d :
  (forall v, 0 < size v) -> footprint size d = 0 -> d = [].
Proof.
  intros Hs. destruct d as [|[k v] d]; simpl; [reflexivity|].
  assert (0 <= footprint size d)
    by (apply footprint_nonneg; intros v0; specialize (Hs v0); lia).
  pose proof (Hs v). pose proof (len_nonneg k). lia.
Qed.
End Facts.
End ODFacts.

(** ** The seen counter *)

Module SeenCounterFacts.
Import SeenCounter SeenCounterSpec.

Lemma count_returns key s : snd (count key s) = next (stored key s).
Proof. unfold count, stored. destruct (OD.get key (state s)); reflexivity. Qed.

Lemma count_stores key s :
  stored key (fst (count key s)) = Some (next (stored key s)).
Proof.
  unfold count, stored.
  destruct (OD.get key (state s)); simpl; apply ODFacts.get_set_same.
Qed.

Lemma count_other key value s :
  value <> key -> stored key (fst (count value s)) = stored key s.
Proof.
  intros Hne. unfold count, stored.
  destruct (OD.get value (state s)); simpl;
    apply ODFacts.get_set_other; congruence.
Qed.

Lemma pop_other key s s' k c :
  pop s = Some (s', (k, c)) -> k <> key -> stored key s' = stored key s.
Proof.
  unfold pop, stored. destruct (state s) as [|[k0 c0] rest]; simpl; [discriminate|].
  intros [= <- <- <-] Hne. simpl.
  destruct (String.eqb_spec key k0); [congruence | reflexivity].
Qed.

Lemma advance_count o n : advance (Some (next o)) n = advance o (S n).
Proof. destruct n; simpl; f_equal; lia. Qed.

Lemma run_ops_stored key ops :
  forall s s' evicted,
    run_ops ops s = Some (s', evicted) ->
    ~ In key evicted ->
    stored key s' = advance (stored key s) (calls key ops).
Proof.
  induction ops as [|[value|] ops IH]; simpl; intros s s' evicted Hrun Hnot.
  - now inversion Hrun.
  - destruct (String.eqb_spec value key) as [->|Hne].
    + rewrite (IH _ _ _ Hrun Hnot), count_stores. apply advance_count.
    + rewrite (IH _ _ _ Hrun Hnot). now rewrite count_other.
  - destruct (pop s) as [[s1 [k c]]|] eqn:Hpop; [|discriminate].
    destruct (run_ops ops s1) as [[s2 ev]|] eqn:Hrest; [|discriminate].
    inversion Hrun; subst. simpl in Hnot.
    rewrite (IH _ _ _ Hrest) by tauto.
    f_equal. eapply pop_other; [eassumption|]. intros ->. tauto.
Qed.

Lemma count_n_returns key n :
  forall s, stored key s = None ->
            snd (count_n n key s) = map Z.of_nat (seq 0 n).
Proof.
  assert (G : forall n s k, next (stored key s) = Z.of_nat k ->
              snd (count_n n key s) = map Z.of_nat (seq k n)).
  { clear n. induction n as [|n IH]; simpl; intros s k Hk; [reflexivity|].
    destruct (count key s) as [s1 r] eqn:Hc.
    destruct (count_n n key s1) as [s2 rs] eqn:Hn. simpl.
    pose proof (count_returns key s) as Hr. rewrite Hc in Hr. simpl in Hr.
    pose proof (count_stores key s) as Hs. rewrite Hc in Hs. simpl in Hs.
    f_equal; [congruence|].
    specialize (IH s1 (S k)). rewrite Hn in IH. simpl in IH. apply IH.
    rewrite Hs. simpl. lia. }
  intros s Hs. apply G. now rewrite Hs.
Qed.

(** C7.  [SeenCounter.count]: on a key the counter does not hold the
    call returns 0 and adds [len key] to the memory account; on a key
    it holds with value [c] the call returns [c + 1] and leaves the
    account alone; hence, from a counter that does not hold [key], the
    [n] first consecutive calls return [0, 1, ..., n - 1], and after
    any history of calls whose [pop]s did not evict [key], in which
    [count key] was called [m] times, the next call (the [m+1]-th)
    returns [m]. *)
Theorem seen_counter_count_semantics (key : string) (s : t)
    (Habsent : OD.get key (state s) = None) :
  (snd (count key s) = 0
   /\ consumption (fst (count key s)) = consumption s + len key)
  /\ (forall s1 c, OD.get key (state s1) = Some c ->
        snd (count key s1) = c + 1
        /\ consumption (fst (count key s1)) = consumption s1)
  /\ (forall n, snd (count_n n key s) = map Z.of_nat (seq 0 n))
  /\ (forall ops s' evicted,
        run_ops ops s = Some (s', evicted) ->
        ~ In key evicted ->
        snd (count key s') = Z.of_nat (calls key ops)).
Proof.
  split; [|split; [|split]].
  - unfold count. now rewrite Habsent.
  - intros s1 c Hc. unfold count. now rewrite Hc.
  - intros n. now apply count_n_returns.
  - intros ops s' evicted Hrun Hnot.
    rewrite count_returns, (run_ops_stored key ops s s' evicted Hrun Hnot).
    unfold stored. rewrite Habsent.
    destruct (calls key ops); simpl; lia.
Qed.

(** A counter holding another key, and a history with two calls for
    ["/d/a.wrr"], an eviction and a call for a second key. *)
Lemma seen_counter_count_semantics_witness :
  let s := mk 7 [("/d/old", 3)] in
  let ops := [Count "/d/a.wrr"; Pop; Count "/d/b.wrr"; Count "/d/a.wrr"] in
  (snd (count "/d/a.wrr" s) = 0
   /\ consumption (fst (count "/d/a.wrr" s)) = 7 + 8)
  /\ snd (count_n 3 "/d/a.wrr" s) = [0; 1; 2]
  /\ snd (count "/d/a.wrr" (mk 15 [("/d/a.wrr", 4)])) = 5
  /\ run_ops ops s
     = Some (mk 17 [("/d/a.wrr", 1); ("/d/b.wrr", 0)], ["/d/old"])
  /\ snd (count "/d/a.wrr" (mk 17 [("/d/a.wrr", 1); ("/d/b.wrr", 0)])) = 2.
Proof.
  intros s ops.
  destruct (seen_counter_count_semantics "/d/a.wrr" s eq_refl)
    as (H0 & Hseen & Hn & Hops).
  split; [exact H0|]. split; [exact (Hn 3%nat)|].
  split; [exact (proj1 (Hseen (mk 15 [("/d/a.wrr", 4)]) 4 eq_refl))|].
  split; [reflexivity|].
  apply (Hops ops _ ["/d/old"] eq_refl).
  simpl. intros [H|[]]. discriminate H.
Defined.
End SeenCounterFacts.

(** ** Configurations *)

Lemma make_organize_data_action (a : action) (u : bool) (cfg : organize) :
  make_organize a u = Ok cfg -> a <> Symlink ->
  u = false /\ act cfg = a /\ allow_updates cfg = false
  /\ check_data cfg = true /\ symlinking cfg = false.
Proof.
  destruct a, u; simpl; intros [= <-] Hne; try congruence; repeat split.
Qed.

Lemma make_organize_symlink (u : bool) (cfg : organize) :
  make_organize Symlink u = Ok cfg ->
  act cfg = Symlink /\ allow_updates cfg = u
  /\ check_data cfg = false /\ symlinking cfg = true /\ moving cfg = false.
Proof. simpl. intros [= <-]. repeat split. Qed.

(** ** Content comparison *)

Section ContentFacts.
Context {World : Type} {os : OS World}.

Lemma fileobj_content_equals_spec (fdata data : bytes) :
  fileobj_content_equals fdata data = true <-> fdata = data.
Proof. apply String.eqb_eq. Qed.

(** C10.  [file_content_equals path data] returns [False], and does
    not raise, when opening [path] raises [FileNotFoundError]; when
    the file can be read it returns [True] exactly when its whole
    contents equal [data]; so, for the actions that compare data, a
    source file that vanished counts as differing: [update_from] falls
    through its comparison and, updates not being allowed, returns the
    old source with [permitted = False]. *)
Theorem file_content_equals_vanished (w : World) (p : path) (data : bytes) :
  (read_file w p = Raise (OSError ENOENT) ->
   file_content_equals w p data = Ok false)
  /\ (forall fdata, read_file w p = Ok fdata ->
        exists b, file_content_equals w p data = Ok b
                  /\ (b = true <-> fdata = data))
  /\ (forall cfg self new_source,
        check_data cfg = true -> symlinking cfg = false ->
        samestat (stat_res (source self)) (stat_res new_source) = false ->
        read_file w (abs_path (source self)) = Ok data ->
        abs_path new_source = p ->
        read_file w p = Raise (OSError ENOENT) ->
        check_same_data cfg w self new_source = Ok (FallThrough (Some data))
        /\ (allow_updates cfg = false ->
            update_from cfg w self new_source
            = Ok (mkuf self new_source false false))).
Proof.
  split; [|split].
  - intros Hp. unfold file_content_equals. now rewrite Hp.
  - intros fdata Hp. unfold file_content_equals. rewrite Hp.
    eexists; split; [reflexivity|]. apply fileobj_content_equals_spec.
  - intros cfg self new_source Hcd Hsl Hss Hold Hpath Hp.
    assert (Hc : check_same_data cfg w self new_source
                 = Ok (FallThrough (Some data))).
    { unfold check_same_data, file_content_equals.
      now rewrite Hcd, Hss, Hold, Hpath, Hp. }
    split; [exact Hc|].
    intros Hu. unfold update_from. now rewrite Hsl, Hc, Hu.
Qed.
End ContentFacts.

Lemma file_content_equals_vanished_witness :
  file_content_equals example_fs "/src/gone.wrr" "aaaa" = Ok false
  /\ (exists b, file_content_equals example_fs "/src/a.wrr" "aaaa" = Ok b
                /\ (b = true <-> "aaaa" = "aaaa"))
  /\ update_from copying example_fs (mkintent example_a true) example_gone
     = Ok (mkuf (mkintent example_a true) example_gone false false).
Proof.
  destruct (file_content_equals_vanished example_fs "/src/gone.wrr" "aaaa")
    as (Hgone & _ & Huf).
  destruct (file_content_equals_vanished example_fs "/src/a.wrr" "aaaa")
    as (_ & Hread & _).
  split; [apply Hgone; reflexivity|].
  split; [apply (Hread "aaaa"); reflexivity|].
  apply (Huf copying (mkintent example_a true) example_gone);
    reflexivity.
Defined.

(** ** [update_from] *)

Section UpdateFromFacts.
Context {World : Type} {os : OS World}.

(** [get_stime] returns the same file, with the time cached. *)
Lemma get_stime_same_file (w : World) (s s' : OrganizeSource)
    (data : option bytes) (t : Z) :
  get_stime w s data = Ok (s', t) ->
  abs_path s' = abs_path s /\ stat_res s' = stat_res s
  /\ stime_maybe s' = Some t.
Proof.
  unfold get_stime. destruct (stime_maybe s) eqn:Hs.
  - intros [= <- <-]. auto.
  - destruct data;
      [destruct (wrr_load_stime _ _) | destruct (wrr_loadf_stime _ _)];
      intros [= <- <-]; auto.
Qed.

(** A refusal leaves the intent and the new source as they were. *)
Lemma update_from_refused (cfg : organize) (w : World) (self : OrganizeIntent)
    (new_source : OrganizeSource) (r : uf_result) :
  update_from cfg w self new_source = Ok r ->
  uf_permitted r = false ->
  r = mkuf self new_source false false.
Proof.
  unfold update_from.
  destruct (symlinking cfg && _); [intros [= <-]; discriminate|].
  destruct (check_same_data cfg w self new_source) as [[|dd]|];
    [intros [= <-]; discriminate| |discriminate].
  destruct (negb (allow_updates cfg)); [intros [= <-]; reflexivity|].
  destruct (get_stime w (source self) dd) as [[old' t_old]|]; [|discriminate].
  destruct (get_stime w new_source None) as [[new' t_new]|]; [|discriminate].
  destruct (t_old <? t_new); intros [= <-]; discriminate.
Qed.

(** C5, amended.  For the actions that compare data (move, copy and
    hardlink), [update_from] with a new source whose stat record
    denotes the inode of the intent's source is a no-op: it returns
    the old source unchanged with [permitted = True].  The symlink
    action does not look at stat records; its no-op test is the
    equality of the two source paths. *)
Theorem update_from_samestat_noop (a : action) (u : bool) (cfg : organize)
    (w : World) (self : OrganizeIntent) (new_source : OrganizeSource) :
  make_organize a u = Ok cfg ->
  (a <> Symlink ->
   samestat (stat_res (source self)) (stat_res new_source) = true ->
   update_from cfg w self new_source = Ok (mkuf self new_source false true))
  /\ (a = Symlink ->
      abs_path (source self) = abs_path new_source ->
      update_from cfg w self new_source = Ok (mkuf self new_source false true)).
Proof.
  intros Hcfg. split.
  - intros Hne Hss.
    destruct (make_organize_data_action a u cfg Hcfg Hne)
      as (_ & _ & _ & Hcd & Hsl).
    unfold update_from, check_same_data. now rewrite Hsl, Hcd, Hss.
  - intros -> Hpath.
    destruct (make_organize_symlink u cfg Hcfg) as (_ & _ & _ & Hsl & _).
    unfold update_from. rewrite Hsl, Hpath, String.eqb_refl. reflexivity.
Qed.

Lemma content_differs_falls_through (cfg : organize) (w : World)
    (self : OrganizeIntent) (new_source : OrganizeSource) :
  content_differs w (source self) new_source ->
  inode_coherent w (source self) new_source ->
  String.eqb (abs_path (source self)) (abs_path new_source) = false
  /\ exists dd, check_same_data cfg w self new_source = Ok (FallThrough dd)
                /\ (check_data cfg = false -> dd = None).
Proof.
  unfold content_differs, inode_coherent. intros Hdiff Hcoh.
  destruct (read_file w (abs_path (source self))) as [d_old|] eqn:Hold;
    [|contradiction].
  split.
  - apply String.eqb_neq. intros Hp. rewrite <- Hp, Hold in Hdiff. congruence.
  - unfold check_same_data. destruct (check_data cfg); [|eauto].
    destruct (samestat _ _).
    + rewrite <- Hcoh in Hdiff by reflexivity. congruence.
    + rewrite Hold. unfold file_content_equals.
      destruct (read_file w (abs_path new_source))
        as [d_new|[?|?|[| | | |?]| | |]].
      all: try contradiction.
      * assert (E : fileobj_content_equals d_new d_old = false).
        { apply not_true_is_false. rewrite fileobj_content_equals_spec.
          congruence. }
        rewrite E. eexists; split; [reflexivity|discriminate].
      * eexists; split; [reflexivity|discriminate].
Qed.

(** C3.  For a new source whose content differs from that of the
    intent's source [old]: when updates are not allowed [update_from]
    returns [(old, False)]; when they are allowed it returns
    [permitted = True], adopts the new source when
    [new.stime > old.stime] and keeps the old one when
    [new.stime <= old.stime]. *)
Theorem update_from_differing (a : action) (u : bool) (cfg : organize)
    (w : World) (self : OrganizeIntent) (new_source : OrganizeSource)
    (Hcfg : make_organize a u = Ok cfg)
    (Hdiff : content_differs w (source self) new_source)
    (Hcoh : inode_coherent w (source self) new_source) :
  (u = false ->
   update_from cfg w self new_source = Ok (mkuf self new_source false false))
  /\ (u = true ->
      forall old' t_old new' t_new,
        get_stime w (source self) None = Ok (old', t_old) ->
        get_stime w new_source None = Ok (new', t_new) ->
        exists r,
          update_from cfg w self new_source = Ok r
          /\ uf_permitted r = true
          /\ uf_new r = new'
          /\ (t_new > t_old -> uf_adopted r = true /\ uf_source r = new')
          /\ (t_new <= t_old -> uf_adopted r = false /\ uf_source r = old')).
Proof.
  destruct (content_differs_falls_through cfg w self new_source Hdiff Hcoh)
    as (Hpath & dd & Hcheck & Hdd).
  assert (Hau : allow_updates cfg = u)
    by (destruct a, u; simpl in Hcfg; inversion Hcfg; reflexivity).
  split.
  - intros ->. unfold update_from.
    rewrite Hpath, andb_false_r, Hcheck, Hau. reflexivity.
  - intros -> old' t_old new' t_new Hold Hnew.
    assert (Ha : a = Symlink) by (destruct a; simpl in Hcfg; congruence).
    subst a. destruct (make_organize_symlink _ _ Hcfg) as (_ & _ & Hcd & _).
    rewrite (Hdd Hcd) in Hcheck.
    unfold update_from.
    rewrite Hpath, andb_false_r, Hcheck, Hau, Hold, Hnew. simpl.
    destruct (t_old <? t_new) eqn:Hlt; eexists; (split; [reflexivity|]);
      simpl; repeat split; try reflexivity; lia.
Qed.
End UpdateFromFacts.

Lemma update_from_samestat_symlink_refused :
  make_organize Symlink false = Ok (symlinking_ false)
  /\ samestat (stat_res example_a) (stat_res example_a_link) = true
  /\ update_from (symlinking_ false) example_fs (mkintent example_a true)
       example_a_link
     = Ok (mkuf (mkintent example_a true) example_a_link false false).
Proof. repeat split. Qed.

Lemma update_from_samestat_noop_witness :
  update_from moving_ example_fs (mkintent example_a true) example_a_link
  = Ok (mkuf (mkintent example_a true) example_a_link false true)
  /\ update_from (symlinking_ false) example_fs (mkintent example_a true)
       example_a
     = Ok (mkuf (mkintent example_a true) example_a false true).
Proof.
  split.
  - refine (proj1 (update_from_samestat_noop Move false moving_ example_fs
                     (mkintent example_a true) example_a_link eq_refl) _ _).
    + discriminate.
    + reflexivity.
  - refine (proj2 (update_from_samestat_noop Symlink false (symlinking_ false)
                     example_fs (mkintent example_a true) example_a eq_refl) _ _);
      reflexivity.
Defined.

Lemma update_from_differing_witness :
  update_from copying example_fs (mkintent example_a true) example_b
  = Ok (mkuf (mkintent example_a true) example_b false false)
  /\ exists r,
      update_from (symlinking_ true) example_fs (mkintent example_a true)
        example_b = Ok r
      /\ uf_permitted r = true
      /\ uf_new r = example_b
      /\ (6 > 4 -> uf_adopted r = true /\ uf_source r = example_b)
      /\ (6 <= 4 -> uf_adopted r = false /\ uf_source r = example_a).
Proof.
  split.
  - refine (proj1 (update_from_differing Copy false copying example_fs
                     (mkintent example_a true) example_b eq_refl _ _) eq_refl).
    + simpl. discriminate.
    + intros H. discriminate H.
  - refine (proj2 (update_from_differing Symlink true (symlinking_ true)
                     example_fs (mkintent example_a true) example_b eq_refl _ _)
              eq_refl example_a 4 example_b 6 eq_refl eq_refl).
    + simpl. discriminate.
    + intros H. discriminate H.
Defined.

(** ** [defer] *)

Section DeferFacts.
Context {World : Type} {os : OS World}.

(** C6, amended.  [defer] is called with no cached old source, the
    new source is not the destination itself and [lstat] shows that
    the destination is a symlink.  If [stat] reaches the link's
    target, every action other than symlink refuses with the
    diagnostic, and the symlink action resolves the link and goes on
    with the resolved path as the old source.  If the link is broken
    ([stat] raises [FileNotFoundError]), every action queues a
    replacing intent for the new source and permits it. *)
Theorem defer_symlink_destination (cfg : organize) (w : World)
    (abs_out_path : path) (new_source : OrganizeSource)
    (out_lstat : stat_result)
    (Hself : abs_path new_source <> abs_out_path)
    (Hlstat : lstat w abs_out_path = Ok out_lstat)
    (Hlnk : st_islnk out_lstat = true) :
  (forall out_stat, stat w abs_out_path = Ok out_stat ->
     (symlinking cfg = false ->
      defer cfg w abs_out_path None new_source
      = Raise (is_a_symlink cfg abs_out_path))
     /\ (symlinking cfg = true ->
         defer cfg w abs_out_path None new_source
         = defer_update cfg w
             (mksource (realpath w abs_out_path) out_stat None) new_source))
  /\ (stat w abs_out_path = Raise (OSError ENOENT) ->
      defer cfg w abs_out_path None new_source
      = Ok (mkdefer (Some (mkintent new_source true)) (Some new_source) true
              new_source)).
Proof.
  apply String.eqb_neq in Hself.
  split.
  - intros out_stat Hstat. unfold defer.
    rewrite Hself, Hlstat, Hlnk, Hstat.
    split; intros ->; reflexivity.
  - intros Hstat. unfold defer.
    now rewrite Hself, Hlstat, Hlnk, Hstat.
Qed.

(** A symlink that already points to the new source is left alone. *)
Corollary defer_symlink_same_target (cfg : organize) (w : World)
    (abs_out_path : path) (new_source : OrganizeSource)
    (out_lstat out_stat : stat_result) :
  symlinking cfg = true ->
  moving cfg = false ->
  abs_path new_source <> abs_out_path ->
  lstat w abs_out_path = Ok out_lstat ->
  st_islnk out_lstat = true ->
  stat w abs_out_path = Ok out_stat ->
  realpath w abs_out_path = abs_path new_source ->
  defer cfg w abs_out_path None new_source
  = Ok (mkdefer None (Some (mksource (abs_path new_source) out_stat None))
          true new_source).
Proof.
  intros Hsl Hmv Hself Hlstat Hlnk Hstat Hreal.
  apply String.eqb_neq in Hself.
  unfold defer. rewrite Hself, Hlstat, Hlnk, Hstat, Hsl, Hreal. simpl.
  unfold defer_update, update_from. simpl.
  rewrite Hsl, String.eqb_refl. simpl.
  rewrite Hmv. reflexivity.
Qed.
End DeferFacts.

(** A move onto a broken symlink is not refused. *)
Lemma defer_broken_symlink_not_refused :
  lstat example_fs "/dst/dangling.wrr" = Ok (mkstat true 1 0)
  /\ defer moving_ example_fs "/dst/dangling.wrr" None example_a
     = Ok (mkdefer (Some (mkintent example_a true)) (Some example_a) true
             example_a).
Proof. split; reflexivity. Qed.

Lemma defer_symlink_destination_witness :
  defer moving_ example_fs "/dst/link.wrr" None example_b
  = Raise (is_a_symlink moving_ "/dst/link.wrr")
  /\ defer (symlinking_ false) example_fs "/dst/link.wrr" None example_b
     = defer_update (symlinking_ false) example_fs
         (mksource "/src/a.wrr" (mkstat false 1 10) None) example_b
  /\ defer copying example_fs "/dst/dangling.wrr" None example_a
     = Ok (mkdefer (Some (mkintent example_a true)) (Some example_a) true
             example_a).
Proof.
  split; [|split].
  - refine (proj1 (proj1 (defer_symlink_destination moving_ example_fs
                            "/dst/link.wrr" example_b (mkstat true 1 0)
                            _ eq_refl eq_refl)
                     (mkstat false 1 10) eq_refl) eq_refl).
    discriminate.
  - refine (proj2 (proj1 (defer_symlink_destination (symlinking_ false)
                            example_fs "/dst/link.wrr" example_b
                            (mkstat true 1 0) _ eq_refl eq_refl)
                     (mkstat false 1 10) eq_refl) eq_refl).
    discriminate.
  - refine (proj2 (defer_symlink_destination copying example_fs
                     "/dst/dangling.wrr" example_a (mkstat true 1 0)
                     _ eq_refl eq_refl) eq_refl).
    discriminate.
Defined.

(** ** [run] *)

Section RunFacts.
Context {World : Type} {os : OS World}.

(** [run] has no fallback of its own: an [EXDEV] that leaves
    [action_op] becomes a [Failure]. *)
Lemma run_EXDEV_from_action_op (cfg : organize) (self : OrganizeIntent)
    (abs_out_path : path) (w w1 w2 : World) :
  abs_path (source self) <> abs_out_path ->
  makedirs (dirname abs_out_path) w = (w1, Ok tt) ->
  action_op (act cfg) (abs_path (source self)) abs_out_path (exists_ self) w1
  = (w2, Raise (OSError EXDEV)) ->
  run cfg self abs_out_path false w
  = (w2, Raise (Failure ("can't " ++ action_name (act cfg)
                         ++ " across file systems"))).
Proof.
  intros Hne Hmk Hop. apply String.eqb_neq in Hne.
  unfold run. now rewrite Hne, Hmk, Hop.
Qed.
End RunFacts.

Module SimpleFSFacts.
Import SimpleFS.









End SimpleFSFacts.

(** ** A program logic for the engine *)

Section Logic.
Context {World : Type} {os : OS World}.

Lemma post_ret {A} (a : A) (P : engine World -> Prop) Q E :
  (forall st, P st -> Q a st) -> post (ret a) P Q E.
Proof. intros H st HP. simpl. auto. Qed.

Lemma post_raise {A} (e : exn) (P : engine World -> Prop)
    (Q : A -> engine World -> Prop) (E : engine World -> Prop) :
  (forall st, P st -> E st) -> post (raise e) P Q E.
Proof. intros H st HP. simpl. auto. Qed.

Lemma post_bind {A B} (m : M World A) (k : A -> M World B) P Q R E :
  post m P Q E -> (forall a, post (k a) (Q a) R E) -> post (bind m k) P R E.
Proof.
  intros Hm Hk st HP. unfold bind. specialize (Hm st HP).
  destruct (m st) as [st' [a|e]]; [apply Hk; exact Hm | exact Hm].
Qed.

Lemma post_weaken {A} (m : M World A) (P P' : engine World -> Prop)
    (Q Q' : A -> engine World -> Prop) (E E' : engine World -> Prop) :
  post m P' Q' E' ->
  (forall st, P st -> P' st) ->
  (forall a st, Q' a st -> Q a st) ->
  (forall st, E' st -> E st) ->
  post m P Q E.
Proof.
  intros Hm HP HQ HE st Hst. specialize (Hm st (HP st Hst)).
  destruct (m st) as [st' [a|e]]; auto.
Qed.

(** Reading the state: the continuation knows the state it got. *)
Lemma post_get_state {B} (k : engine World -> M World B) P R E :
  (forall s, post (k s) (fun st => st = s /\ P st) R E) ->
  post (bind get_state k) P R E.
Proof. intros Hk st HP. unfold bind, get_state. apply (Hk st). auto. Qed.

Lemma post_catch {A} (m : M World A) (handler : exn -> M World A) P Q E' E :
  post m P Q E' -> (forall e, post (handler e) E' Q E) ->
  post (catch m handler) P Q E.
Proof.
  intros Hm Hh st HP. unfold catch. specialize (Hm st HP).
  destruct (m st) as [st' [a|e]]; [exact Hm | apply Hh; exact Hm].
Qed.

Lemma post_forget {A} (m : M World A) (s : engine World) P Q E :
  post m P Q E -> post m (fun st => st = s /\ P st) Q E.
Proof. intros Hm st [_ HP]. apply Hm, HP. Qed.

Lemma post_and {A} (m : M World A) P P' Q Q' E E' :
  post m P Q E -> post m P' Q' E' ->
  post m (fun st => P st /\ P' st) (fun a st => Q a st /\ Q' a st)
    (fun st => E st /\ E' st).
Proof.
  intros H H' st [HP HP']. specialize (H st HP). specialize (H' st HP').
  destruct (m st) as [st' [a|e]]; split; assumption.
Qed.

Lemma post_pure {A} (phi : Prop) (m : M World A) Q E :
  (phi -> post m (fun _ => True) Q E) -> post m (fun _ => phi) Q E.
Proof. intros H st Hphi. apply (H Hphi st I). Qed.

Lemma post_pull {A} (phi : Prop) (m : M World A) P Q E :
  (phi -> post m P Q E) -> post m (fun st => P st /\ phi) Q E.
Proof. intros H st [HP Hphi]. apply (H Hphi st HP). Qed.

Lemma post_true {A} (m : M World A) :
  post m (fun _ => True) (fun _ _ => True) (fun _ => True).
Proof. intros st _. destruct (m st) as [st' [a|e]]; exact I. Qed.

Lemma post_log (e : event) (P E : engine World -> Prop) :
  books_only P -> post (log e) P (fun _ => P) E.
Proof. intros HP st Hst. simpl. apply HP, Hst. Qed.

Lemma post_syscall {A} (f : World -> World * result A) P :
  books_only P -> post (syscall f) P (fun _ => P) P.
Proof.
  intros HP st Hst. unfold syscall.
  destruct (f (world st)) as [w [a|e]]; apply HP, Hst.
Qed.

Lemma post_observe {A} (f : World -> result A) (P : engine World -> Prop) :
  post (observe f) P (fun _ => P) P.
Proof. intros st Hst. unfold observe. destruct (f (world st)); exact Hst. Qed.
End Logic.

(** ** The memory account *)

Section Account.
Context {World : Type} {os : OS World}.

Lemma books_only_balanced c : books_only (balanced (World := World) c).
Proof. intros st w tr H. exact H. Qed.

End Account.

Ltac unfold_engine :=
  unfold pop_source, pop_intent, put_intent, put_source, replace_source,
    seen_count, seen_pop, bind, get_state, ret, raise, set_cache, set_deferred,
    add_consumption, log in *;
  simpl in *.

Ltac unfold_account :=
  unfold accounted, balanced, charged, well_keyed in *; simpl in *.

Section AccountBlocks.
Context {World : Type} {os : OS World}.
Implicit Types (st : engine World) (c : Z).

Lemma add_consumption_balanced d c (E : engine World -> Prop) :
  post (add_consumption d) (balanced c) (fun _ => balanced (c + d)) E.
Proof. intros st [Hc Hk]. unfold_engine. unfold_account. split; [lia|exact Hk]. Qed.

Lemma add_consumption_settles c (E : engine World -> Prop) :
  post (add_consumption (- c)) (balanced c) (fun _ => accounted) E.
Proof. intros st [Hc Hk]. unfold_engine. unfold_account. split; [lia|exact Hk]. Qed.

Lemma seen_count_balanced value c (E : engine World -> Prop) :
  post (seen_count value) (balanced c) (fun _ => balanced c) E.
Proof.
  intros st [Hc Hk]. unfold seen_count, SeenCounter.count. simpl.
  destruct (OD.get value (seen_counter st)) eqn:Hget; unfold_account;
    (split; [|exact Hk]); rewrite ODFacts.footprint_set, Hget; simpl; lia.
Qed.

Lemma seen_pop_balanced c :
  post (seen_pop : M World _) (balanced c) (fun _ => balanced c) (balanced c).
Proof.
  intros st [Hc Hk]. unfold seen_pop, SeenCounter.pop. simpl.
  destruct (seen_counter st) as [|[k n] rest] eqn:Hs; simpl.
  - split; assumption.
  - unfold_account. rewrite Hs in Hc. simpl in Hc. split; [lia|exact Hk].
Qed.

Lemma pop_source_balanced k c :
  post (pop_source k) (balanced c)
    (fun _ st => balanced c st /\ OD.get k (source_cache st) = None)
    (balanced c).
Proof.
  intros st [Hc [Hd Hs]]. unfold_engine.
  destruct (OD.get k (source_cache st)) eqn:Hget; simpl.
  - unfold_account. rewrite ODFacts.footprint_remove, Hget. simpl.
    repeat split; [lia | assumption | now apply ODFacts.nodup_remove
                  | now apply ODFacts.get_remove_same].
  - repeat split; assumption.
Qed.

Lemma pop_intent_balanced k c :
  post (pop_intent k)
    (fun st => balanced c st /\ OD.get k (source_cache st) = None)
    (fun _ st => balanced c st /\ OD.get k (source_cache st) = None
                 /\ OD.get k (deferred_intents st) = None)
    (balanced c).
Proof.
  intros st [[Hc [Hd Hs]] Hnone]. unfold_engine.
  destruct (OD.get k (deferred_intents st)) eqn:Hget; simpl.
  - unfold_account. rewrite ODFacts.footprint_remove, Hget. simpl.
    repeat split; [lia | now apply ODFacts.nodup_remove | assumption
                  | assumption | now apply ODFacts.get_remove_same].
  - repeat split; assumption.
Qed.

Lemma put_intent_balanced k intent c (E : engine World -> Prop) :
  post (put_intent k intent)
    (fun st => balanced c st /\ OD.get k (source_cache st) = None
               /\ OD.get k (deferred_intents st) = None)
    (fun _ st => balanced c st /\ OD.get k (source_cache st) = None)
    E.
Proof.
  intros st [[Hc [Hd Hs]] [Hnone Hnone']]. unfold_engine. unfold_account.
  rewrite ODFacts.footprint_set, Hnone'. simpl.
  repeat split; [lia | now apply ODFacts.nodup_set | assumption | assumption].
Qed.

Lemma put_source_balanced k s c (E : engine World -> Prop) :
  post (put_source k s)
    (fun st => balanced c st /\ OD.get k (source_cache st) = None)
    (fun _ => balanced c)
    E.
Proof.
  intros st [[Hc [Hd Hs]] Hnone]. unfold_engine. unfold_account.
  rewrite ODFacts.footprint_set, Hnone. simpl.
  repeat split; [lia | assumption | now apply ODFacts.nodup_set].
Qed.

Lemma replace_source_balanced k s c (E : engine World -> Prop) :
  post (replace_source k s) (balanced c) (fun _ => balanced c) E.
Proof.
  intros st [Hc [Hd Hs]]. unfold_engine.
  destruct (OD.get k (source_cache st)) eqn:Hget; simpl; unfold_account;
    rewrite ODFacts.footprint_set, Hget; simpl;
    (repeat split; [lia | assumption | now apply ODFacts.nodup_set]).
Qed.

(** Taking an intent out of the queue without the accounting line (the
    loops of [flush_updates] leave it to [complete_intent]). *)
Lemma take_intent_balanced (s : engine World) k intent
    (E : engine World -> Prop) :
  OD.get k (deferred_intents s) = Some intent ->
  post (set_deferred (OD.remove k (deferred_intents s)))
    (fun st => st = s /\ accounted st)
    (fun _ => balanced (approx_size intent + len k))
    E.
Proof.
  intros Hget st [-> [Hc [Hd Hs]]]. unfold_engine. unfold_account.
  rewrite ODFacts.footprint_remove, Hget. simpl.
  repeat split; [lia | now apply ODFacts.nodup_remove | assumption].
Qed.

Lemma popitem_intent_balanced (s : engine World) k intent rest
    (E : engine World -> Prop) :
  OD.popitem_first (deferred_intents s) = Some ((k, intent), rest) ->
  post (set_deferred rest)
    (fun st => st = s /\ accounted st)
    (fun _ => balanced (approx_size intent + len k))
    E.
Proof.
  intros Hpop st [-> [Hc [Hd Hs]]]. unfold_engine. unfold_account.
  destruct (deferred_intents s) as [|[k0 i0] d]; [discriminate|].
  simpl in Hpop. inversion Hpop; subst. simpl in *.
  repeat split; [lia | now inversion Hd | assumption].
Qed.

Lemma popitem_source_balanced (s : engine World) k src rest
    (E : engine World -> Prop) :
  OD.popitem_first (source_cache s) = Some ((k, src), rest) ->
  post (set_cache rest)
    (fun st => st = s /\ accounted st)
    (fun _ => balanced (source_approx_size src + len k))
    E.
Proof.
  intros Hpop st [-> [Hc [Hd Hs]]]. unfold_engine. unfold_account.
  destruct (source_cache s) as [|[k0 s0] d]; [discriminate|].
  simpl in Hpop. inversion Hpop; subst. simpl in *.
  repeat split; [lia | assumption | now inversion Hs].
Qed.
End AccountBlocks.

Section AccountEngine.
Context {World : Type} {os : OS World}.
Variable args : cargs.
Variable cfg : organize.
Variable ReqresExpr : Type.
Variable format_path : ReqresExpr -> Z -> path.
Variable filters_allow : ReqresExpr -> result bool.

Lemma accounted_books_only : books_only (accounted (World := World)).
Proof. apply books_only_balanced. Qed.

Lemma complete_intent_accounted done_files k intent :
  post (complete_intent args cfg done_files k intent)
    (balanced (approx_size intent + len k))
    (fun _ => accounted) accounted.
Proof.
  unfold complete_intent.
  eapply post_bind.
  { apply add_consumption_settles. }
  intros ?. eapply post_bind with (Q := fun _ => accounted).
  { destruct (negb (quiet args)).
    - apply post_log, accounted_books_only.
    - apply post_ret. auto. }
  intros ?. eapply post_bind.
  { apply post_log, accounted_books_only. }
  intros ?. eapply post_catch with (E' := accounted).
  - eapply post_bind.
    { apply post_syscall, accounted_books_only. }
    intros [updated|].
    + eapply post_bind; [apply replace_source_balanced|].
      intros ?. apply post_ret. auto.
    + apply post_ret. auto.
  - intros [d|d|e| | |]; try (apply post_raise; auto).
    destruct (errors args).
    + apply post_raise; auto.
    + eapply post_bind; [apply post_log, accounted_books_only|].
      intros ?. apply post_ret; auto.
    + apply post_ret; auto.
Qed.

Lemma flush_seen_accounted max_memory_ num_seen :
  forall num_deferred done_files,
    post (flush_seen args cfg max_memory_ num_seen num_deferred done_files)
      accounted (fun _ => accounted) accounted.
Proof.
  induction num_seen as [|n IH]; intros num_deferred done_files; simpl.
  - apply post_ret. auto.
  - apply post_get_state. intros s.
    match goal with |- post (if ?b then _ else _) _ _ _ => destruct b end.
    + eapply post_bind with (Q := fun _ => accounted).
      { apply post_forget, (seen_pop_balanced 0). }
      intros kv. apply post_get_state. intros s1.
      destruct (OD.get (fst kv) (deferred_intents s1)) eqn:Hget.
      * eapply post_bind; [apply (take_intent_balanced s1 _ _ _ Hget)|].
        intros ?. eapply post_bind; [apply complete_intent_accounted|].
        intros done'. apply IH.
      * apply post_forget, IH.
    + apply post_ret. intros st [_ H]. exact H.
Qed.

Lemma flush_deferred_accounted max_deferred_ max_memory_ num_deferred :
  forall done_files,
    post (flush_deferred args cfg max_deferred_ max_memory_ num_deferred done_files)
      accounted (fun _ => accounted) accounted.
Proof.
  induction num_deferred as [|n IH]; intros done_files; simpl.
  - apply post_ret. auto.
  - apply post_get_state. intros s.
    match goal with |- post (if ?b then _ else _) _ _ _ => destruct b end.
    + destruct (OD.popitem_first (deferred_intents s)) as [[[k intent] rest]|] eqn:Hpop.
      * eapply post_bind; [apply (popitem_intent_balanced s _ _ _ _ Hpop)|].
        intros ?. eapply post_bind; [apply complete_intent_accounted|].
        intros done'. apply IH.
      * apply post_raise. intros st [_ H]. exact H.
    + apply post_ret. intros st [_ H]. exact H.
Qed.

Lemma flush_cache_accounted max_memory_ num_cached :
  post (flush_cache args max_memory_ num_cached)
    accounted (fun _ => accounted) (accounted (World := World)).
Proof.
  induction num_cached as [|n IH]; simpl.
  - apply post_ret. auto.
  - apply post_get_state. intros s.
    match goal with |- post (if ?b then _ else _) _ _ _ => destruct b end.
    + destruct (OD.popitem_first (source_cache s)) as [[[k src] rest]|] eqn:Hpop.
      * eapply post_bind; [apply (popitem_source_balanced s _ _ _ _ Hpop)|].
        intros ?. eapply post_bind; [apply add_consumption_settles|].
        intros ?. apply IH.
      * apply post_raise. intros st [_ H]. exact H.
    + apply post_ret. intros st [_ H]. exact H.
Qed.

Lemma report_accounted t done_files :
  post (report t done_files) accounted (fun _ => accounted)
    (accounted (World := World)).
Proof.
  induction done_files as [|p rest IH]; simpl.
  - apply post_ret. auto.
  - eapply post_bind; [apply post_log, accounted_books_only|]. intros ?. apply IH.
Qed.

Lemma flush_updates_accounted final :
  post (flush_updates args cfg final) accounted (fun _ => accounted) accounted.
Proof.
  unfold flush_updates. apply post_get_state. intros s.
  match goal with |- post (if ?b then _ else _) _ _ _ => destruct b end.
  { apply post_ret. intros st [_ H]. exact H. }
  eapply post_bind; [apply post_forget, flush_seen_accounted|]. intros r.
  apply post_get_state. intros s1.
  eapply post_bind; [apply post_forget, flush_deferred_accounted|].
  intros done_files.
  eapply post_bind; [apply post_log, accounted_books_only|]. intros ?.
  eapply post_bind; [apply post_syscall, accounted_books_only|]. intros ?.
  eapply post_bind with (Q := fun _ => accounted).
  { destruct done_files as [files|], (terminator args) as [t|];
      try (apply post_ret; auto).
    eapply post_bind; [apply report_accounted|]. intros ?.
    eapply post_bind; [apply post_log, accounted_books_only|]. intros ?.
    apply post_log, accounted_books_only. }
  intros ?.
  eapply post_bind; [apply post_log, accounted_books_only|]. intros ?.
  eapply post_bind; [apply post_syscall, accounted_books_only|]. intros ?.
  apply flush_cache_accounted.
Qed.

Lemma finish_updates_accounted :
  post (finish_updates args cfg) accounted (fun _ => accounted) accounted.
Proof.
  unfold finish_updates.
  eapply post_bind; [apply flush_updates_accounted|]. intros ?.
  apply post_get_state. intros s.
  destruct (consumption s =? 0).
  - apply post_ret. intros st [_ H]. exact H.
  - apply post_raise. intros st [_ H]. exact H.
Qed.

Lemma place_accounted ogprefix new_source rrexpr :
  post (place cfg ReqresExpr format_path ogprefix new_source rrexpr)
    accounted (fun _ => accounted) accounted.
Proof.
  unfold place.
  eapply post_bind; [apply seen_count_balanced|]. intros num.
  set (k := abspath (format_path rrexpr num)).
  eapply post_bind; [apply pop_source_balanced|]. intros old_source.
  eapply post_bind; [apply pop_intent_balanced|]. intros popped.
  set (P2 := fun st : engine World =>
               balanced 0 st /\ OD.get k (source_cache st) = None
               /\ OD.get k (deferred_intents st) = None).
  set (P1 := fun st : engine World =>
               balanced 0 st /\ OD.get k (source_cache st) = None).
  assert (HP2 : forall st, P2 st -> accounted st) by (intros st H; apply H).
  eapply post_bind with (Q := fun _ => P2).
  { destruct popped as [intent|].
    - eapply post_bind with (Q := fun _ => P2).
      + eapply post_weaken; [apply (post_observe _ P2)| | |]; auto.
      + intros r. apply post_ret. auto.
    - eapply post_weaken; [apply (post_observe _ P2)| | |]; auto. }
  intros d.
  eapply post_bind with (Q := fun _ => P1).
  { destruct (d_intent d) as [intent|].
    - apply put_intent_balanced.
    - apply post_ret. intros st (H1 & H2 & _). split; assumption. }
  intros ?.
  eapply post_bind with (Q := fun _ => accounted).
  { destruct (d_source d) as [updated|].
    - apply put_source_balanced.
    - apply post_ret. intros st H. apply H. }
  intros ?. apply post_ret. auto.
Qed.

Lemma emit_turn_accounted ogprefix new_source rrexpr prev :
  post (emit_turn cfg ReqresExpr format_path ogprefix new_source rrexpr prev)
    accounted (fun _ => accounted) accounted.
Proof.
  unfold emit_turn.
  eapply post_bind; [apply place_accounted|]. intros [[d rel] k].
  destruct (negb (d_permitted d)).
  - match goal with |- post (if ?b then _ else _) _ _ _ => destruct b end.
    + apply post_raise. auto.
    + apply post_ret. auto.
  - apply post_ret. auto.
Qed.

Lemma emit_loop_accounted fuel :
  forall ogprefix new_source rrexpr prev,
    post (emit_loop cfg ReqresExpr format_path fuel ogprefix new_source rrexpr prev)
      accounted (fun _ => accounted) accounted.
Proof.
  induction fuel as [|fuel IH]; intros ogprefix new_source rrexpr prev; simpl.
  - apply post_raise. auto.
  - eapply post_bind; [apply emit_turn_accounted|]. intros [new' [intent k|rel]];
      simpl.
    + apply post_ret. auto.
    + apply IH.
Qed.

Lemma emit_accounted fuel new_source rrexpr :
  post (emit args cfg ReqresExpr format_path filters_allow fuel new_source rrexpr)
    accounted (fun _ => accounted) accounted.
Proof.
  unfold emit.
  eapply post_bind with (Q := fun _ => accounted).
  { intros st Hst. destruct (filters_allow rrexpr); exact Hst. }
  intros allowed. destruct (negb allowed).
  { apply post_ret. auto. }
  eapply post_bind; [apply emit_loop_accounted|]. intros r.
  eapply post_bind with (Q := fun _ => accounted).
  { destruct (fst r), (terminator args); try (apply post_ret; auto).
    apply post_log, accounted_books_only. }
  intros ?. destruct (negb (lazy args)).
  - apply flush_updates_accounted.
  - apply post_ret. auto.
Qed.

(** C1, amended.  At every exit of the engine's entry points [emit],
    [flush_updates] and [finish_updates], normal or exceptional,
    [mem.consumption] equals what the engine charges: for every source
    in the source cache and every intent in [deferred_intents] its
    [approx_size()] plus the length of the path it is stored under, and
    for the seen counter the length of every key.  The engine starts
    in such a state. *)
Theorem memory_account_invariant (st : engine World)
    (Hst : accounted st) (w : World) :
  accounted (mkengine 0 [] [] [] w [])
  /\ (forall fuel new_source rrexpr,
        accounted (fst (emit args cfg ReqresExpr format_path filters_allow
                          fuel new_source rrexpr st)))
  /\ (forall final, accounted (fst (flush_updates args cfg final st)))
  /\ accounted (fst (finish_updates args cfg st)).
Proof.
  split; [|split; [|split]].
  - repeat split; constructor.
  - intros fuel new_source rrexpr.
    pose proof (emit_accounted fuel new_source rrexpr st Hst) as H.
    destruct (emit _ _ _ _ _ _ _ _ st) as [st' [[]|e]]; exact H.
  - intros final. pose proof (flush_updates_accounted final st Hst) as H.
    destruct (flush_updates _ _ _ st) as [st' [[]|e]]; exact H.
  - pose proof (finish_updates_accounted st Hst) as H.
    destruct (finish_updates _ _ st) as [st' [[]|e]]; exact H.
Qed.
End AccountEngine.

(** The sum of the specification leaves out the lengths of the paths
    the cached source and the queued intent are stored under: after one
    [emit] the account holds 344 bytes, the specified sum is 320. *)
Lemma memory_account_specified_sum_fails :
  let st := after_first_emit example_args moving_ numbered_path in
  consumption example_engine = specified example_engine
  /\ List.length (deferred_intents st) = 1%nat
  /\ List.length (source_cache st) = 1%nat
  /\ consumption st = 344
  /\ specified st = 320
  /\ consumption st <> specified st.
Proof. vm_compute. repeat split; discriminate. Qed.

Lemma memory_account_invariant_witness :
  let st := after_first_emit example_args moving_ numbered_path in
  accounted st
  /\ accounted (fst (emit example_args moving_ unit numbered_path allow_all 3
                       example_b tt st))
  /\ accounted (fst (flush_updates example_args moving_ true st))
  /\ accounted (fst (finish_updates example_args moving_ st)).
Proof.
  intros st.
  assert (Hst : accounted st).
  { split; [reflexivity|].
    split; (constructor; [simpl; tauto | constructor]). }
  destruct (memory_account_invariant example_args moving_ unit numbered_path
              allow_all st Hst example_fs) as (_ & Hemit & Hflush & Hfinish).
  split; [exact Hst|]. split; [apply Hemit|]. split; [apply Hflush|].
  exact Hfinish.
Defined.

(** ** The final flush *)

Section FinalFlush.
Context {World : Type} {os : OS World}.
Variable args : cargs.
Variable cfg : organize.

Lemma source_approx_size_pos (s : OrganizeSource) : 0 < source_approx_size s.
Proof. unfold source_approx_size. pose proof (len_nonneg (abs_path s)). lia. Qed.

Lemma approx_size_pos (i : OrganizeIntent) : 0 < approx_size i.
Proof. unfold approx_size. pose proof (source_approx_size_pos (source i)). lia. Qed.

(** What the assertion of [finish_updates] buys: if it passes, the
    intent queue and the source cache are empty and the seen counter
    holds no key of positive length. *)
Lemma finish_updates_passed (st st' : engine World) :
  accounted st ->
  finish_updates args cfg st = (st', Ok tt) ->
  consumption st' = 0
  /\ deferred_intents st' = []
  /\ source_cache st' = []
  /\ OD.footprint (fun _ => 0) (seen_counter st') = 0.
Proof.
  intros Hst Hfin.
  pose proof (finish_updates_accounted args cfg st Hst) as Hacc.
  rewrite Hfin in Hacc.
  assert (Hzero : consumption st' = 0).
  { unfold finish_updates, bind, get_state in Hfin.
    destruct (flush_updates args cfg true st) as [st1 [[]|e]]; [|discriminate].
    destruct (consumption st1 =? 0) eqn:Hz; simpl in Hfin; [|discriminate].
    inversion Hfin; subst. now apply Z.eqb_eq. }
  destruct Hacc as [Hc _]. unfold charged in Hc.
  pose proof (ODFacts.footprint_nonneg source_approx_size (source_cache st')
                (fun v => Z.lt_le_incl _ _ (source_approx_size_pos v))) as H1.
  pose proof (ODFacts.footprint_nonneg approx_size (deferred_intents st')
                (fun v => Z.lt_le_incl _ _ (approx_size_pos v))) as H2.
  pose proof (ODFacts.footprint_nonneg (fun _ : Z => 0) (seen_counter st')
                (fun _ => Z.le_refl 0)) as H3.
  repeat split; [exact Hzero | | | lia].
  - apply (ODFacts.footprint_zero_nil approx_size); [apply approx_size_pos | lia].
  - apply (ODFacts.footprint_zero_nil source_approx_size);
      [apply source_approx_size_pos | lia].
Qed.
End FinalFlush.

(** C8, at a failing input.  With [--cache-number 0] the flush at the
    end of the first [emit] empties the source cache and keeps the
    intent.  The final flush then runs the intent, which puts its source
    into the cache after [num_cached] was read as 0: [flush_updates(True)]
    returns normally with one cached source and 150 bytes on the
    account, and the assertion of [finish_updates] fails. *)
Theorem final_flush_leaves_source_cached :
  let st := after_first_emit example_args_no_cache moving_ numbered_path in
  accounted st
  /\ List.length (deferred_intents st) = 1%nat
  /\ source_cache st = []
  /\ (exists st',
        flush_updates example_args_no_cache moving_ true st = (st', Ok tt)
        /\ deferred_intents st' = []
        /\ seen_counter st' = []
        /\ source_cache st' = [("/dst/x.0.wrr", example_a)]
        /\ consumption st' = 150)
  /\ snd (finish_updates example_args_no_cache moving_ st) = Raise AssertionError.
Proof.
  intros st. split; [|split; [|split; [|split]]].
  - split; [reflexivity|]. split; repeat constructor. simpl. tauto.
  - reflexivity.
  - reflexivity.
  - eexists. split; [vm_compute; reflexivity|]. repeat split.
  - reflexivity.
Qed.

(** ** The order of external calls in [flush_updates] *)

Lemma exec_event_not_stdout (pre : list event) p t :
  Forall exec_event pre -> ~ In (EvStdout p t) pre.
Proof.
  intros Hf Hin. rewrite Forall_forall in Hf. exact (Hf _ Hin).
Qed.

Lemma map_stdout_split (t0 : bytes) (files : list path) l p t l2 :
  map (fun q => EvStdout q t0) files = (l ++ EvStdout p t :: l2)%list ->
  t = t0 /\ exists paths, l2 = map (fun q => EvStdout q t0) paths.
Proof.
  revert l. induction files as [|f files IH]; intros l H; simpl in H.
  - destruct l; discriminate.
  - destruct l as [|e l]; simpl in H.
    + inversion H; subst. split; [reflexivity|]. now exists files.
    + inversion H; subst. eapply IH; eauto.
Qed.

Lemma flush_calls_durable (t : option bytes) (complete : bool)
    (calls : list event) :
  flush_calls t complete calls -> report_is_durable calls.
Proof.
  intros Hc l1 p t' l2 Heq.
  assert (Hnot : forall pre, Forall exec_event pre ->
                   ~ In (EvStdout p t') (pre ++ [EvSync])%list).
  { intros pre Hf Hin. apply in_app_or in Hin.
    destruct Hin as [Hin|[Hin|[]]]; [|discriminate].
    exact (exec_event_not_stdout _ _ _ Hf Hin). }
  destruct Hc as [|pre Hf|pre Hf|pre files complete Hf Hin].
  - destruct l1; discriminate.
  - exfalso. apply (exec_event_not_stdout pre p t' Hf).
    rewrite Heq. apply in_elt.
  - exfalso. apply (Hnot pre Hf). rewrite Heq. apply in_elt.
  - apply app_eq_app in Heq. destruct Heq as (l & [[H1 H2]|[H1 H2]]).
    + exfalso. destruct l as [|e l]; simpl in H2; [discriminate|].
      inversion H2; subst. apply (exec_event_not_stdout _ p t' Hf).
      apply in_elt.
    + destruct l as [|e l]; simpl in H2; [discriminate|].
      inversion H2 as [[He Hrest]]. subst e l1.
      split; [apply in_or_app; right; left; reflexivity|].
      destruct t as [t0|]; simpl in Hrest.
      * rewrite <- app_assoc in Hrest. simpl in Hrest.
        apply app_eq_app in Hrest. destruct Hrest as (m & [[H3 H4]|[H3 H4]]).
        -- destruct m as [|e m]; simpl in H4; [discriminate|].
           inversion H4; subst.
           apply map_stdout_split in H3. destruct H3 as (-> & paths & ->).
           now exists paths.
        -- exfalso. assert (Hin' : In (EvStdout p t')
                                     [EvStdoutFlush; EvStdoutFsync; EvFinish])
             by (rewrite H4; apply in_elt).
           simpl in Hin'. intuition discriminate.
      * exfalso. destruct l as [|e [|e' l]]; simpl in Hrest; discriminate.
Qed.

Section Trace.
Context {World : Type} {os : OS World}.
Implicit Types (st : engine World) (tr : list event).

Lemma running_aborted tr0 done_files st :
  running tr0 done_files st -> aborted tr0 st.
Proof. intros (suf & Ht & Hf & _). exists suf. auto. Qed.

Lemma post_silent {A} (m : M World A) P :
  silent m -> trace_only P -> post m P (fun _ => P) P.
Proof.
  intros Hm HP st Hst. specialize (Hm st).
  destruct (m st) as [st' [a|e]]; simpl in Hm; eapply HP; eauto.
Qed.

Lemma silent_bind {A B} (m : M World A) (k : A -> M World B) :
  silent m -> (forall a, silent (k a)) -> silent (bind m k).
Proof.
  intros Hm Hk st. unfold bind. specialize (Hm st).
  destruct (m st) as [st' [a|e]]; simpl in *; [|exact Hm].
  rewrite Hk. exact Hm.
Qed.

Lemma silent_ret {A} (a : A) : silent (ret a : M World A).
Proof. intros st. reflexivity. Qed.

Lemma silent_add_consumption d : silent (add_consumption d : M World unit).
Proof. intros st. reflexivity. Qed.

Lemma silent_set_deferred d : silent (set_deferred d : M World unit).
Proof. intros st. reflexivity. Qed.

Lemma silent_set_cache c : silent (set_cache c : M World unit).
Proof. intros st. reflexivity. Qed.

Lemma silent_syscall {A} (f : World -> World * result A) : silent (syscall f).
Proof. intros st. unfold syscall. destruct (f (world st)). reflexivity. Qed.

Lemma silent_seen_pop : silent (seen_pop : M World _).
Proof.
  intros st. unfold seen_pop.
  destruct (SeenCounter.pop _) as [[s res]|]; reflexivity.
Qed.

Lemma silent_replace_source k s : silent (replace_source k s : M World unit).
Proof.
  intros st. unfold_engine. destruct (OD.get k (source_cache st)); reflexivity.
Qed.

Lemma trace_only_running tr0 done_files :
  trace_only (running (World := World) tr0 done_files).
Proof. intros st st' Ht (suf & Hs & Hr). exists suf. split; [congruence|exact Hr]. Qed.

Lemma trace_only_aborted tr0 : trace_only (aborted (World := World) tr0).
Proof. intros st st' Ht (suf & Hs & Hr). exists suf. split; [congruence|exact Hr]. Qed.

Lemma post_silent_running {A} (m : M World A) tr0 done_files :
  silent m ->
  post m (running tr0 done_files) (fun _ => running tr0 done_files) (aborted tr0).
Proof.
  intros Hm. eapply post_weaken;
    [apply (post_silent m (running tr0 done_files) Hm), trace_only_running
    | | |]; auto.
  intros st. apply running_aborted.
Qed.

Lemma log_running tr0 done_files e (E : engine World -> Prop) :
  exec_event e ->
  post (log e) (running tr0 done_files) (fun _ => running tr0 done_files) E.
Proof.
  intros He st (suf & Ht & Hf & Hin). simpl.
  exists (suf ++ [e])%list. rewrite Ht, app_assoc. split; [reflexivity|]. split.
  - apply Forall_app. split; [exact Hf | constructor; [exact He | constructor]].
  - intros p Hp. apply in_or_app. left. auto.
Qed.

Lemma log_run tr0 done_files k (E : engine World -> Prop) :
  post (log (EvRun k)) (running tr0 done_files)
    (fun _ => running tr0 (Some (files_of done_files ++ [k])%list)) E.
Proof.
  intros st (suf & Ht & Hf & Hin). simpl.
  exists (suf ++ [EvRun k])%list. rewrite Ht, app_assoc. split; [reflexivity|]. split.
  - apply Forall_app. split; [exact Hf | constructor; [exact I | constructor]].
  - simpl. intros p Hp. apply in_or_app. apply in_app_or in Hp.
    destruct Hp as [Hp|[<-|[]]]; [left; auto | right; left; reflexivity].
Qed.

Lemma running_fewer tr0 k done_files st :
  running tr0 (Some (files_of done_files ++ [k])%list) st ->
  running tr0 done_files st
  /\ running tr0 (option_map (fun l => (l ++ [k])%list) done_files) st.
Proof.
  intros (suf & Ht & Hf & Hin). simpl in Hin.
  split; exists suf; (split; [exact Ht|]); (split; [exact Hf|]).
  - intros p Hp. apply Hin, in_or_app. left. exact Hp.
  - destruct done_files as [l|]; simpl; [exact Hin | tauto].
Qed.
End Trace.

Section TraceEngine.
Context {World : Type} {os : OS World}.
Variable args : cargs.
Variable cfg : organize.

Lemma complete_intent_trace tr0 done_files k intent :
  post (complete_intent args cfg done_files k intent)
    (running tr0 done_files)
    (fun done_files' => running tr0 done_files')
    (aborted tr0).
Proof.
  unfold complete_intent.
  eapply post_bind with (Q := fun _ => running tr0 done_files).
  { apply post_silent_running, silent_add_consumption. }
  intros ?. eapply post_bind with (Q := fun _ => running tr0 done_files).
  { destruct (negb (quiet args)).
    - apply log_running. exact I.
    - apply post_ret. auto. }
  intros ?. eapply post_bind; [apply log_run|]. intros ?.
  set (Q := running tr0 (Some (files_of done_files ++ [k])%list)).
  assert (HQ : trace_only Q) by apply trace_only_running.
  eapply post_catch with (E' := Q).
  - eapply post_bind with (Q := fun _ => Q).
    { apply post_silent; [apply silent_syscall | exact HQ]. }
    intros [updated|].
    + eapply post_bind with (Q := fun _ => Q).
      { eapply post_weaken;
          [apply post_silent; [apply silent_replace_source | exact HQ]| | |];
          auto. }
      intros ?. apply post_ret. intros st H. now apply running_fewer in H.
    + apply post_ret. intros st H. now apply running_fewer in H.
  - assert (Hdone : forall st, Q st -> running tr0 done_files st)
      by (intros st H; now apply running_fewer in H).
    assert (Hab : forall st, Q st -> aborted tr0 st)
      by (intros st H; eapply running_aborted; eauto).
    intros [d|d|e| | |]; try (apply post_raise; exact Hab).
    destruct (errors args).
    + apply post_raise; exact Hab.
    + eapply post_bind with (Q := fun _ => running tr0 done_files).
      * eapply post_weaken; [apply log_running; exact I| | |]; eauto.
      * intros ?. apply post_ret; auto.
    + apply post_ret; auto.
Qed.

Lemma flush_seen_trace tr0 max_memory_ num_seen :
  forall num_deferred done_files,
    post (flush_seen args cfg max_memory_ num_seen num_deferred done_files)
      (running tr0 done_files)
      (fun r => running tr0 (snd r))
      (aborted tr0).
Proof.
  induction num_seen as [|n IH]; intros num_deferred done_files; simpl.
  - apply post_ret. auto.
  - apply post_get_state. intros s.
    match goal with |- post (if ?b then _ else _) _ _ _ => destruct b end.
    + eapply post_bind with (Q := fun _ => running tr0 done_files).
      { apply post_forget, post_silent_running, silent_seen_pop. }
      intros kv. apply post_get_state. intros s1.
      destruct (OD.get (fst kv) (deferred_intents s1)) eqn:Hget.
      * eapply post_bind with (Q := fun _ => running tr0 done_files).
        { apply post_forget, post_silent_running, silent_set_deferred. }
        intros ?. eapply post_bind; [apply complete_intent_trace|].
        intros done'. apply IH.
      * apply post_forget, IH.
    + apply post_ret. intros st [_ H]. exact H.
Qed.

Lemma flush_deferred_trace tr0 max_deferred_ max_memory_ num_deferred :
  forall done_files,
    post (flush_deferred args cfg max_deferred_ max_memory_ num_deferred done_files)
      (running tr0 done_files)
      (fun done_files' => running tr0 done_files')
      (aborted tr0).
Proof.
  induction num_deferred as [|n IH]; intros done_files; simpl.
  - apply post_ret. auto.
  - apply post_get_state. intros s.
    match goal with |- post (if ?b then _ else _) _ _ _ => destruct b end.
    + destruct (OD.popitem_first (deferred_intents s)) as [[[k intent] rest]|].
      * eapply post_bind with (Q := fun _ => running tr0 done_files).
        { apply post_forget, post_silent_running, silent_set_deferred. }
        intros ?. eapply post_bind; [apply complete_intent_trace|].
        intros done'. apply IH.
      * apply post_raise. intros st [_ H]. eapply running_aborted; eauto.
    + apply post_ret. intros st [_ H]. exact H.
Qed.

Lemma silent_flush_cache max_memory_ num_cached :
  silent (flush_cache args max_memory_ num_cached : M World unit).
Proof.
  induction num_cached as [|n IH]; simpl; [apply silent_ret|].
  intros st. unfold bind at 1. unfold get_state.
  match goal with |- context [if ?b then _ else _] => destruct b end;
    [|reflexivity].
  destruct (OD.popitem_first (source_cache st)) as [[[k src] rest]|];
    [|reflexivity].
  apply (silent_bind (set_cache rest)); [apply silent_set_cache|].
  intros ?. apply silent_bind; [apply silent_add_consumption|].
  intros ?. apply IH.
Qed.

Lemma same_kind_refl d : same_kind d d.
Proof. destruct d; exact I. Qed.

Lemma same_kind_trans d1 d2 d3 :
  same_kind d1 d2 -> same_kind d2 d3 -> same_kind d1 d3.
Proof. destruct d1, d2, d3; simpl; tauto. Qed.

Lemma complete_intent_kind done_files k intent :
  post (complete_intent args cfg done_files k intent : M World _)
    (fun _ => True) (fun done_files' _ => same_kind done_files done_files')
    (fun _ => True).
Proof.
  unfold complete_intent.
  eapply post_bind; [apply post_true|]. intros ?.
  eapply post_bind; [apply post_true|]. intros ?.
  eapply post_bind; [apply post_true|]. intros ?.
  eapply post_catch with (E' := fun _ => True).
  - eapply post_bind; [apply post_true|].
    intros [updated|].
    + eapply post_bind; [apply post_true|]. intros ?.
      apply post_ret. intros. destruct done_files; exact I.
    + apply post_ret. intros. destruct done_files; exact I.
  - intros [d|d|e| | |]; try (apply post_raise; auto).
    destruct (errors args).
    + apply post_raise; auto.
    + eapply post_bind; [apply post_true|]. intros ?.
      apply post_ret. intros. apply same_kind_refl.
    + apply post_ret. intros. apply same_kind_refl.
Qed.

Lemma flush_seen_kind max_memory_ num_seen :
  forall num_deferred done_files,
    post (flush_seen args cfg max_memory_ num_seen num_deferred done_files
          : M World _)
      (fun _ => True) (fun r _ => same_kind done_files (snd r)) (fun _ => True).
Proof.
  induction num_seen as [|n IH]; intros num_deferred done_files; simpl.
  - apply post_ret. intros. apply same_kind_refl.
  - eapply post_bind; [apply post_true|]. intros s.
    match goal with |- post (if ?b then _ else _) _ _ _ => destruct b end.
    + eapply post_bind; [apply post_true|]. intros kv.
      eapply post_bind; [apply post_true|]. intros s1.
      destruct (OD.get (fst kv) (deferred_intents s1)).
      * eapply post_bind; [apply post_true|]. intros ?.
        eapply post_bind with (Q := fun d _ => same_kind done_files d).
        { eapply post_weaken; [apply complete_intent_kind| | |]; auto. }
        intros done'. apply post_pure. intros Hk.
        eapply post_weaken; [apply IH | auto | | auto].
        intros r st H. eapply same_kind_trans; eauto.
      * eapply post_weaken; [apply IH| | |]; auto.
    + apply post_ret. intros. apply same_kind_refl.
Qed.

Lemma flush_deferred_kind max_deferred_ max_memory_ num_deferred :
  forall done_files,
    post (flush_deferred args cfg max_deferred_ max_memory_ num_deferred done_files
          : M World _)
      (fun _ => True) (fun d _ => same_kind done_files d) (fun _ => True).
Proof.
  induction num_deferred as [|n IH]; intros done_files; simpl.
  - apply post_ret. intros. apply same_kind_refl.
  - eapply post_bind; [apply post_true|]. intros s.
    match goal with |- post (if ?b then _ else _) _ _ _ => destruct b end.
    + destruct (OD.popitem_first (deferred_intents s)) as [[[k intent] rest]|].
      * eapply post_bind; [apply post_true|]. intros ?.
        eapply post_bind with (Q := fun d _ => same_kind done_files d).
        { eapply post_weaken; [apply complete_intent_kind| | |]; auto. }
        intros done'. apply post_pure. intros Hk.
        eapply post_weaken; [apply IH | auto | | auto].
        intros r st H. eapply same_kind_trans; eauto.
      * apply post_raise. auto.
    + apply post_ret. intros. apply same_kind_refl.
Qed.

Lemma report_runs t files :
  forall st : engine World,
    exists st', report t files st = (st', Ok tt)
                /\ trace st' = (trace st ++ map (fun p => EvStdout p t) files)%list
                /\ world st' = world st.
Proof.
  induction files as [|p rest IH]; intros st; simpl.
  - exists st. now rewrite app_nil_r.
  - unfold bind. simpl.
    destruct (IH (mkengine (consumption st) (seen_counter st)
                    (deferred_intents st) (source_cache st) (world st)
                    (trace st ++ [EvStdout p t])%list)) as (st' & Hr & Ht & Hw).
    exists st'. rewrite Hr, Ht. simpl. rewrite <- app_assoc. auto.
Qed.

Lemma flush_updates_calls tr0 final :
  post (flush_updates args cfg final)
    (fun st => trace st = tr0)
    (fun _ => flushed (terminator args) tr0 true)
    (flushed (terminator args) tr0 false).
Proof.
  unfold flush_updates. apply post_get_state. intros s.
  match goal with |- post (if ?b then _ else _) _ _ _ => destruct b end.
  { apply post_ret. intros st [_ Ht]. exists []. rewrite app_nil_r.
    split; [exact Ht | constructor]. }
  set (done0 := match terminator args with Some _ => Some [] | None => None end).
  assert (Haborted : forall st : engine World,
             aborted tr0 st -> flushed (terminator args) tr0 false st).
  { intros st (suf & Ht & Hf). exists suf. split; [exact Ht|]. now constructor. }
  eapply post_bind
    with (Q := fun r st => running tr0 (snd r) st /\ same_kind done0 (snd r)).
  { eapply post_weaken;
      [apply post_and; [apply flush_seen_trace | apply flush_seen_kind] | | |].
    - intros st [_ Ht]. split; [|exact I].
      exists []. rewrite app_nil_r. split; [exact Ht|]. split; [constructor|].
      unfold done0. destruct (terminator args); simpl; tauto.
    - auto.
    - intros st [H _]. auto. }
  intros r. apply post_get_state. intros s1. apply post_forget.
  apply post_pull. intros Hk0.
  eapply post_bind
    with (Q := fun d st => running tr0 d st /\ same_kind done0 d).
  { eapply post_weaken;
      [apply post_and; [apply flush_deferred_trace | apply flush_deferred_kind]
      | | |].
    - intros st H. split; [exact H | exact I].
    - intros d st [H Hk]. split; [exact H|]. eapply same_kind_trans; eauto.
    - intros st [H _]. auto. }
  intros done_files. apply post_pull. intros Hk.
  intros st (pre & Ht & Hpre & Hin).
  assert (Hall : forall b (st' : engine World),
             trace st' = (tr0 ++ pre ++ EvSync
                            :: reporting (terminator args) (files_of done_files)
                            ++ [EvFinish])%list ->
             flushed (terminator args) tr0 b st').
  { intros b st' Ht'. eexists. split; [exact Ht'|]. now constructor. }
  unfold bind at 1. simpl. unfold bind at 1.
  match goal with |- context [syscall dsync_sync ?x] =>
    pose proof (silent_syscall dsync_sync x) as Hs;
    destruct (syscall dsync_sync x) as [st1 [[]|e]] end; simpl in Hs.
  2:{ exists (pre ++ [EvSync])%list. rewrite Hs, Ht, app_assoc.
      split; [reflexivity | now constructor]. }
  assert (Hrep : exists st2,
             (match done_files, terminator args with
              | Some files, Some t =>
                  report t files ;;; log EvStdoutFlush ;;; log EvStdoutFsync
              | _, _ => ret tt
              end) st1 = (st2, Ok tt)
             /\ trace st2
                = (trace st1
                   ++ reporting (terminator args) (files_of done_files))%list).
  { unfold done0 in Hk. destruct done_files as [files|], (terminator args) as [t|];
      simpl in Hk; try contradiction.
    - destruct (report_runs t files st1) as (st2 & Hr & Ht2 & _).
      eexists. unfold bind. rewrite Hr. simpl. split; [reflexivity|].
      rewrite Ht2. simpl. now rewrite <- !app_assoc.
    - exists st1. simpl. now rewrite app_nil_r. }
  destruct Hrep as (st2 & Hrep & Ht2).
  unfold bind at 1. rewrite Hrep.
  unfold bind at 1. simpl. unfold bind at 1.
  match goal with |- context [syscall dsync_finish ?x] =>
    pose proof (silent_syscall dsync_finish x) as Hf;
    destruct (syscall dsync_finish x) as [st3 [[]|e]] end; simpl in Hf.
  2:{ apply Hall. rewrite Hf, Ht2, Hs, Ht. now rewrite <- !app_assoc. }
  match goal with |- context [flush_cache ?a ?m ?n ?x] =>
    pose proof (silent_flush_cache m n x) as Hc;
    destruct (flush_cache a m n x) as [st4 [[]|e]] end; simpl in Hc;
    apply Hall; rewrite Hc, Hf, Ht2, Hs, Ht; now rewrite <- !app_assoc.
Qed.

(** C9.  The external calls of one [flush_updates] come in this order:
    the executions of intents, then [dsync.sync()], then one write per
    completed destination path to stdout, then the flush and the fsync
    of stdout, then [dsync.finish()].  A path is written to stdout only
    after [sync()], stdout is fsynced after the last path and before the
    post-success cleanups, and a call that returns normally made all of
    these calls or, when no budget was exceeded, none. *)
Theorem flush_updates_reports_after_sync (final : bool) (st : engine World) :
  exists calls,
    trace (fst (flush_updates args cfg final st)) = (trace st ++ calls)%list
    /\ flush_calls (terminator args)
         (match snd (flush_updates args cfg final st) with
          | Ok _ => true
          | Raise _ => false
          end) calls
    /\ report_is_durable calls.
Proof.
  pose proof (flush_updates_calls (trace st) final st eq_refl) as H.
  destruct (flush_updates args cfg final st) as [st' [[]|e]];
    destruct H as (calls & Ht & Hc); exists calls;
    (split; [exact Ht|]); (split; [exact Hc|]);
    eapply flush_calls_durable; exact Hc.
Qed.
End TraceEngine.

(** The final flush after the first [emit]: the intent is run, the
    log is synced, the path is reported, stdout is fsynced, and then
    the cleanups run. *)
Lemma flush_updates_reports_after_sync_witness :
  let st := after_first_emit example_args moving_ numbered_path in
  trace st = []
  /\ trace (fst (flush_updates example_args moving_ true st))
     = [EvStderr "moving: `/src/a.wrr` -> `/dst/x.0.wrr`"; EvRun "/dst/x.0.wrr";
        EvSync; EvStdout "/dst/x.0.wrr" newline; EvStdoutFlush; EvStdoutFsync;
        EvFinish]
  /\ exists calls,
      trace (fst (flush_updates example_args moving_ true st))
      = (trace st ++ calls)%list
      /\ flush_calls (Some newline) true calls
      /\ report_is_durable calls.
Proof.
  intros st. split; [reflexivity|]. split; [reflexivity|].
  exact (flush_updates_reports_after_sync example_args moving_ true st).
Defined.

(** ** Template variance *)

Section Variance.
Context {World : Type} {os : OS World}.
Variable args : cargs.
Variable cfg : organize.
Variable ReqresExpr : Type.
Variable format_path : ReqresExpr -> Z -> path.
Variable filters_allow : ReqresExpr -> result bool.

Lemma defer_update_refused (w : World) (old new_source : OrganizeSource)
    (d : defer_result) :
  defer_update cfg w old new_source = Ok d ->
  d_permitted d = false ->
  d = mkdefer None (Some old) false new_source
  /\ update_from cfg w (mkintent old true) new_source
     = Ok (refused (mkintent old true) new_source).
Proof.
  unfold defer_update.
  destruct (update_from cfg w (mkintent old true) new_source) as [r|e] eqn:Hr;
    [|discriminate].
  destruct (moving cfg && uf_permitted r); [intros [= <-]; discriminate|].
  destruct (negb (uf_adopted r)) eqn:Had; intros [= <-] Hp; simpl in Hp;
    rewrite (update_from_refused cfg w _ _ r Hr Hp) in *; simpl in *;
    [split; reflexivity | discriminate].
Qed.

Lemma defer_refused (w : World) (k : path) (old : option OrganizeSource)
    (new_source : OrganizeSource) (d : defer_result) :
  defer cfg w k old new_source = Ok d ->
  d_permitted d = false ->
  String.eqb (abs_path new_source) k = false
  /\ exists old',
      d = mkdefer None (Some old') false new_source
      /\ update_from cfg w (mkintent old' true) new_source
         = Ok (refused (mkintent old' true) new_source).
Proof.
  unfold defer.
  destruct (String.eqb (abs_path new_source) k); [intros [= <-]; discriminate|].
  intros Hd Hp. split; [reflexivity|].
  destruct old as [old|].
  { exists old. now apply defer_update_refused. }
  destruct (lstat w k) as [out_lstat|e].
  - destruct (st_islnk out_lstat).
    + destruct (stat w k) as [out_stat|e].
      * destruct (negb (symlinking cfg)); [discriminate|].
        eexists. eapply defer_update_refused; eauto.
      * destruct e as [?|?|[| | | |?]| | |]; try discriminate.
        inversion Hd; subst. discriminate.
    + destruct (symlinking cfg); [discriminate|].
      eexists. eapply defer_update_refused; eauto.
  - destruct e as [?|?|[| | | |?]| | |]; try discriminate.
    inversion Hd; subst. discriminate.
Qed.

Lemma place_refused ogprefix new_source rrexpr (st st1 : engine World)
    d rel k :
  place cfg ReqresExpr format_path ogprefix new_source rrexpr st
  = (st1, Ok (d, rel, k)) ->
  d_permitted d = false ->
  (exists num, rel = format_path rrexpr num)
  /\ k = abspath rel
  /\ settled cfg k new_source d st1.
Proof.
  unfold place. unfold bind at 1.
  destruct (seen_count ogprefix st) as [s1 [num|e]] eqn:Hc; [|discriminate].
  set (k0 := abspath (format_path rrexpr num)).
  unfold bind at 1.
  destruct (pop_source k0 s1) as [s2 [old|e]] eqn:Hps; [|discriminate].
  unfold bind at 1.
  destruct (pop_intent k0 s2) as [s3 [popped|e]] eqn:Hpi; [|discriminate].
  assert (Hw : world s3 = world s2 /\ source_cache s3 = source_cache s2).
  { revert Hpi. unfold_engine.
    destruct (OD.get k0 (deferred_intents s2)); intros [= <- _]; auto. }
  assert (Hpopped : match popped with
                    | Some i => True
                    | None => OD.get k0 (deferred_intents s3) = None
                    end).
  { revert Hpi. unfold_engine.
    destruct (OD.get k0 (deferred_intents s2)) eqn:Hg; intros [= <- <-]; auto. }
  unfold bind at 1.
  destruct popped as [intent|].
  - unfold bind at 1. unfold observe at 1.
    destruct (update_from cfg (world s3) intent new_source) as [r|e] eqn:Hr;
      [|discriminate].
    simpl. unfold_engine. intros [= <- <- <- <-] Hp. simpl in Hp.
    pose proof (update_from_refused cfg _ _ _ r Hr Hp) as Hrr. subst r. simpl.
    split; [eauto|]. split; [reflexivity|]. left. exists intent. simpl.
    unfold refused. repeat split; auto using ODFacts.get_set_same.
  - unfold observe at 1.
    destruct (defer cfg (world s3) k0 old new_source) as [d0|e] eqn:Hd;
      [|discriminate].
    intros H Hp.
    assert (Hp0 : d_permitted d0 = false).
    { revert H. unfold_engine.
      destruct (d_intent d0), (d_source d0); intros [= <- <- <- <-]; exact Hp. }
    destruct (defer_refused _ _ _ _ _ Hd Hp0) as (Hne & old' & -> & Huf).
    revert H. unfold_engine. intros [= <- <- <- <-].
    split; [eauto|]. split; [reflexivity|]. right. exists old'. simpl.
    repeat split; auto using ODFacts.get_set_same.
Qed.

Lemma place_settled ogprefix new_source rrexpr (st1 : engine World) d k :
  (forall num, format_path rrexpr num = format_path rrexpr 0) ->
  k = abspath (format_path rrexpr 0) ->
  settled cfg k new_source d st1 ->
  exists st2,
    place cfg ReqresExpr format_path ogprefix new_source rrexpr st1
    = (st2, Ok (d, format_path rrexpr 0, k)).
Proof.
  intros Hfix -> Hs. unfold place. unfold bind at 1.
  unfold seen_count at 1.
  destruct (SeenCounter.count ogprefix _) as [s num]. rewrite (Hfix num).
  set (k := abspath (format_path rrexpr 0)) in *.
  destruct Hs as [(i & -> & Hi & Hc & Huf) | (old & -> & Hi & Hc & Hne & Huf)];
    unfold_engine; unfold observe; simpl; rewrite Hc; simpl; rewrite Hi; simpl.
  - rewrite Huf. simpl. eexists. reflexivity.
  - unfold defer. rewrite Hne. unfold defer_update. rewrite Huf. simpl.
    rewrite andb_false_r. simpl. eexists. reflexivity.
Qed.

Lemma string_app_assoc (a b c : string) : ((a ++ b) ++ c)%string = (a ++ b ++ c)%string.
Proof. induction a as [|x a IH]; cbn; [reflexivity|now rewrite IH]. Qed.

(** The failure that [emit_turn] raises reads as [destination_exists]. *)
Lemma variance_failure_text (new_source : OrganizeSource) (k : path) :
  variance_failure cfg new_source k
  = destination_exists cfg (abs_path new_source) k.
Proof.
  unfold variance_failure, destination_exists, elaborate, while_actioning,
    source_format_source.
  f_equal. rewrite !string_app_assoc. reflexivity.
Qed.

(** C4.  A turn of the retry loop of [emit] that is not permitted and
    whose destination path equals that of the turn before raises the
    [Failure] "destination already exists" with the variance hint
    (did your forget to place a [%(num)d] substitution in there?),
    elaborated with the source and the destination.
    When the output template does not vary with [num], a first turn
    that is not permitted is followed by a second turn that meets the
    same refusal at the same path, so the loop, and [emit], raise that
    failure within two turns. *)
Theorem variance_detected (ogprefix : path) (new_source : OrganizeSource)
    (rrexpr : ReqresExpr) (st st1 : engine World) (d : defer_result)
    (rel k : path)
    (Hplace : place cfg ReqresExpr format_path ogprefix new_source rrexpr st
              = (st1, Ok (d, rel, k)))
    (Hrefused : d_permitted d = false) :
  emit_turn cfg ReqresExpr format_path ogprefix new_source rrexpr (Some rel) st
  = (st1, Raise (destination_exists cfg (abs_path (d_new d)) k))
  /\ ((forall num, format_path rrexpr num = format_path rrexpr 0) ->
      forall fuel prev,
        (exists st2,
            emit_loop cfg ReqresExpr format_path (S (S fuel)) ogprefix new_source
              rrexpr prev st
            = (st2, Raise (destination_exists cfg (abs_path new_source) k)))
        /\ (filters_allow rrexpr = Ok true ->
            ogprefix = format_path rrexpr 0 ->
            exists st2,
              emit args cfg ReqresExpr format_path filters_allow (S (S fuel))
                new_source rrexpr st
              = (st2, Raise (destination_exists cfg (abs_path new_source) k)))).
Proof.
  rewrite <- !variance_failure_text.
  split.
  - unfold emit_turn, bind. rewrite Hplace, Hrefused. simpl.
    now rewrite String.eqb_refl.
  - intros Hfix fuel prev.
    destruct (place_refused _ _ _ _ _ _ _ _ Hplace Hrefused)
      as ((num & Hrel) & Hk & Hs).
    rewrite Hfix in Hrel.
    assert (Hnew : d_new d = new_source)
      by (destruct Hs as [(i & -> & _) | (old & -> & _)]; reflexivity).
    assert (Hloop : forall prev,
               exists st2,
                 emit_loop cfg ReqresExpr format_path (S (S fuel)) ogprefix
                   new_source rrexpr prev st
                 = (st2, Raise (variance_failure cfg new_source k))).
    { intros prev0. simpl. unfold bind at 1. unfold emit_turn at 1.
      unfold bind at 1. rewrite Hplace, Hrefused. simpl.
      destruct (match prev0 with
                | Some p => String.eqb p rel
                | None => false
                end).
      - eexists. now rewrite Hnew.
      - simpl. rewrite Hnew. subst rel.
        destruct (place_settled ogprefix new_source rrexpr st1 d k Hfix Hk Hs)
          as (st2 & Hplace2).
        unfold bind at 1. unfold emit_turn at 1. unfold bind at 1.
        rewrite Hplace2, Hrefused. simpl. rewrite String.eqb_refl, Hnew.
        eexists. reflexivity. }
    split; [apply Hloop|].
    intros Hallow Hog. destruct (Hloop None) as (st2 & Hl).
    exists st2. unfold emit. unfold bind at 1. rewrite Hallow. simpl.
    rewrite <- Hog. unfold bind at 1.
    simpl in Hl |- *. rewrite Hl. reflexivity.
Qed.
End Variance.

(** The template ["/dst/x.wrr"] has no [num]; the first record is
    queued for it, the second one differs and is refused. *)
Lemma variance_detected_witness :
  let st := after_first_emit example_args moving_ fixed_path in
  let d := mkdefer (Some (mkintent example_a false)) (Some example_a) false
             example_b in
  snd (place moving_ unit fixed_path "/dst/x.wrr" example_b tt st)
  = Ok (d, "/dst/x.wrr", "/dst/x.wrr")
  /\ snd (emit_turn moving_ unit fixed_path "/dst/x.wrr" example_b tt
            (Some "/dst/x.wrr") st)
     = Raise (destination_exists moving_ "/src/b.wrr" "/dst/x.wrr")
  /\ exists st2,
      emit example_args moving_ unit fixed_path allow_all 2 example_b tt st
      = (st2, Raise (destination_exists moving_ "/src/b.wrr" "/dst/x.wrr")).
Proof.
  intros st d.
  pose (st1 := fst (place moving_ unit fixed_path "/dst/x.wrr" example_b tt st)).
  assert (Hplace : place moving_ unit fixed_path "/dst/x.wrr" example_b tt st
                   = (st1, Ok (d, "/dst/x.wrr", "/dst/x.wrr")))
    by (vm_compute; reflexivity).
  destruct (variance_detected example_args moving_ unit fixed_path allow_all
              "/dst/x.wrr" example_b tt st st1 d "/dst/x.wrr" "/dst/x.wrr"
              Hplace eq_refl) as (Hturn & Hloop).
  split; [exact (f_equal snd Hplace)|]. split; [exact (f_equal snd Hturn)|].
  exact (proj2 (Hloop (fun _ => eq_refl) 0%nat None) eq_refl eq_refl).
Defined.

(** * Further properties *)

(** ** Eviction from the seen counter *)

Module SeenCounterEviction.
Import SeenCounter SeenCounterSpec SeenCounterAccount.

Lemma count_keys_len value s :
  consumption (fst (count value s)) - keys_len (fst (count value s))
  = consumption s - keys_len s.
Proof.
  unfold count, keys_len.
  destruct (OD.get value (state s)) eqn:Hget; simpl;
    rewrite ODFacts.footprint_set, Hget; simpl; lia.
Qed.

Lemma pop_keys_len s s' kv :
  pop s = Some (s', kv) ->
  consumption s' - keys_len s' = consumption s - keys_len s.
Proof.
  unfold pop, keys_len. destruct (state s) as [|[k c] rest]; simpl;
    [discriminate|].
  intros [= <- <-]. simpl. lia.
Qed.

(** X1.  Over any history of [count] and [pop] calls the counter adds
    to and takes from the memory account exactly the lengths of the
    keys it holds: the account minus those lengths does not change. *)
Theorem seen_counter_account (ops : list op) (s s' : t) (evicted : list string) :
  run_ops ops s = Some (s', evicted) ->
  consumption s' - keys_len s' = consumption s - keys_len s.
Proof.
  revert s s' evicted.
  induction ops as [|[value|] ops IH]; simpl; intros s s' evicted Hrun.
  - now inversion Hrun.
  - rewrite (IH _ _ _ Hrun). apply count_keys_len.
  - destruct (pop s) as [[s1 [k c]]|] eqn:Hpop; [|discriminate].
    destruct (run_ops ops s1) as [[s2 ev]|] eqn:Hrest; [|discriminate].
    inversion Hrun; subst.
    rewrite (IH _ _ _ Hrest). eapply pop_keys_len; eauto.
Qed.

Lemma seen_counter_account_witness :
  let s := mk 7 [("/d/old", 3)] in
  let ops := [Count "/d/a.wrr"; Pop; Count "/d/b.wrr"; Count "/d/a.wrr"] in
  run_ops ops s = Some (mk 17 [("/d/a.wrr", 1); ("/d/b.wrr", 0)], ["/d/old"])
  /\ 17 - keys_len (mk 17 [("/d/a.wrr", 1); ("/d/b.wrr", 0)]) = 7 - keys_len s.
Proof.
  intros s ops. split; [reflexivity|].
  exact (seen_counter_account ops s _ ["/d/old"] eq_refl).
Defined.

Lemma count_keeps_head value k v rest s :
  state s = (k, v) :: rest ->
  exists rest',
    state (fst (count value s))
    = (k, if String.eqb value k then v + 1 else v) :: rest'.
Proof.
  intros Hs. unfold count. rewrite Hs. simpl.
  destruct (String.eqb value k) eqn:Hk; simpl.
  - rewrite ?Hk. eauto.
  - destruct (OD.get value rest); simpl; rewrite ?Hk; eauto.
Qed.

Lemma counts_keep_head k values :
  forall v rest s,
    state s = (k, v) :: rest ->
    exists s' rest',
      run_ops (map Count values) s = Some (s', [])
      /\ state s' = (k, v + Z.of_nat (calls k (map Count values))) :: rest'.
Proof.
  induction values as [|value values IH]; intros v rest s Hs; simpl.
  - exists s, rest. rewrite Z.add_0_r. auto.
  - destruct (count_keeps_head value k v rest s Hs) as (rest1 & H1).
    destruct (IH _ _ _ H1) as (s' & rest' & Hrun & Hst).
    exists s', rest'. split; [exact Hrun|]. rewrite Hst.
    destruct (String.eqb value k); f_equal; f_equal; lia.
Qed.

(** X2.  Eviction is first in, first out by first sight: after the
    keys [k :: values] were counted on an empty counter, [pop] evicts
    [k], however often [k] or other keys were counted again, returns
    with it the number of times [k] was seen again, and gives
    [len k] back to the memory account. *)
Theorem seen_counter_pop_first_seen (c : Z) (k : string) (values : list string) :
  exists s s',
    run_ops (map Count (k :: values)) (mk c []) = Some (s, [])
    /\ pop s = Some (s', (k, Z.of_nat (calls k (map Count values))))
    /\ consumption s' = consumption s - len k
    /\ __len__ s' = __len__ s - 1.
Proof.
  destruct (counts_keep_head k values 0 [] (fst (count k (mk c []))))
    as (s & rest & Hrun & Hst); [reflexivity|].
  exists s, (mk (consumption s - len k) rest). split; [exact Hrun|].
  unfold pop, __len__. rewrite Hst. cbn [OD.popitem_first state consumption].
  rewrite ?Z.add_0_l. split; [reflexivity|]. split; [reflexivity|].
  cbn [List.length]. lia.
Qed.
End SeenCounterEviction.

(** ** What the flush leaves in the queue and in the seen counter *)

Lemma gtb_false_le (a b : Z) : (a >? b) = false -> a <= b.
Proof. rewrite Z.gtb_ltb. apply Z.ltb_ge. Qed.

Lemma length_remove_found {V : Type} (k : string) (v : V) (d : OD.t V) :
  OD.get k d = Some v -> List.length (OD.remove k d) = Nat.pred (List.length d).
Proof.
  induction d as [|[k' v'] d IH]; simpl; [discriminate|].
  destruct (String.eqb k k'); simpl; [reflexivity|].
  intros H. rewrite (IH H). destruct d; [discriminate|reflexivity].
Qed.

Section FrameRules.
Context {World : Type} {os : OS World}.
Context {X : Type} (f : engine World -> X).

Lemma keeps_ret {A} (a : A) : keeps f (ret a).
Proof. intros st. reflexivity. Qed.

Lemma keeps_raise {A} (e : exn) : keeps f (raise e : M World A).
Proof. intros st. reflexivity. Qed.

Lemma keeps_get_state : keeps f get_state.
Proof. intros st. reflexivity. Qed.

Lemma keeps_observe {A} (g : World -> result A) : keeps f (observe g).
Proof. intros st. reflexivity. Qed.

Lemma keeps_bind {A B} (m : M World A) (k : A -> M World B) :
  keeps f m -> (forall a, keeps f (k a)) -> keeps f (bind m k).
Proof.
  intros Hm Hk st. unfold bind. specialize (Hm st).
  destruct (m st) as [st' [a|e]]; simpl in *; [|exact Hm].
  rewrite Hk. exact Hm.
Qed.

Lemma keeps_catch {A} (m : M World A) (handler : exn -> M World A) :
  keeps f m -> (forall e, keeps f (handler e)) -> keeps f (catch m handler).
Proof.
  intros Hm Hh st. unfold catch. specialize (Hm st).
  destruct (m st) as [st' [a|e]]; simpl in *; [exact Hm|].
  rewrite Hh. exact Hm.
Qed.

Lemma keeps_post {A} (m : M World A) (x : X) :
  keeps f m ->
  post m (fun st => f st = x) (fun _ st => f st = x) (fun st => f st = x).
Proof.
  intros Hm st Hst. specialize (Hm st).
  destruct (m st) as [st' [a|e]]; simpl in *; congruence.
Qed.
End FrameRules.

(** Steps of the engine that are a single update of the state. *)
Ltac keeps_step :=
  let st := fresh "st" in
  intros st;
  unfold syscall, seen_count, seen_pop, SeenCounter.count, SeenCounter.pop,
    add_consumption, set_cache, set_deferred, log;
  simpl;
  repeat match goal with
         | |- context [match ?x with _ => _ end] => destruct x; simpl
         end;
  reflexivity.

Ltac keeps_auto :=
  repeat first
    [ apply keeps_ret
    | apply keeps_raise
    | apply keeps_get_state
    | apply keeps_observe
    | apply keeps_bind; [|intros ?]
    | apply keeps_catch; [|intros ?]
    | match goal with
      | |- keeps _ (match ?x with _ => _ end) => destruct x
      | |- keeps _ (if ?x then _ else _) => destruct x
      end
    | keeps_step ].

Section FlushCounts.
Context {World : Type} {os : OS World}.
Variable args : cargs.
Variable cfg : organize.

(** [complete_intent] touches neither the queue nor the seen counter. *)
Lemma complete_intent_keeps_deferred done_files k intent :
  keeps deferred_intents
    (complete_intent args cfg done_files k intent : M World _).
Proof.
  unfold complete_intent, replace_source, put_source. keeps_auto.
Qed.

Lemma complete_intent_keeps_seen done_files k intent :
  keeps seen_counter (complete_intent args cfg done_files k intent : M World _).
Proof.
  unfold complete_intent, replace_source, put_source. keeps_auto.
Qed.

Lemma complete_intent_keeps_queues done_files k intent (st : engine World) :
  deferred_intents (fst (complete_intent args cfg done_files k intent st))
  = deferred_intents st
  /\ seen_counter (fst (complete_intent args cfg done_files k intent st))
     = seen_counter st.
Proof.
  split; [apply complete_intent_keeps_deferred | apply complete_intent_keeps_seen].
Qed.

Lemma complete_intent_counted done_files k intent n nd :
  post (complete_intent args cfg done_files k intent)
    (counted n nd) (fun _ => counted n nd) (fun _ => True).
Proof.
  intros st [Hs Hd].
  pose proof (complete_intent_keeps_queues done_files k intent st) as [H1 H2].
  destruct (complete_intent args cfg done_files k intent st) as [st' [a|e]];
    simpl in *; [|exact I].
  split; congruence.
Qed.

Lemma flush_seen_counted max_memory_ num_seen :
  forall num_deferred done_files,
    post (flush_seen args cfg max_memory_ num_seen num_deferred done_files)
      (counted num_seen num_deferred)
      (fun r st =>
         List.length (deferred_intents st) = fst r
         /\ Z.of_nat (List.length (seen_counter st)) <= Z.max 0 (max_seen args))
      (fun _ => True).
Proof.
  induction num_seen as [|n IH]; intros num_deferred done_files.
  - apply post_ret. intros st [Hs Hd]. simpl. rewrite Hs. split; [exact Hd|lia].
  - cbn [flush_seen]. apply post_get_state. intros s.
    destruct ((Z.of_nat (S n) >? max_seen args) || (consumption s >? max_memory_))
      eqn:Hcond.
    + eapply post_bind with (Q := fun _ => counted n num_deferred).
      { intros st [_ [Hs Hd]]. unfold seen_pop, SeenCounter.pop. simpl.
        destruct (seen_counter st) as [|[k c] rest]; simpl in *; [exact I|].
        split; simpl; [now injection Hs | exact Hd]. }
      intros kv. apply post_get_state. intros s1.
      destruct (OD.get (fst kv) (deferred_intents s1)) eqn:Hget.
      * eapply post_bind with (Q := fun _ => counted n (Nat.pred num_deferred)).
        { intros st [-> [Hs Hd]]. simpl. split; [exact Hs|]. simpl.
          now rewrite (length_remove_found _ _ _ Hget), Hd. }
        intros ?. eapply post_bind; [apply complete_intent_counted|].
        intros done'. apply IH.
      * apply post_forget, IH.
    + apply post_ret. intros st [_ [Hs Hd]]. simpl.
      apply orb_false_iff in Hcond. destruct Hcond as [Hc _].
      apply gtb_false_le in Hc. rewrite Hs. split; [exact Hd|]. lia.
Qed.

Lemma flush_deferred_counted max_deferred_ max_memory_ num_deferred seen :
  forall done_files,
    post (flush_deferred args cfg max_deferred_ max_memory_ num_deferred done_files)
      (fun st => List.length (deferred_intents st) = num_deferred
                 /\ seen_counter st = seen)
      (fun _ st =>
         Z.of_nat (List.length (deferred_intents st)) <= Z.max 0 max_deferred_
         /\ seen_counter st = seen)
      (fun _ => True).
Proof.
  induction num_deferred as [|n IH]; intros done_files.
  - apply post_ret. intros st [Hd Hs]. rewrite Hd. split; [simpl; lia|exact Hs].
  - cbn [flush_deferred]. apply post_get_state. intros s.
    destruct ((Z.of_nat (S n) >? max_deferred_) || (consumption s >? max_memory_))
      eqn:Hcond.
    + destruct (OD.popitem_first (deferred_intents s)) as [[[k intent] rest]|]
        eqn:Hpop.
      * eapply post_bind
          with (Q := fun _ st => List.length (deferred_intents st) = n
                                 /\ seen_counter st = seen).
        { intros st [-> [Hd Hseen]]. simpl.
          destruct (deferred_intents s) as [|kv d]; [discriminate|].
          simpl in Hpop, Hd. inversion Hpop; subst. split; [lia|reflexivity]. }
        intros ?.
        eapply post_bind
          with (Q := fun _ st => List.length (deferred_intents st) = n
                                 /\ seen_counter st = seen).
        { intros st [Hd Hs].
          pose proof (complete_intent_keeps_queues done_files k intent st)
            as [H1 H2].
          destruct (complete_intent args cfg done_files k intent st)
            as [st' [done1|e]]; simpl in *; [|exact I].
          split; congruence. }
        intros done'. apply IH.
      * apply post_raise. auto.
    + apply post_ret. intros st [_ [Hd Hs]].
      apply orb_false_iff in Hcond. destruct Hcond as [Hc _].
      apply gtb_false_le in Hc. rewrite Hd. split; [lia|exact Hs].
Qed.

Lemma flush_cache_keeps_deferred max_memory_ num_cached :
  keeps deferred_intents (flush_cache args max_memory_ num_cached : M World _).
Proof.
  induction num_cached as [|n IH]; cbn [flush_cache]; keeps_auto; exact IH.
Qed.

Lemma flush_cache_keeps_seen max_memory_ num_cached :
  keeps seen_counter (flush_cache args max_memory_ num_cached : M World _).
Proof.
  induction num_cached as [|n IH]; cbn [flush_cache]; keeps_auto; exact IH.
Qed.

Lemma report_keeps_deferred t files :
  keeps deferred_intents (report t files : M World _).
Proof. induction files as [|p rest IH]; cbn [report]; keeps_auto; exact IH. Qed.

Lemma report_keeps_seen t files :
  keeps seen_counter (report t files : M World _).
Proof. induction files as [|p rest IH]; cbn [report]; keeps_auto; exact IH. Qed.


Lemma post_at {A} (m : M World A) (s : engine World) (P : engine World -> Prop)
    Q E :
  (P s -> post m (fun st => st = s) Q E) ->
  post m (fun st => st = s /\ P st) Q E.
Proof. intros H st [-> HP]. now apply H. Qed.

Lemma keeps_both {A X Y} (f : engine World -> X) (g : engine World -> Y)
    (m : M World A) (P : X -> Y -> Prop) :
  keeps f m -> keeps g m ->
  post m (fun st => P (f st) (g st)) (fun _ st => P (f st) (g st))
    (fun _ => True).
Proof.
  intros Hf Hg st HP. specialize (Hf st). specialize (Hg st).
  destruct (m st) as [st' [a|e]]; simpl in *; [|exact I].
  now rewrite Hf, Hg.
Qed.

Lemma flush_updates_counted final :
  post (flush_updates args cfg final : M World _)
    (fun _ => True)
    (fun _ st =>
       Z.of_nat (List.length (deferred_intents st)) <= Z.max 0 (queue_bound args final)
       /\ Z.of_nat (List.length (seen_counter st)) <= Z.max 0 (max_seen args))
    (fun _ => True).
Proof.
  unfold flush_updates. apply post_get_state. intros s.
  set (maxd := if negb final then max_deferred args else 0).
  assert (Hmaxd : maxd <= queue_bound args final)
    by (unfold maxd, queue_bound; destruct final; simpl; lia).
  match goal with |- post (if ?b then _ else _) _ _ _ => destruct b eqn:Hcond end.
  { apply post_ret. intros st [-> _].
    apply andb_true_iff in Hcond. destruct Hcond as [Hcond _].
    apply andb_true_iff in Hcond. destruct Hcond as [Hcond Hs].
    apply andb_true_iff in Hcond. destruct Hcond as [Hd _].
    apply Z.leb_le in Hd, Hs. fold maxd in Hd. lia. }
  eapply post_bind.
  { eapply post_weaken;
      [ apply flush_seen_counted
      | intros st [-> _]; split; reflexivity
      | intros a st H; exact H
      | auto ]. }
  intros r. apply post_get_state. intros s1. apply post_at.
  intros [Hd Hs].
  match goal with
  | |- post (bind (flush_deferred _ _ ?md _ _ _) _) _ _ _ => set (maxd1 := md)
  end.
  assert (Hmaxd1 : maxd1 <= queue_bound args final).
  { unfold maxd1. fold maxd.
    match goal with |- (if ?b then _ else _) <= _ => destruct b eqn:Hb end;
      [|exact Hmaxd].
    apply andb_true_iff in Hb. destruct Hb as [Hb _].
    apply andb_true_iff in Hb. destruct Hb as [Hb _].
    destruct final; [discriminate|]. unfold maxd, queue_bound. simpl. lia. }
  eapply post_bind.
  { eapply post_weaken;
      [ apply (flush_deferred_counted maxd1 _ (fst r) (seen_counter s1))
      | intros st ->; split; [exact Hd|reflexivity]
      | intros a st H; exact H
      | auto ]. }
  intros done_files.
  eapply post_weaken;
    [apply (keeps_both deferred_intents seen_counter _
              (fun d s => Z.of_nat (List.length d) <= Z.max 0 maxd1
                          /\ s = seen_counter s1))| | |].
  - keeps_auto; first [apply report_keeps_deferred
                      | apply flush_cache_keeps_deferred].
  - keeps_auto; first [apply report_keeps_seen | apply flush_cache_keeps_seen].
  - auto.
  - intros ? st [H1 H2]. rewrite H2. split; [lia|exact Hs].
  - auto.
Qed.

(** X3.  The final flush executes every queued intent: when
    [flush_updates(True)] returns normally, [deferred_intents] is
    empty, whatever the budgets are. *)
Theorem final_flush_empties_queue (st st' : engine World) :
  flush_updates args cfg true st = (st', Ok tt) ->
  deferred_intents st' = [].
Proof.
  intros Hflush. pose proof (flush_updates_counted true st I) as H.
  rewrite Hflush in H. destruct H as [H _]. unfold queue_bound in H.
  simpl in H. destruct (deferred_intents st'); [reflexivity|simpl in H; lia].
Qed.

(** X4.  Budgets: when [flush_updates(False)] returns normally and
    [max_batched] is not negative, at most [max_deferred + max_batched]
    intents are left queued and at most [max_seen] keys are left in the
    seen counter (none if the bound is negative). *)
Theorem flush_keeps_budgets (st st' : engine World) :
  flush_updates args cfg false st = (st', Ok tt) ->
  0 <= max_batched args ->
  Z.of_nat (List.length (deferred_intents st'))
  <= Z.max 0 (max_deferred args + max_batched args)
  /\ Z.of_nat (List.length (seen_counter st')) <= Z.max 0 (max_seen args).
Proof.
  intros Hflush Hb. pose proof (flush_updates_counted false st I) as H.
  rewrite Hflush in H. unfold queue_bound in H. simpl in H. lia.
Qed.
End FlushCounts.


Lemma final_flush_empties_queue_witness :
  let st := after_first_emit example_args_no_cache moving_ numbered_path in
  List.length (deferred_intents st) = 1%nat
  /\ deferred_intents (fst (flush_updates example_args_no_cache moving_ true st))
     = [].
Proof.
  intros st. split; [reflexivity|].
  apply (final_flush_empties_queue example_args_no_cache moving_ st).
  vm_compute. reflexivity.
Defined.

Lemma flush_keeps_budgets_witness :
  let st1 := fst (emit example_args_tight copying unit numbered_path allow_all 3
                    example_a tt example_engine) in
  let st2 := fst (emit example_args_tight copying unit numbered_path allow_all 3
                    example_b tt st1) in
  List.length (deferred_intents st2) = 1%nat
  /\ Z.of_nat (List.length (deferred_intents
                              (fst (flush_updates example_args_tight copying
                                      false st2))))
     <= Z.max 0 (1 + 0)
  /\ Z.of_nat (List.length (seen_counter
                              (fst (flush_updates example_args_tight copying
                                      false st2))))
     <= Z.max 0 1.
Proof.
  intros st1 st2. split; [reflexivity|].
  apply (flush_keeps_budgets example_args_tight copying st2).
  - vm_compute. reflexivity.
  - simpl. lia.
Defined.


Section FinishDrains.
Context {World : Type} {os : OS World}.
Variable args : cargs.
Variable cfg : organize.

Lemma seen_suffix_keeps {A} (m : M World A) seen :
  keeps seen_counter m ->
  post m (seen_suffix seen) (fun _ => seen_suffix seen) (fun _ => True).
Proof.
  intros Hm st [ev Hev]. specialize (Hm st).
  destruct (m st) as [st' [a|e]]; simpl in *; [|exact I].
  exists ev. congruence.
Qed.

Lemma flush_seen_suffix seen max_memory_ num_seen :
  forall num_deferred done_files,
    post (flush_seen args cfg max_memory_ num_seen num_deferred done_files)
      (seen_suffix seen) (fun _ => seen_suffix seen) (fun _ => True).
Proof.
  induction num_seen as [|n IH]; intros num_deferred done_files.
  - apply post_ret. auto.
  - cbn [flush_seen]. apply post_get_state. intros s.
    match goal with |- post (if ?b then _ else _) _ _ _ => destruct b end.
    + eapply post_bind with (Q := fun _ => seen_suffix seen).
      { intros st [_ [ev Hev]]. unfold seen_pop, SeenCounter.pop. simpl.
        destruct (seen_counter st) as [|[k c] rest]; simpl; [exact I|].
        exists (ev ++ [(k, c)])%list. rewrite Hev, <- app_assoc. reflexivity. }
      intros kv. apply post_get_state. intros s1.
      destruct (OD.get (fst kv) (deferred_intents s1)).
      * eapply post_bind with (Q := fun _ => seen_suffix seen).
        { apply post_forget, seen_suffix_keeps. keeps_auto. }
        intros ?. eapply post_bind.
        { apply seen_suffix_keeps, complete_intent_keeps_seen. }
        intros done'. apply IH.
      * apply post_forget, IH.
    + apply post_ret. intros st [_ H]. exact H.
Qed.

Lemma flush_deferred_keeps_seen max_deferred_ max_memory_ num_deferred :
  forall done_files,
    keeps seen_counter
      (flush_deferred args cfg max_deferred_ max_memory_ num_deferred done_files
       : M World _).
Proof.
  induction num_deferred as [|n IH]; intros done_files; cbn [flush_deferred].
  - apply keeps_ret.
  - apply keeps_bind; [apply keeps_get_state|intros s].
    match goal with |- keeps _ (if ?b then _ else _) => destruct b end;
      [|apply keeps_ret].
    destruct (OD.popitem_first (deferred_intents s)) as [[[k intent] rest]|];
      [|apply keeps_raise].
    apply keeps_bind; [keeps_step|intros ?].
    apply keeps_bind; [apply complete_intent_keeps_seen|intros ?; apply IH].
Qed.

Lemma flush_updates_suffix final seen :
  post (flush_updates args cfg final : M World _)
    (fun st => seen_counter st = seen)
    (fun _ => seen_suffix seen) (fun _ => True).
Proof.
  unfold flush_updates. apply post_get_state. intros s.
  match goal with |- post (if ?b then _ else _) _ _ _ => destruct b end.
  { apply post_ret. intros st [_ H]. exists []. now rewrite H. }
  eapply post_bind.
  { eapply post_weaken;
      [ apply (flush_seen_suffix seen)
      | intros st [_ H]; exists []; now rewrite H
      | intros a st H; exact H
      | auto ]. }
  intros r. apply post_get_state. intros s1. apply post_forget.
  apply seen_suffix_keeps.
  keeps_auto; first [ apply flush_deferred_keeps_seen | apply report_keeps_seen
                    | apply flush_cache_keeps_seen ].
Qed.

(** X5.  What a normal return of [finish_updates] guarantees: its
    assertion passed, so the account is 0, the queue and the source
    cache are empty, and the seen counter is empty too when none of its
    keys is the empty string. *)
Theorem finish_updates_drains (st st' : engine World) :
  accounted st ->
  Forall (fun kc => fst kc <> "") (seen_counter st) ->
  finish_updates args cfg st = (st', Ok tt) ->
  consumption st' = 0
  /\ deferred_intents st' = []
  /\ source_cache st' = []
  /\ seen_counter st' = [].
Proof.
  intros Hacc Hkeys Hfin.
  destruct (finish_updates_passed args cfg st st' Hacc Hfin)
    as (Hz & Hd & Hc & Hs).
  repeat split; try assumption.
  assert (Hsuf : seen_suffix (seen_counter st) st').
  { pose proof (flush_updates_suffix true (seen_counter st) st eq_refl) as H.
    unfold finish_updates, bind, get_state in Hfin.
    destruct (flush_updates args cfg true st) as [st1 [[]|e]]; [|discriminate].
    destruct (consumption st1 =? 0); simpl in Hfin; [|discriminate].
    inversion Hfin; subst. exact H. }
  destruct Hsuf as [ev Hev]. rewrite Hev in Hkeys.
  apply Forall_app in Hkeys. destruct Hkeys as [_ Hkeys].
  destruct (seen_counter st') as [|[k c] rest]; [reflexivity|].
  exfalso. inversion Hkeys as [|? ? Hk _]; subst. simpl in Hk, Hs.
  pose proof (ODFacts.footprint_nonneg (fun _ : Z => 0) rest
                (fun _ => Z.le_refl 0)).
  assert (0 < len k).
  { unfold len. destruct k; [contradiction|]. simpl. lia. }
  lia.
Qed.
End FinishDrains.

Lemma finish_updates_drains_witness :
  let st := after_first_emit example_args moving_ numbered_path in
  let st' := fst (finish_updates example_args moving_ st) in
  List.length (deferred_intents st) = 1%nat
  /\ consumption st' = 0
  /\ deferred_intents st' = []
  /\ source_cache st' = []
  /\ seen_counter st' = [].
Proof.
  intros st st'. split; [reflexivity|].
  apply (finish_updates_drains example_args moving_ st st').
  - split; [reflexivity|].
    split; (constructor; [simpl; tauto | constructor]).
  - repeat constructor. discriminate.
  - vm_compute. reflexivity.
Defined.


(** ** What [emit] does to the world *)

Section EmitWorld.
Context {World : Type} {os : OS World}.
Variable args : cargs.
Variable cfg : organize.
Variable ReqresExpr : Type.
Variable format_path : ReqresExpr -> Z -> path.
Variable filters_allow : ReqresExpr -> result bool.

Lemma place_keeps_world ogprefix new_source rrexpr :
  keeps world (place cfg ReqresExpr format_path ogprefix new_source rrexpr
               : M World _).
Proof. unfold place, pop_source, pop_intent, put_intent, put_source. keeps_auto. Qed.

Lemma place_keeps_trace ogprefix new_source rrexpr :
  keeps trace (place cfg ReqresExpr format_path ogprefix new_source rrexpr
               : M World _).
Proof. unfold place, pop_source, pop_intent, put_intent, put_source. keeps_auto. Qed.

Lemma emit_turn_keeps {X} (f : engine World -> X) ogprefix new_source rrexpr prev :
  keeps f (place cfg ReqresExpr format_path ogprefix new_source rrexpr
           : M World _) ->
  keeps f (emit_turn cfg ReqresExpr format_path ogprefix new_source rrexpr prev
           : M World _).
Proof.
  intros Hplace. unfold emit_turn. apply keeps_bind; [exact Hplace|].
  intros [[d rel] k]. keeps_auto.
Qed.

Lemma emit_loop_keeps {X} (f : engine World -> X) fuel ogprefix rrexpr :
  (forall new_source,
      keeps f (place cfg ReqresExpr format_path ogprefix new_source rrexpr
               : M World _)) ->
  forall new_source prev,
    keeps f (emit_loop cfg ReqresExpr format_path fuel ogprefix new_source
               rrexpr prev : M World _).
Proof.
  intros Hplace. induction fuel as [|n IH]; intros new_source prev;
    cbn [emit_loop]; [apply keeps_raise|].
  apply keeps_bind; [apply emit_turn_keeps, Hplace|].
  intros [src [intent k|rel]]; cbn [snd fst]; [apply keeps_ret|apply IH].
Qed.

(** X6.  With [--lazy], [emit] defers everything: it only reads the
    file system (the [lstat], [stat] and file reads of [defer] and
    [update_from]) and leaves it as it is; it runs no intent, calls
    neither [dsync.sync()] nor [dsync.finish()] and writes nothing to
    stderr or to the error log; its only write is the destination to
    stdout when the record is a no-op and a terminator is set. *)
Theorem emit_lazy_defers (fuel : nat) (new_source : OrganizeSource)
    (rrexpr : ReqresExpr) (st : engine World) :
  lazy args = true ->
  let st' := fst (emit args cfg ReqresExpr format_path filters_allow fuel
                    new_source rrexpr st) in
  world st' = world st
  /\ exists calls,
       trace st' = (trace st ++ calls)%list
       /\ noop_report (terminator args) calls.
Proof.
  intros Hlazy. cbn zeta.
  pose proof (emit_loop_keeps world fuel (format_path rrexpr 0) rrexpr
                (fun s => place_keeps_world _ s rrexpr) new_source None st)
    as Hw.
  pose proof (emit_loop_keeps trace fuel (format_path rrexpr 0) rrexpr
                (fun s => place_keeps_trace _ s rrexpr) new_source None st)
    as Ht.
  assert (Hnone : forall s : engine World,
             world s = world st -> trace s = trace st ->
             world s = world st
             /\ exists calls, trace s = (trace st ++ calls)%list
                              /\ noop_report (terminator args) calls).
  { intros s Hs Hs'. split; [exact Hs|]. exists []. rewrite app_nil_r.
    split; [exact Hs'|now left]. }
  unfold emit. rewrite Hlazy. unfold bind, ret, log. cbn [negb].
  destruct (filters_allow rrexpr) as [[|]|e]; cbn [negb fst];
    try (now apply Hnone).
  destruct (emit_loop cfg ReqresExpr format_path fuel (format_path rrexpr 0)
              new_source rrexpr None st) as [st1 [[intent k]|e]];
    cbn [fst snd] in *; [|now apply Hnone].
  destruct intent as [i|]; [now apply Hnone|].
  destruct (terminator args) as [t|] eqn:Hterm; [|now apply Hnone].
  cbn [fst world trace]. split; [exact Hw|]. exists [EvStdout k t].
  rewrite Ht. split; [reflexivity|]. right. now exists k, t.
Qed.
End EmitWorld.

Lemma emit_lazy_defers_witness :
  let st' := after_first_emit example_args_lazy moving_ numbered_path in
  List.length (deferred_intents st') = 1%nat
  /\ world st' = world example_engine
  /\ exists calls,
       trace st' = (trace example_engine ++ calls)%list
       /\ noop_report (terminator example_args_lazy) calls.
Proof.
  intros st'. split; [reflexivity|].
  apply (emit_lazy_defers example_args_lazy moving_ unit numbered_path
           allow_all 3 example_a tt example_engine).
  reflexivity.
Defined.


(** ** Dry runs *)

Section DryRun.
Context {World : Type} {os : OS World}.
Variable args : cargs.
Variable cfg : organize.
Variable ReqresExpr : Type.
Variable format_path : ReqresExpr -> Z -> path.
Variable filters_allow : ReqresExpr -> result bool.
Hypothesis Hdry : dry_run args = true.

Lemma run_dry (intent : OrganizeIntent) (k : path) (w : World) :
  fst (run cfg intent k true w) = w.
Proof. unfold run. destruct (String.eqb _ _); reflexivity. Qed.

Lemma complete_intent_dry done_files k intent :
  keeps world (complete_intent args cfg done_files k intent : M World _).
Proof.
  unfold complete_intent. rewrite Hdry.
  apply keeps_bind; [keeps_step|intros ?].
  apply keeps_bind; [keeps_auto|intros ?].
  apply keeps_bind; [keeps_step|intros ?].
  apply keeps_catch.
  - apply keeps_bind.
    + intros st. unfold syscall.
      pose proof (run_dry intent k (world st)) as Hrun.
      destruct (run cfg intent k true (world st)) as [w r]. exact Hrun.
    + intros [updated|]; unfold replace_source, put_source; keeps_auto.
  - intros e. keeps_auto.
Qed.

Lemma flush_seen_dry max_memory_ num_seen :
  forall num_deferred done_files,
    keeps world (flush_seen args cfg max_memory_ num_seen num_deferred done_files
                 : M World _).
Proof.
  induction num_seen as [|n IH]; intros num_deferred done_files;
    cbn [flush_seen]; [apply keeps_ret|].
  apply keeps_bind; [apply keeps_get_state|intros s].
  match goal with |- keeps _ (if ?b then _ else _) => destruct b end;
    [|apply keeps_ret].
  apply keeps_bind; [keeps_step|intros kv].
  apply keeps_bind; [apply keeps_get_state|intros s1].
  destruct (OD.get (fst kv) (deferred_intents s1)); [|apply IH].
  apply keeps_bind; [keeps_step|intros ?].
  apply keeps_bind; [apply complete_intent_dry|intros ?; apply IH].
Qed.

Lemma flush_deferred_dry max_deferred_ max_memory_ num_deferred :
  forall done_files,
    keeps world
      (flush_deferred args cfg max_deferred_ max_memory_ num_deferred done_files
       : M World _).
Proof.
  induction num_deferred as [|n IH]; intros done_files; cbn [flush_deferred];
    [apply keeps_ret|].
  apply keeps_bind; [apply keeps_get_state|intros s].
  match goal with |- keeps _ (if ?b then _ else _) => destruct b end;
    [|apply keeps_ret].
  destruct (OD.popitem_first (deferred_intents s)) as [[[k intent] rest]|];
    [|apply keeps_raise].
  apply keeps_bind; [keeps_step|intros ?].
  apply keeps_bind; [apply complete_intent_dry|intros ?; apply IH].
Qed.

Lemma flush_cache_keeps_world max_memory_ num_cached :
  keeps world (flush_cache args max_memory_ num_cached : M World _).
Proof.
  induction num_cached as [|n IH]; cbn [flush_cache]; keeps_auto; exact IH.
Qed.

Lemma report_keeps_world t files :
  keeps world (report t files : M World _).
Proof. induction files as [|p rest IH]; cbn [report]; keeps_auto; exact IH. Qed.

(** A step that keeps the world keeps it in one of the three worlds. *)
Lemma synced_only_keeps {A} (m : M World A) (w w1 : World) :
  keeps world m ->
  synced_only w (mkengine 0 [] [] [] w1 []) ->
  post m (fun st => world st = w1) (fun _ st => world st = w1) (synced_only w).
Proof.
  intros Hm Hw1 st Hst. specialize (Hm st).
  destruct (m st) as [st' [a|e]]; cbn [fst] in Hm; [congruence|].
  unfold synced_only in *. cbn [world] in Hw1. rewrite Hm, Hst. exact Hw1.
Qed.

Lemma synced_only_syscall (f : World -> World * result unit) (w w1 : World) :
  synced_only w (mkengine 0 [] [] [] (fst (f w1)) []) ->
  post (syscall f) (fun st => world st = w1)
    (fun _ st => world st = fst (f w1)) (synced_only w).
Proof.
  intros Hw st Hst. unfold syscall. rewrite Hst.
  destruct (f w1) as [w2 [a|e]]; cbn [fst world] in *; [reflexivity|].
  unfold synced_only in *. exact Hw.
Qed.

Lemma flush_updates_dry final (w : World) :
  post (flush_updates args cfg final : M World _)
    (fun st => world st = w) (fun _ => synced_only w) (synced_only w).
Proof.
  assert (H0 : synced_only w (mkengine 0 [] [] [] w [])) by now left.
  assert (H1 : synced_only w (mkengine 0 [] [] [] (fst (dsync_sync w)) []))
    by (right; now left).
  assert (H2 : synced_only w
                 (mkengine 0 [] [] []
                    (fst (dsync_finish (fst (dsync_sync w)))) []))
    by (right; now right).
  unfold flush_updates. apply post_get_state. intros s.
  match goal with |- post (if ?b then _ else _) _ _ _ => destruct b end.
  { apply post_ret. intros st [_ Hst]. now left. }
  apply post_forget.
  eapply post_bind; [apply synced_only_keeps; [apply flush_seen_dry|exact H0]|].
  intros r. apply post_get_state. intros s1. apply post_forget.
  eapply post_bind;
    [apply synced_only_keeps; [apply flush_deferred_dry|exact H0]|].
  intros done_files.
  eapply post_bind; [apply synced_only_keeps; [keeps_step|exact H0]|].
  intros ?.
  eapply post_bind; [apply synced_only_syscall; exact H1|].
  intros ?.
  eapply post_bind with (Q := fun _ st => world st = fst (dsync_sync w)).
  { apply synced_only_keeps; [|exact H1].
    destruct done_files as [files|]; destruct (terminator args) as [t|];
      try apply keeps_ret.
    apply keeps_bind; [apply report_keeps_world|intros ?]. keeps_auto. }
  intros ?.
  eapply post_bind; [apply synced_only_keeps; [keeps_step|exact H1]|].
  intros ?.
  eapply post_bind; [apply synced_only_syscall; exact H2|].
  intros ?.
  eapply post_weaken;
    [ apply synced_only_keeps; [apply flush_cache_keeps_world|exact H2]
    | auto
    | intros ? st' Hst'; right; right; exact Hst'
    | auto ].
Qed.

Lemma emit_dry (fuel : nat) (new_source : OrganizeSource)
    (rrexpr : ReqresExpr) (st : engine World) :
  synced_only (world st)
    (fst (emit args cfg ReqresExpr format_path filters_allow fuel new_source
            rrexpr st)).
Proof.
  pose proof (emit_loop_keeps cfg ReqresExpr format_path world fuel
                (format_path rrexpr 0) rrexpr
                (fun s => place_keeps_world cfg ReqresExpr format_path _ s
                            rrexpr) new_source None st) as Hw.
  unfold emit. unfold bind at 1.
  destruct (filters_allow rrexpr) as [[|]|e]; cbn [negb fst];
    try (now left).
  unfold bind at 1.
  destruct (emit_loop cfg ReqresExpr format_path fuel (format_path rrexpr 0)
              new_source rrexpr None st) as [st1 [r|e]];
    cbn [fst] in Hw; [|left; exact Hw].
  unfold bind at 1.
  assert (Hst2 : forall st2 : engine World, world st2 = world st ->
             synced_only (world st)
               (fst ((if negb (lazy args) then flush_updates args cfg false
                      else ret tt) st2))).
  { intros st2 Hst2. destruct (lazy args); cbn [negb].
    - left. exact Hst2.
    - pose proof (flush_updates_dry false (world st) st2 Hst2) as H.
      destruct (flush_updates args cfg false st2) as [st3 [[]|e]]; exact H. }
  destruct (fst r) as [i|]; [apply Hst2; exact Hw|].
  destruct (terminator args) as [t|]; apply Hst2; exact Hw.
Qed.

Lemma finish_updates_dry (st : engine World) :
  synced_only (world st) (fst (finish_updates args cfg st)).
Proof.
  pose proof (flush_updates_dry true (world st) st eq_refl) as H.
  unfold finish_updates, bind, get_state.
  destruct (flush_updates args cfg true st) as [st1 [[]|e]]; [|exact H].
  destruct (consumption st1 =? 0); exact H.
Qed.

(** X7.  A dry run executes nothing: with [--dry-run], [emit] and
    [finish_updates] never call [makedirs] or the action; whatever they
    return or raise, the world is the one they started in, or that
    world after [dsync.sync()], or after [dsync.sync()] and
    [dsync.finish()]. *)
Theorem dry_run_executes_nothing (fuel : nat) (new_source : OrganizeSource)
    (rrexpr : ReqresExpr) (st : engine World) :
  synced_only (world st)
    (fst (emit args cfg ReqresExpr format_path filters_allow fuel new_source
            rrexpr st))
  /\ synced_only (world st) (fst (finish_updates args cfg st)).
Proof. split; [apply emit_dry|apply finish_updates_dry]. Qed.
End DryRun.

Lemma dry_run_executes_nothing_witness :
  let st := fst (emit example_args_dry moving_ unit numbered_path allow_all 3
                   example_a tt example_engine) in
  trace st = [EvStderr "dry-run: (not) moving: `/src/a.wrr` -> `/dst/x.0.wrr`";
              EvRun "/dst/x.0.wrr"; EvSync; EvFinish]
  /\ synced_only (world example_engine) st
  /\ synced_only (world example_engine)
       (fst (finish_updates example_args_dry moving_ example_engine)).
Proof.
  intros st. split; [vm_compute; reflexivity|].
  apply (dry_run_executes_nothing example_args_dry moving_ unit numbered_path
           allow_all eq_refl 3 example_a tt example_engine).
Defined.


(** ** Reporting is off without a terminator *)

Lemma flush_calls_quiet (complete : bool) (calls : list event) :
  flush_calls None complete calls ->
  Forall (fun e => ~ stdout_event e) calls.
Proof.
  assert (Hexec : forall pre, Forall exec_event pre ->
                    Forall (fun e => ~ stdout_event e) pre).
  { intros pre Hpre. eapply Forall_impl; [|exact Hpre].
    intros [] He Hs; simpl in *; contradiction. }
  intros H. inversion H; subst.
  - constructor.
  - auto.
  - apply Forall_app. split; [auto|]. repeat constructor. simpl. tauto.
  - apply Forall_app. split; [auto|]. repeat constructor; simpl; tauto.
Qed.

Section NoTerminator.
Context {World : Type} {os : OS World}.
Variable args : cargs.
Variable cfg : organize.
Variable ReqresExpr : Type.
Variable format_path : ReqresExpr -> Z -> path.
Variable filters_allow : ReqresExpr -> result bool.
Hypothesis Hterm : terminator args = None.

Lemma flush_updates_quiet final (st : engine World) :
  exists calls,
    trace (fst (flush_updates args cfg final st)) = (trace st ++ calls)%list
    /\ Forall (fun e => ~ stdout_event e) calls.
Proof.
  pose proof (flush_updates_calls args cfg (trace st) final st eq_refl) as H.
  rewrite Hterm in H.
  destruct (flush_updates args cfg final st) as [st' [[]|e]];
    destruct H as (calls & Ht & Hc); exists calls;
    (split; [exact Ht|]); eapply flush_calls_quiet; exact Hc.
Qed.

Lemma no_calls (st s : engine World) :
  trace s = trace st ->
  exists calls, trace s = (trace st ++ calls)%list
                /\ Forall (fun e => ~ stdout_event e) calls.
Proof.
  intros Hs. exists []. rewrite app_nil_r. split; [exact Hs|constructor].
Qed.

Lemma emit_quiet (fuel : nat) (new_source : OrganizeSource)
    (rrexpr : ReqresExpr) (st : engine World) :
  exists calls,
    trace (fst (emit args cfg ReqresExpr format_path filters_allow fuel
                  new_source rrexpr st)) = (trace st ++ calls)%list
    /\ Forall (fun e => ~ stdout_event e) calls.
Proof.
  pose proof (no_calls st) as Hnone.
  pose proof (emit_loop_keeps cfg ReqresExpr format_path trace fuel
                (format_path rrexpr 0) rrexpr
                (fun s => place_keeps_trace cfg ReqresExpr format_path _ s
                            rrexpr) new_source None st) as Ht.
  unfold emit. rewrite Hterm. unfold bind at 1.
  destruct (filters_allow rrexpr) as [[|]|e]; cbn [negb fst];
    try (now apply Hnone).
  unfold bind at 1.
  destruct (emit_loop cfg ReqresExpr format_path fuel (format_path rrexpr 0)
              new_source rrexpr None st) as [st1 [r|e]];
    cbn [fst] in Ht; [|now apply Hnone].
  assert (Hsame : (match fst r with
                   | Some _ => ret tt
                   | None => ret tt
                   end : M World unit) = ret tt) by now destruct (fst r).
  rewrite Hsame. unfold bind at 1, ret at 1.
  destruct (lazy args); cbn [negb]; [now apply Hnone|].
  rewrite <- Ht. apply flush_updates_quiet.
Qed.

Lemma finish_updates_quiet (st : engine World) :
  exists calls,
    trace (fst (finish_updates args cfg st)) = (trace st ++ calls)%list
    /\ Forall (fun e => ~ stdout_event e) calls.
Proof.
  destruct (flush_updates_quiet true st) as (calls & Ht & Hc).
  exists calls. split; [|exact Hc]. rewrite <- Ht.
  unfold finish_updates, bind, get_state.
  destruct (flush_updates args cfg true st) as [st1 [[]|e]]; [|reflexivity].
  destruct (consumption st1 =? 0); reflexivity.
Qed.

(** X8.  Without a terminator nothing is reported: when
    [cargs.terminator] is [None], neither [emit] nor [finish_updates]
    writes to stdout, flushes it or fsyncs it, whatever they return or
    raise. *)
Theorem no_terminator_no_report (fuel : nat) (new_source : OrganizeSource)
    (rrexpr : ReqresExpr) (st : engine World) :
  (exists calls,
      trace (fst (emit args cfg ReqresExpr format_path filters_allow fuel
                    new_source rrexpr st)) = (trace st ++ calls)%list
      /\ Forall (fun e => ~ stdout_event e) calls)
  /\ (exists calls,
         trace (fst (finish_updates args cfg st)) = (trace st ++ calls)%list
         /\ Forall (fun e => ~ stdout_event e) calls).
Proof. split; [apply emit_quiet|apply finish_updates_quiet]. Qed.
End NoTerminator.

Lemma no_terminator_no_report_witness :
  let st := fst (emit example_args_dry moving_ unit numbered_path allow_all 3
                   example_a tt example_engine) in
  List.length (trace st) = 4%nat
  /\ (exists calls,
         trace st = (trace example_engine ++ calls)%list
         /\ Forall (fun e => ~ stdout_event e) calls)
  /\ (exists calls,
         trace (fst (finish_updates example_args_dry moving_ example_engine))
         = (trace example_engine ++ calls)%list
         /\ Forall (fun e => ~ stdout_event e) calls).
Proof.
  intros st. split; [reflexivity|].
  apply (no_terminator_no_report example_args_dry moving_ unit numbered_path
           allow_all eq_refl 3 example_a tt example_engine).
Defined.


(** ** [defer] on a destination that is a file *)

Section DeferExisting.
Context {World : Type} {os : OS World}.

Lemma make_organize_moving (a : action) (u : bool) (cfg : organize) :
  make_organize a u = Ok cfg ->
  moving cfg = match a with Move => true | _ => false end.
Proof. destruct a, u; simpl; intros [= <-]; reflexivity. Qed.

(** X9.  The data actions never queue an overwrite of other data: when
    the destination is an existing file that is not a symlink, is
    another inode than the new source, and its bytes differ from the
    new source's (or the new source is gone), [defer] of [--move],
    [--copy] and [--hardlink] returns no intent and [permitted =
    False], with the destination as the source to cache. *)
Theorem defer_never_overwrites (a : action) (u : bool) (cfg : organize)
    (w : World) (k : path) (new_source : OrganizeSource)
    (out_lstat : stat_result) (disk_data : bytes) :
  make_organize a u = Ok cfg -> a <> Symlink ->
  abs_path new_source <> k ->
  lstat w k = Ok out_lstat -> st_islnk out_lstat = false ->
  samestat out_lstat (stat_res new_source) = false ->
  read_file w k = Ok disk_data ->
  (exists d, read_file w (abs_path new_source) = Ok d /\ d <> disk_data)
  \/ read_file w (abs_path new_source) = Raise (OSError ENOENT) ->
  defer cfg w k None new_source
  = Ok (mkdefer None (Some (mksource k out_lstat None)) false new_source).
Proof.
  intros Hcfg Hne Hself Hlstat Hlnk Hss Hread Hnew.
  destruct (make_organize_data_action a u cfg Hcfg Hne)
    as (_ & _ & Hup & Hcd & Hsl).
  apply String.eqb_neq in Hself.
  unfold defer. rewrite Hself, Hlstat, Hlnk, Hsl.
  unfold defer_update, update_from, check_same_data. rewrite Hsl, Hcd.
  cbn [source abs_path stat_res andb]. rewrite Hss, Hread.
  assert (Hfce : file_content_equals w (abs_path new_source) disk_data
                 = Ok false).
  { unfold file_content_equals.
    destruct Hnew as [(d & Hd & Hdiff)| ->]; [|reflexivity].
    rewrite Hd. f_equal. unfold fileobj_content_equals.
    now apply String.eqb_neq. }
  rewrite Hfce, Hup. cbn [negb uf_permitted uf_adopted uf_source uf_self
                          uf_new source].
  rewrite andb_false_r. reflexivity.
Qed.

(** X10.  The same destination holding the new source's data (the same
    inode, or the same bytes): [--copy] and [--hardlink] have nothing
    to do and return no intent with [permitted = True]; [--move]
    queues a replacement of the destination by the new source, so that
    the source file still goes away. *)
Theorem defer_same_content (a : action) (u : bool) (cfg : organize)
    (w : World) (k : path) (new_source : OrganizeSource)
    (out_lstat : stat_result) :
  make_organize a u = Ok cfg -> a <> Symlink ->
  abs_path new_source <> k ->
  lstat w k = Ok out_lstat -> st_islnk out_lstat = false ->
  samestat out_lstat (stat_res new_source) = true
  \/ (exists d, read_file w k = Ok d
                /\ read_file w (abs_path new_source) = Ok d) ->
  defer cfg w k None new_source
  = Ok (match a with
        | Move => mkdefer (Some (mkintent new_source true)) (Some new_source)
                    true new_source
        | _ => mkdefer None (Some (mksource k out_lstat None)) true new_source
        end).
Proof.
  intros Hcfg Hne Hself Hlstat Hlnk Hsame.
  destruct (make_organize_data_action a u cfg Hcfg Hne)
    as (_ & _ & Hup & Hcd & Hsl).
  pose proof (make_organize_moving a u cfg Hcfg) as Hmv.
  apply String.eqb_neq in Hself.
  unfold defer. rewrite Hself, Hlstat, Hlnk, Hsl.
  unfold defer_update.
  assert (Huf : update_from cfg w (mkintent (mksource k out_lstat None) true)
                  new_source
                = Ok (mkuf (mkintent (mksource k out_lstat None) true)
                        new_source false true)).
  { unfold update_from, check_same_data. rewrite Hsl, Hcd.
    cbn [source abs_path stat_res andb].
    destruct (samestat out_lstat (stat_res new_source)) eqn:Hss;
      [reflexivity|].
    destruct Hsame as [?|(d & Hk & Hn)]; [discriminate|].
    rewrite Hk. unfold file_content_equals, fileobj_content_equals.
    now rewrite Hn, String.eqb_refl. }
  rewrite Huf, Hmv. cbn [uf_permitted uf_adopted uf_new uf_source uf_self
                         source negb].
  destruct a; reflexivity.
Qed.
End DeferExisting.

Lemma defer_never_overwrites_witness :
  defer copying example_fs "/src/b.wrr" None example_a
  = Ok (mkdefer None (Some (mksource "/src/b.wrr" (mkstat false 1 11) None))
          false example_a).
Proof.
  apply (defer_never_overwrites Copy false copying example_fs "/src/b.wrr"
           example_a (mkstat false 1 11) "bbbbbb");
    try reflexivity; try discriminate.
  left. exists "aaaa". split; [reflexivity|discriminate].
Defined.

Lemma defer_same_content_witness :
  defer moving_ example_fs "/src/a-link.wrr" None example_a
  = Ok (mkdefer (Some (mkintent example_a true)) (Some example_a) true
          example_a).
Proof.
  apply (defer_same_content Move false moving_ example_fs "/src/a-link.wrr"
           example_a (mkstat false 1 10));
    try reflexivity; try discriminate.
  left. reflexivity.
Defined.


(** ** [--symlink] replaces symlinks only *)

Section SymlinkOnly.
Context {World : Type} {os : OS World}.

Lemma defer_update_exists (cfg : organize) (w : World)
    (old new_source : OrganizeSource) (d : defer_result) (i : OrganizeIntent) :
  defer_update cfg w old new_source = Ok d ->
  d_intent d = Some i -> exists_ i = true.
Proof.
  unfold defer_update.
  destruct (update_from cfg w (mkintent old true) new_source) as [r|e] eqn:Hr;
    [|discriminate].
  destruct (moving cfg && uf_permitted r);
    [intros [= <-] [= <-]; reflexivity|].
  destruct (negb (uf_adopted r)); intros [= <-]; [discriminate|].
  intros [= <-]. revert Hr. unfold update_from.
  destruct (symlinking cfg && _); [intros [= <-]; reflexivity|].
  destruct (check_same_data cfg w (mkintent old true) new_source)
    as [[|dd]|]; [intros [= <-]; reflexivity| |discriminate].
  destruct (negb (allow_updates cfg)); [intros [= <-]; reflexivity|].
  destruct (get_stime w (source (mkintent old true)) dd) as [[old' t_old]|];
    [|discriminate].
  destruct (get_stime w new_source None) as [[new' t_new]|]; [|discriminate].
  destruct (t_old <? t_new); intros [= <-]; reflexivity.
Qed.

(** X11.  With [--symlink], [defer] (no cached source) queues an
    intent only for a destination that does not exist, and then a
    creating one, or for a destination that is a symlink, and then a
    replacing one: a file or directory at the destination is never
    replaced by a symlink. *)
Theorem symlink_replaces_symlinks_only (cfg : organize) (w : World)
    (k : path) (new_source : OrganizeSource) (d : defer_result)
    (i : OrganizeIntent) :
  symlinking cfg = true ->
  defer cfg w k None new_source = Ok d ->
  d_intent d = Some i ->
  if exists_ i
  then exists out_lstat, lstat w k = Ok out_lstat /\ st_islnk out_lstat = true
  else lstat w k = Raise (OSError ENOENT).
Proof.
  intros Hsl. unfold defer. rewrite Hsl.
  destruct (String.eqb (abs_path new_source) k); [intros [= <-]; discriminate|].
  destruct (lstat w k) as [out_lstat|e].
  - destruct (st_islnk out_lstat) eqn:Hlnk; [|discriminate].
    destruct (stat w k) as [out_stat|e].
    + cbn [negb]. intros Hd Hi.
      rewrite (defer_update_exists cfg w _ _ d i Hd Hi). eauto.
    + destruct e as [?|?|[| | | |?]| | |]; try discriminate.
      intros [= <-] [= <-]. cbn [exists_]. eauto.
  - destruct e as [?|?|[| | | |?]| | |]; try discriminate.
    intros [= <-] [= <-]. reflexivity.
Qed.
End SymlinkOnly.

Lemma symlink_replaces_symlinks_only_witness :
  defer (symlinking_ false) example_fs "/dst/dangling.wrr" None example_b
  = Ok (mkdefer (Some (mkintent example_b true)) (Some example_b) true
          example_b)
  /\ exists out_lstat,
       lstat example_fs "/dst/dangling.wrr" = Ok out_lstat
       /\ st_islnk out_lstat = true.
Proof.
  split; [reflexivity|].
  apply (symlink_replaces_symlinks_only (symlinking_ false) example_fs
           "/dst/dangling.wrr" example_b
           (mkdefer (Some (mkintent example_b true)) (Some example_b) true
              example_b)
           (mkintent example_b true)); reflexivity.
Defined.


(** ** Queued intents have their sources elsewhere *)

Lemma Forall_od_remove {V : Type} (P : string * V -> Prop) (k : string)
    (d : OD.t V) :
  Forall P d -> Forall P (OD.remove k d).
Proof.
  induction 1 as [|[k' v'] d' Hkv Hd IH]; simpl; [constructor|].
  destruct (String.eqb k k'); [exact Hd|now constructor].
Qed.

Lemma Forall_od_set {V : Type} (P : string * V -> Prop) (k : string) (v : V)
    (d : OD.t V) :
  Forall P d -> P (k, v) -> Forall P (OD.set k v d).
Proof.
  intros Hd Hkv. induction Hd as [|[k' v'] d' Hkv' Hd IH]; simpl.
  - now repeat constructor.
  - destruct (String.eqb k k') eqn:Hk; [|now constructor].
    apply String.eqb_eq in Hk. subst k'. now constructor.
Qed.

Lemma od_get_in {V : Type} (k : string) (v : V) (d : OD.t V) :
  OD.get k d = Some v -> In (k, v) d.
Proof.
  induction d as [|[k' v'] d' IH]; simpl; [discriminate|].
  destruct (String.eqb k k') eqn:Hk.
  - apply String.eqb_eq in Hk. intros [= ->]. left. now subst.
  - intros H. right. auto.
Qed.

Section SourcesElsewhere.
Context {World : Type} {os : OS World}.
Variable args : cargs.
Variable cfg : organize.
Variable ReqresExpr : Type.
Variable format_path : ReqresExpr -> Z -> path.
Variable filters_allow : ReqresExpr -> result bool.

Lemma get_stime_path (w : World) (s s' : OrganizeSource) (data : option bytes)
    (t : Z) :
  get_stime w s data = Ok (s', t) -> abs_path s' = abs_path s.
Proof.
  unfold get_stime. destruct (stime_maybe s); [now intros [= <- _]|].
  destruct data as [d|];
    [destruct (wrr_load_stime d (abs_path s))
    |destruct (wrr_loadf_stime w (abs_path s))];
    try discriminate; now intros [= <- _].
Qed.

(** What [update_from] returns as the intent's source and as the new
    source: the new source's path stays; the intent's source is the old
    one, or the new one where updates are allowed. *)
Lemma update_from_paths (w : World) (self : OrganizeIntent)
    (new_source : OrganizeSource) (r : uf_result) :
  update_from cfg w self new_source = Ok r ->
  abs_path (uf_new r) = abs_path new_source
  /\ (abs_path (source (uf_self r)) = abs_path (source self)
      \/ allow_updates cfg = true
         /\ abs_path (source (uf_self r)) = abs_path new_source)
  /\ (uf_adopted r = true ->
      abs_path (source (uf_self r)) = abs_path new_source).
Proof.
  unfold update_from.
  destruct (symlinking cfg && _);
    [intros [= <-]; cbn; repeat split; auto; discriminate|].
  destruct (check_same_data cfg w self new_source) as [[|dd]|];
    [intros [= <-]; cbn; repeat split; auto; discriminate| |discriminate].
  destruct (allow_updates cfg); cbn [negb];
    [|intros [= <-]; cbn; repeat split; auto; discriminate].
  destruct (get_stime w (source self) dd) as [[old' t_old]|] eqn:Hold;
    [|discriminate].
  destruct (get_stime w new_source None) as [[new' t_new]|] eqn:Hnew;
    [|discriminate].
  apply get_stime_path in Hold, Hnew.
  destruct (t_old <? t_new); intros [= <-]; cbn; repeat split; auto;
    discriminate.
Qed.

Lemma defer_update_elsewhere (w : World) (k : path)
    (old new_source : OrganizeSource) (d : defer_result) (i : OrganizeIntent) :
  String.eqb (abs_path new_source) k = false ->
  defer_update cfg w old new_source = Ok d ->
  d_intent d = Some i ->
  String.eqb (abs_path (source i)) k = false.
Proof.
  intros Hk. unfold defer_update.
  destruct (update_from cfg w (mkintent old true) new_source) as [r|e] eqn:Hr;
    [|discriminate].
  destruct (update_from_paths w _ _ r Hr) as (Hnew & _ & Had).
  destruct (moving cfg && uf_permitted r).
  { intros [= <-] [= <-]. cbn. now rewrite Hnew. }
  destruct (uf_adopted r); cbn [negb]; intros [= <-]; [|discriminate].
  intros [= <-]. now rewrite Had.
Qed.

Lemma defer_elsewhere (w : World) (k : path) (old : option OrganizeSource)
    (new_source : OrganizeSource) (d : defer_result) (i : OrganizeIntent) :
  defer cfg w k old new_source = Ok d ->
  d_intent d = Some i ->
  String.eqb (abs_path (source i)) k = false.
Proof.
  unfold defer.
  destruct (String.eqb (abs_path new_source) k) eqn:Hk;
    [intros [= <-]; discriminate|].
  destruct old as [old|]; [now apply defer_update_elsewhere|].
  destruct (lstat w k) as [out_lstat|e].
  - destruct (st_islnk out_lstat).
    + destruct (stat w k) as [out_stat|e].
      * destruct (negb (symlinking cfg)); [discriminate|].
        now apply defer_update_elsewhere.
      * destruct e as [?|?|[| | | |?]| | |]; try discriminate.
        now intros [= <-] [= <-].
    + destruct (symlinking cfg); [discriminate|].
      now apply defer_update_elsewhere.
  - destruct e as [?|?|[| | | |?]| | |]; try discriminate.
    now intros [= <-] [= <-].
Qed.

Lemma elsewhere_keeps {A} (m : M World A) :
  keeps deferred_intents m ->
  post m sources_elsewhere (fun _ => sources_elsewhere) sources_elsewhere.
Proof.
  intros Hm st Hst. specialize (Hm st). unfold sources_elsewhere in *.
  destruct (m st) as [st' [a|e]]; cbn [fst] in Hm; now rewrite Hm.
Qed.

Lemma elsewhere_set_deferred (d : OD.t OrganizeIntent) :
  Forall (fun ki => String.eqb (abs_path (source (snd ki))) (fst ki) = false) d ->
  post (set_deferred d : M World unit) (fun _ => True)
    (fun _ => sources_elsewhere) sources_elsewhere.
Proof. intros Hd st _. exact Hd. Qed.


Lemma pop_intent_elsewhere (k : path) :
  post (pop_intent k : M World _) sources_elsewhere
    (fun popped st =>
       sources_elsewhere st
       /\ forall i, popped = Some i ->
                    String.eqb (abs_path (source i)) k = false)
    sources_elsewhere.
Proof.
  intros st Hst. unfold pop_intent, bind, get_state.
  destruct (OD.get k (deferred_intents st)) as [i|] eqn:Hget; cbn.
  - split; [apply Forall_od_remove, Hst|].
    intros i' [= <-]. apply od_get_in in Hget.
    unfold sources_elsewhere in Hst. rewrite Forall_forall in Hst.
    apply (Hst _ Hget).
  - split; [exact Hst|discriminate].
Qed.

Lemma put_intent_elsewhere (k : path) (i : OrganizeIntent) :
  String.eqb (abs_path (source i)) k = false ->
  post (put_intent k i : M World _) sources_elsewhere
    (fun _ => sources_elsewhere) sources_elsewhere.
Proof.
  intros Hi st Hst. unfold put_intent, bind, get_state. cbn.
  apply Forall_od_set; [exact Hst|exact Hi].
Qed.

Lemma place_elsewhere ogprefix new_source rrexpr :
  allow_updates cfg = false ->
  post (place cfg ReqresExpr format_path ogprefix new_source rrexpr
        : M World _)
    sources_elsewhere (fun _ => sources_elsewhere) sources_elsewhere.
Proof.
  intros Hup. unfold place.
  eapply post_bind; [apply elsewhere_keeps; keeps_step|]. intros num.
  set (k := abspath (format_path rrexpr num)).
  eapply post_bind;
    [apply elsewhere_keeps; unfold pop_source; keeps_auto|].
  intros old.
  eapply post_bind; [apply pop_intent_elsewhere|]. intros popped.
  eapply post_bind
    with (Q := fun d st =>
                 sources_elsewhere st
                 /\ forall i, d_intent d = Some i ->
                              String.eqb (abs_path (source i)) k = false).
  { destruct popped as [intent|].
    - intros st [Hst Hpopped]. unfold bind, observe, ret.
      destruct (update_from cfg (world st) intent new_source) as [r|e] eqn:Hr;
        [|exact Hst].
      split; [exact Hst|]. cbn [d_intent]. intros i [= <-].
      destruct (update_from_paths (world st) _ _ r Hr) as (_ & [Hs|[Hu _]] & _);
        [|congruence].
      rewrite Hs. now apply Hpopped.
    - intros st [Hst _]. unfold observe.
      destruct (defer cfg (world st) k old new_source) as [d|e] eqn:Hd;
        [|exact Hst].
      split; [exact Hst|]. intros i Hi. eapply defer_elsewhere; eauto. }
  intros d.
  eapply post_bind with (Q := fun _ => sources_elsewhere).
  { destruct (d_intent d) as [i|].
    - intros st [Hst Hd]. apply put_intent_elsewhere; auto.
    - apply post_ret. now intros st [Hst _]. }
  intros ?.
  eapply post_bind with (Q := fun _ => sources_elsewhere).
  { apply elsewhere_keeps. unfold put_source. keeps_auto. }
  intros ?. apply post_ret. auto.
Qed.

Lemma emit_loop_elsewhere fuel ogprefix rrexpr :
  allow_updates cfg = false ->
  forall new_source prev,
    post (emit_loop cfg ReqresExpr format_path fuel ogprefix new_source rrexpr
            prev : M World _)
      sources_elsewhere (fun _ => sources_elsewhere) sources_elsewhere.
Proof.
  intros Hup. induction fuel as [|n IH]; intros new_source prev;
    cbn [emit_loop]; [apply post_raise; auto|].
  eapply post_bind with (Q := fun _ => sources_elsewhere).
  { unfold emit_turn.
    eapply post_bind; [apply place_elsewhere, Hup|].
    intros [[d rel] k]. apply elsewhere_keeps. keeps_auto. }
  intros [src [intent k|rel]]; cbn [snd fst]; [apply post_ret; auto|apply IH].
Qed.

Lemma flush_seen_elsewhere max_memory_ num_seen :
  forall num_deferred done_files,
    post (flush_seen args cfg max_memory_ num_seen num_deferred done_files
          : M World _)
      sources_elsewhere (fun _ => sources_elsewhere) sources_elsewhere.
Proof.
  induction num_seen as [|n IH]; intros num_deferred done_files;
    cbn [flush_seen]; [apply post_ret; auto|].
  apply post_get_state. intros s. apply post_forget.
  match goal with |- post (if ?b then _ else _) _ _ _ => destruct b end;
    [|apply post_ret; auto].
  eapply post_bind; [apply elsewhere_keeps; keeps_step|]. intros kv.
  apply post_get_state. intros s1.
  destruct (OD.get (fst kv) (deferred_intents s1)); [|apply post_forget, IH].
  eapply post_bind with (Q := fun _ => sources_elsewhere).
  { intros st [-> Hst]. apply Forall_od_remove, Hst. }
  intros ?.
  eapply post_bind;
    [apply elsewhere_keeps, complete_intent_keeps_deferred|].
  intros ?. apply IH.
Qed.

Lemma flush_deferred_elsewhere max_deferred_ max_memory_ num_deferred :
  forall done_files,
    post (flush_deferred args cfg max_deferred_ max_memory_ num_deferred
            done_files : M World _)
      sources_elsewhere (fun _ => sources_elsewhere) sources_elsewhere.
Proof.
  induction num_deferred as [|n IH]; intros done_files; cbn [flush_deferred];
    [apply post_ret; auto|].
  apply post_get_state. intros s.
  match goal with |- post (if ?b then _ else _) _ _ _ => destruct b end;
    [|apply post_ret; now intros st [_ Hst]].
  destruct (OD.popitem_first (deferred_intents s)) as [[[k intent] rest]|]
    eqn:Hpop; [|apply post_raise; now intros st [_ Hst]].
  eapply post_bind with (Q := fun _ => sources_elsewhere).
  { intros st [-> Hst]. unfold sources_elsewhere in *.
    destruct (deferred_intents s) as [|kv d]; [discriminate|].
    cbn in Hpop. inversion Hpop; subst. cbn. now inversion Hst. }
  intros ?.
  eapply post_bind;
    [apply elsewhere_keeps, complete_intent_keeps_deferred|].
  intros ?. apply IH.
Qed.

Lemma flush_updates_elsewhere final :
  post (flush_updates args cfg final : M World _)
    sources_elsewhere (fun _ => sources_elsewhere) sources_elsewhere.
Proof.
  unfold flush_updates. apply post_get_state. intros s. apply post_forget.
  match goal with |- post (if ?b then _ else _) _ _ _ => destruct b end;
    [apply post_ret; auto|].
  eapply post_bind; [apply flush_seen_elsewhere|]. intros r.
  apply post_get_state. intros s1. apply post_forget.
  eapply post_bind; [apply flush_deferred_elsewhere|]. intros done_files.
  apply elsewhere_keeps.
  keeps_auto; first [ apply report_keeps_deferred
                    | apply flush_cache_keeps_deferred ].
Qed.

(** X12.  The assertion at the head of [run] holds for everything the
    engine queues: without [--latest] ([allow_updates] is false),
    [emit] and [finish_updates] keep the invariant that no queued
    intent has the path it is queued for as its source. *)
Theorem queued_sources_elsewhere (fuel : nat) (new_source : OrganizeSource)
    (rrexpr : ReqresExpr) (st : engine World) :
  allow_updates cfg = false ->
  sources_elsewhere st ->
  sources_elsewhere
    (fst (emit args cfg ReqresExpr format_path filters_allow fuel new_source
            rrexpr st))
  /\ sources_elsewhere (fst (finish_updates args cfg st)).
Proof.
  intros Hup Hst. split.
  - assert (H : post (emit args cfg ReqresExpr format_path filters_allow fuel
                        new_source rrexpr)
                  sources_elsewhere (fun _ => sources_elsewhere)
                  sources_elsewhere).
    { unfold emit.
      eapply post_bind; [apply elsewhere_keeps; keeps_step|]. intros allowed.
      destruct (negb allowed); [apply post_ret; auto|].
      eapply post_bind; [apply emit_loop_elsewhere, Hup|]. intros r.
      eapply post_bind with (Q := fun _ => sources_elsewhere).
      { apply elsewhere_keeps. keeps_auto. }
      intros ?. destruct (negb (lazy args));
        [apply flush_updates_elsewhere|apply post_ret; auto]. }
    specialize (H st Hst).
    destruct (emit args cfg ReqresExpr format_path filters_allow fuel
                new_source rrexpr st) as [st' [[]|e]]; exact H.
  - pose proof (flush_updates_elsewhere true st Hst) as H.
    unfold finish_updates, bind, get_state.
    destruct (flush_updates args cfg true st) as [st1 [[]|e]]; [|exact H].
    destruct (consumption st1 =? 0); exact H.
Qed.
End SourcesElsewhere.

Lemma queued_sources_elsewhere_witness :
  let st := after_first_emit example_args moving_ numbered_path in
  OD.keys (deferred_intents st) = ["/dst/x.0.wrr"]
  /\ sources_elsewhere st
  /\ sources_elsewhere (fst (finish_updates example_args moving_ example_engine)).
Proof.
  intros st. split; [reflexivity|].
  apply (queued_sources_elsewhere example_args moving_ unit numbered_path
           allow_all 3 example_a tt example_engine eq_refl).
  constructor.
Defined.


(** ** Failed intents *)

Section FailedIntents.
Context {World : Type} {os : OS World}.
Variable args : cargs.
Variable cfg : organize.

(** X13.  An intent whose [run] raises [Failure]: [complete_intent]
    releases the intent's charge, leaves the source cache alone and
    does not add the path to [done_files], so the path is not
    reported; with [--errors ignore] it returns, with [--errors skip]
    it logs the elaborated error and returns, with [--errors fail] it
    raises [CatastrophicFailure] with the elaborated message. *)
Theorem complete_intent_failure (done_files : option (list path)) (k : path)
    (intent : OrganizeIntent) (st : engine World) (d : string) :
  snd (run cfg intent k (dry_run args) (world st)) = Raise (Failure d) ->
  let r := complete_intent args cfg done_files k intent st in
  let msg := elaborate (while_actioning cfg (format_source intent) k) d in
  consumption (fst r) = consumption st - (approx_size intent + len k)
  /\ source_cache (fst r) = source_cache st
  /\ match errors args with
     | ErrIgnore =>
         snd r = Ok done_files /\ ~ In (EvLogError msg) (skipn (List.length (trace st)) (trace (fst r)))
     | ErrSkip =>
         snd r = Ok done_files
         /\ exists calls, trace (fst r) = (calls ++ [EvLogError msg])%list
     | ErrFail => snd r = Raise (CatastrophicFailure msg)
     end.
Proof.
  intros Hrun. cbn zeta.
  assert (Hskip : forall (tr calls : list event),
             skipn (List.length tr) (tr ++ calls) = calls).
  { intros tr calls. now rewrite skipn_app, skipn_all, Nat.sub_diag. }
  unfold complete_intent, catch, bind, syscall, add_consumption, log, ret, raise.
  destruct (negb (quiet args)); cbn [fst snd world consumption source_cache
                                     deferred_intents seen_counter trace];
    destruct (run cfg intent k (dry_run args) (world st)) as [w r];
    cbn [snd] in Hrun; subst r; destruct (errors args);
    cbn [fst snd world consumption source_cache deferred_intents
         seen_counter trace];
    (split; [lia|]); (split; [reflexivity|]);
    try reflexivity;
    (split; [reflexivity|]);
    try (eexists; reflexivity);
    rewrite <- ?app_assoc, Hskip; cbn; intuition discriminate.
Qed.

Lemma nrf_ret {A} (a : A) : never_raises_Failure (ret a : M World A).
Proof. intros st d. discriminate. Qed.

Lemma nrf_bind {A B} (m : M World A) (k : A -> M World B) :
  never_raises_Failure m -> (forall a, never_raises_Failure (k a)) ->
  never_raises_Failure (bind m k).
Proof.
  intros Hm Hk st d. unfold bind. specialize (Hm st d).
  destruct (m st) as [st' [a|e]]; [apply Hk|].
  cbn in *. intros [= ->]. now apply Hm.
Qed.

Lemma nrf_get_state : never_raises_Failure (get_state : M World _).
Proof. intros st d. discriminate. Qed.

Lemma nrf_total {A} (m : M World A) :
  (forall st, exists a, snd (m st) = Ok a) -> never_raises_Failure m.
Proof. intros H st d. destruct (H st) as [a ->]. discriminate. Qed.

Lemma nrf_log e : never_raises_Failure (log e : M World unit).
Proof. apply nrf_total. intros st. now exists tt. Qed.

Lemma nrf_add_consumption c :
  never_raises_Failure (add_consumption c : M World unit).
Proof. apply nrf_total. intros st. now exists tt. Qed.

Lemma nrf_set_deferred c :
  never_raises_Failure (set_deferred c : M World unit).
Proof. apply nrf_total. intros st. now exists tt. Qed.

Lemma nrf_set_cache c : never_raises_Failure (set_cache c : M World unit).
Proof. apply nrf_total. intros st. now exists tt. Qed.

Lemma nrf_seen_pop : never_raises_Failure (seen_pop : M World _).
Proof.
  intros st d. unfold seen_pop.
  destruct (SeenCounter.pop _) as [[s res]|]; discriminate.
Qed.

Lemma nrf_complete_intent done_files k intent :
  never_raises_Failure (complete_intent args cfg done_files k intent
                        : M World _).
Proof.
  unfold complete_intent.
  apply nrf_bind; [apply nrf_add_consumption|intros ?].
  apply nrf_bind;
    [destruct (negb (quiet args)); [apply nrf_log|apply nrf_ret]|intros ?].
  apply nrf_bind; [apply nrf_log|intros ?].
  intros st d. unfold catch.
  match goal with |- snd (match ?m st with _ => _ end) <> _ =>
    destruct (m st) as [st' [a'|e]] end; [discriminate|].
  destruct e; try discriminate.
  destruct (errors args); cbn; discriminate.
Qed.

Lemma nrf_flush_seen max_memory_ num_seen :
  forall num_deferred done_files,
    never_raises_Failure
      (flush_seen args cfg max_memory_ num_seen num_deferred done_files
       : M World _).
Proof.
  induction num_seen as [|n IH]; intros num_deferred done_files;
    cbn [flush_seen]; [apply nrf_ret|].
  apply nrf_bind; [apply nrf_get_state|intros s].
  match goal with |- never_raises_Failure (if ?b then _ else _) =>
    destruct b end; [|apply nrf_ret].
  apply nrf_bind; [apply nrf_seen_pop|intros kv].
  apply nrf_bind; [apply nrf_get_state|intros s1].
  destruct (OD.get (fst kv) (deferred_intents s1)); [|apply IH].
  apply nrf_bind; [apply nrf_set_deferred|intros ?].
  apply nrf_bind; [apply nrf_complete_intent|intros ?; apply IH].
Qed.

Lemma nrf_flush_deferred max_deferred_ max_memory_ num_deferred :
  forall done_files,
    never_raises_Failure
      (flush_deferred args cfg max_deferred_ max_memory_ num_deferred
         done_files : M World _).
Proof.
  induction num_deferred as [|n IH]; intros done_files; cbn [flush_deferred];
    [apply nrf_ret|].
  apply nrf_bind; [apply nrf_get_state|intros s].
  match goal with |- never_raises_Failure (if ?b then _ else _) =>
    destruct b end; [|apply nrf_ret].
  destruct (OD.popitem_first (deferred_intents s)) as [[[k intent] rest]|];
    [|intros st d; discriminate].
  apply nrf_bind; [apply nrf_set_deferred|intros ?].
  apply nrf_bind; [apply nrf_complete_intent|intros ?; apply IH].
Qed.

Lemma nrf_flush_cache max_memory_ num_cached :
  never_raises_Failure (flush_cache args max_memory_ num_cached : M World _).
Proof.
  induction num_cached as [|n IH]; cbn [flush_cache]; [apply nrf_ret|].
  apply nrf_bind; [apply nrf_get_state|intros s].
  match goal with |- never_raises_Failure (if ?b then _ else _) =>
    destruct b end; [|apply nrf_ret].
  destruct (OD.popitem_first (source_cache s)) as [[[k src] rest]|];
    [|intros st d; discriminate].
  apply nrf_bind; [apply nrf_set_cache|intros ?].
  apply nrf_bind; [apply nrf_add_consumption|intros ?; apply IH].
Qed.

Lemma nrf_report t files : never_raises_Failure (report t files : M World _).
Proof.
  induction files as [|p rest IH]; cbn [report]; [apply nrf_ret|].
  apply nrf_bind; [apply nrf_log|intros ?; apply IH].
Qed.

(** X14.  Failed intents do not look like failed inputs: if
    [dsync.sync()] and [dsync.finish()] do not raise [Failure]
    themselves, [flush_updates] and [finish_updates] never raise
    [Failure], whatever the error policy; a failed intent is skipped,
    ignored, or raised as [CatastrophicFailure]. *)
Theorem flush_never_raises_Failure (final : bool) :
  never_raises_Failure (syscall dsync_sync : M World unit) ->
  never_raises_Failure (syscall dsync_finish : M World unit) ->
  never_raises_Failure (flush_updates args cfg final : M World unit)
  /\ never_raises_Failure (finish_updates args cfg : M World unit).
Proof.
  intros Hsync Hfinish.
  assert (Hflush : forall final,
             never_raises_Failure (flush_updates args cfg final
                                   : M World unit)).
  { clear final. intros final. unfold flush_updates.
    apply nrf_bind; [apply nrf_get_state|intros s].
    match goal with |- never_raises_Failure (if ?b then _ else _) =>
      destruct b end; [apply nrf_ret|].
    apply nrf_bind; [apply nrf_flush_seen|intros r].
    apply nrf_bind; [apply nrf_get_state|intros s1].
    apply nrf_bind; [apply nrf_flush_deferred|intros done_files].
    apply nrf_bind; [apply nrf_log|intros ?].
    apply nrf_bind; [exact Hsync|intros ?].
    apply nrf_bind.
    { destruct done_files as [files|]; destruct (terminator args) as [t|];
        try apply nrf_ret.
      apply nrf_bind; [apply nrf_report|intros ?].
      apply nrf_bind; [apply nrf_log|intros ?; apply nrf_log]. }
    intros ?.
    apply nrf_bind; [apply nrf_log|intros ?].
    apply nrf_bind; [exact Hfinish|intros ?].
    apply nrf_flush_cache. }
  split; [apply Hflush|].
  unfold finish_updates.
  apply nrf_bind; [apply Hflush|intros ?].
  apply nrf_bind; [apply nrf_get_state|intros s].
  destruct (consumption s =? 0); [apply nrf_ret|intros st d; discriminate].
Qed.
End FailedIntents.


Lemma complete_intent_failure_witness :
  let r := complete_intent example_args copying (Some []) "/src/b.wrr"
             (mkintent example_a false) example_engine in
  snd r = Raise (CatastrophicFailure
                   "while copying `/src/a.wrr` -> `/src/b.wrr`: `/src/b.wrr` already exists")
  /\ consumption (fst r) = -180
  /\ source_cache (fst r) = [].
Proof.
  pose proof (complete_intent_failure example_args copying (Some [])
                "/src/b.wrr" (mkintent example_a false) example_engine
                "`/src/b.wrr` already exists" eq_refl) as H.
  cbn zeta in *. destruct H as (Hc & Hs & Hr).
  split; [exact Hr|]. split; [exact Hc|exact Hs].
Defined.

Lemma flush_never_raises_Failure_witness :
  never_raises_Failure
    (flush_updates example_args copying true : M SimpleFS.fs unit)
  /\ never_raises_Failure
       (finish_updates example_args copying : M SimpleFS.fs unit).
Proof.
  apply (flush_never_raises_Failure example_args copying true).
  - intros st d. discriminate.
  - intros st d. discriminate.
Defined.


(** ** Filters *)

Section FilterFacts.
Variable ReqresExpr : Type.
Variable fs_path : ReqresExpr -> option path.

Lemma eval_it_boolean (rrexpr : ReqresExpr) (filter : string * LinstFunc ReqresExpr) :
  boolean rrexpr filter ->
  eval_it fs_path rrexpr (fst filter) (snd filter) = Ok (holds rrexpr filter).
Proof.
  intros [b Hb]. unfold eval_it, holds. rewrite Hb. now destruct b.
Qed.

Lemma filters_any_semantics (rrexpr : ReqresExpr)
    (anys : list (string * LinstFunc ReqresExpr)) (some_anys : bool) :
  Forall (boolean rrexpr) anys ->
  filters_any ReqresExpr fs_path rrexpr anys some_anys
  = Ok (existsb (holds rrexpr) anys || negb some_anys).
Proof.
  induction 1 as [|[expr func] rest Hb Hrest IH]; cbn [filters_any existsb].
  - now destruct some_anys.
  - pose proof (eval_it_boolean rrexpr (expr, func) Hb) as He.
    cbn [fst snd] in He. rewrite He.
    destruct (holds rrexpr (expr, func)); [reflexivity|exact IH].
Qed.

(** X15.  When every filter evaluates to a [bool], [filters_allow]
    accepts the record exactly when all the [--and] filters hold and,
    if there are [--or] filters, one of them holds. *)
Theorem filters_allow_semantics (rrexpr : ReqresExpr)
    (alls anys : list (string * LinstFunc ReqresExpr)) :
  Forall (boolean rrexpr) alls ->
  Forall (boolean rrexpr) anys ->
  filters_allow fs_path alls anys rrexpr
  = Ok (forallb (holds rrexpr) alls
        && match anys with
           | [] => true
           | _ => existsb (holds rrexpr) anys
           end).
Proof.
  intros Halls Hanys. unfold filters_allow.
  rewrite (filters_any_semantics rrexpr anys _ Hanys).
  replace (existsb (holds rrexpr) anys
           || negb (0 <? Z.of_nat (List.length anys)))
    with (match anys with
          | [] => true
          | _ => existsb (holds rrexpr) anys
          end).
  2:{ destruct anys as [|f rest]; [reflexivity|].
      replace (0 <? Z.of_nat (List.length (f :: rest))) with true
        by (symmetry; apply Z.ltb_lt; cbn [List.length]; lia).
      now rewrite orb_false_r. }
  induction Halls as [|[expr func] rest Hb Hrest IH];
    cbn [filters_all forallb]; [reflexivity|].
  pose proof (eval_it_boolean rrexpr (expr, func) Hb) as He.
  cbn [fst snd] in He. rewrite He.
  destruct (holds rrexpr (expr, func)); [exact IH|reflexivity].
Qed.

(** X16.  The [--and] filters are evaluated in order and the first
    one that does not hold decides: if it is [False] the record is
    rejected, if it is not a [bool] a [CatastrophicFailure] naming the
    expression, the value and the file is raised; the filters after it
    are not evaluated, so an error in one of them does not show. *)
Theorem filters_allow_first_decides (rrexpr : ReqresExpr)
    (pre rest anys : list (string * LinstFunc ReqresExpr))
    (expr : string) (func : LinstFunc ReqresExpr) :
  Forall (fun filter => holds rrexpr filter = true) pre ->
  (func rrexpr = Ok (VBool false) ->
   filters_allow fs_path (pre ++ (expr, func) :: rest) anys rrexpr = Ok false)
  /\ (forall repr p,
        func rrexpr = Ok (VOther repr) -> fs_path rrexpr = Some p ->
        filters_allow fs_path (pre ++ (expr, func) :: rest) anys rrexpr
        = Raise (CatastrophicFailure
                   (elaborate ("while processing `" ++ p ++ "`")
                      ("while evaluating `" ++ expr
                       ++ "`: expected a value of type `bool`, got `" ++ repr
                       ++ "`")))).
Proof.
  intros Hpre. unfold filters_allow.
  induction Hpre as [|[e f] pre' Hf Hpre' IH]; cbn [app filters_all].
  - unfold eval_it. split.
    + now intros ->.
    + intros repr p -> ->. reflexivity.
  - unfold holds in Hf. cbn [snd] in Hf.
    assert (He : eval_it fs_path rrexpr e f = Ok true).
    { unfold eval_it. destruct (f rrexpr) as [[[|]|]|]; try discriminate.
      reflexivity. }
    rewrite He. exact IH.
Qed.
End FilterFacts.

Lemma filters_allow_semantics_witness :
  filters_allow (fun _ : unit => None)
    [("status|== 200C", fun _ => Ok (VBool true))]
    [("method|== GET", fun _ => Ok (VBool false));
     ("method|== POST", fun _ => Ok (VBool true))] tt
  = Ok true.
Proof.
  apply (filters_allow_semantics unit (fun _ => None) tt
           [("status|== 200C", fun _ => Ok (VBool true))]
           [("method|== GET", fun _ => Ok (VBool false));
            ("method|== POST", fun _ => Ok (VBool true))]);
    repeat constructor; eexists; reflexivity.
Defined.

Lemma filters_allow_first_decides_witness :
  filters_allow (fun _ : unit => Some "/src/a.wrr")
    [("status|== 200C", fun _ => Ok (VBool true));
     ("response.body", fun _ => Ok (VOther "b'abc'"));
     ("broken", fun _ => Raise KeyError)] [] tt
  = Raise (CatastrophicFailure
             "while processing `/src/a.wrr`: while evaluating `response.body`: expected a value of type `bool`, got `b'abc'`").
Proof.
  apply (proj2
           (filters_allow_first_decides unit (fun _ => Some "/src/a.wrr") tt
              [("status|== 200C", fun _ => Ok (VBool true))]
              [("broken", fun _ => Raise KeyError)] []
              "response.body" (fun _ => Ok (VOther "b'abc'"))
              ltac:(repeat constructor))
           "b'abc'" "/src/a.wrr" eq_refl eq_refl).
Defined.


(** ** Input paths *)

Lemma split0_nonempty (data : bytes) : split0 data <> [].
Proof.
  destruct data as [|c rest]; cbn [split0]; [discriminate|].
  destruct (Ascii.eqb c NUL); [discriminate|].
  destruct (split0 rest); discriminate.
Qed.

Lemma split0_single (data x : bytes) :
  split0 data = [x] -> x = data /\ ends_with_NUL data = false.
Proof.
  revert x. induction data as [|c rest IH]; intros x; cbn [split0].
  - now intros [= <-].
  - destruct (Ascii.eqb c NUL) eqn:Hc.
    + intros [= _ H]. now destruct (split0_nonempty rest).
    + destruct (split0 rest) as [|piece pieces] eqn:Hs;
        [now destruct (split0_nonempty rest)|].
      intros [= <- ->]. destruct (IH piece eq_refl) as [-> Hends].
      split; [reflexivity|]. cbn [ends_with_NUL].
      destruct rest; [exact Hc|exact Hends].
Qed.

Lemma last_split0 (data : bytes) :
  List.last (split0 data) EmptyString = EmptyString
  <-> data = EmptyString \/ ends_with_NUL data = true.
Proof.
  induction data as [|c rest IH]; cbn [split0].
  - cbn. tauto.
  - destruct (Ascii.eqb c NUL) eqn:Hc.
    + assert (Hlast : @List.last bytes (EmptyString :: split0 rest) EmptyString
                      = @List.last bytes (split0 rest) EmptyString).
      { pose proof (split0_nonempty rest).
        destruct (split0 rest); [contradiction|reflexivity]. }
      rewrite Hlast, IH. cbn [ends_with_NUL]. rewrite Hc.
      destruct rest; [tauto|]. split; [intros [?|?]; [discriminate|auto]|].
      intros [?|?]; [discriminate|auto].
    + destruct (split0 rest) as [|piece pieces] eqn:Hsplit;
        [now destruct (split0_nonempty rest)|].
      destruct pieces as [|piece' pieces].
      * destruct (split0_single rest piece Hsplit) as [-> Hends].
        cbn [List.last ends_with_NUL]. split; [discriminate|].
        intros [?|H]; [discriminate|]. destruct rest; congruence.
      * change (List.last (String c piece :: piece' :: pieces) EmptyString)
          with (List.last (piece :: piece' :: pieces) EmptyString).
        rewrite IH. cbn [ends_with_NUL].
        destruct rest; [discriminate|].
        split; (intros [?|?]; [discriminate|auto]).
Qed.

Lemma split0_terminated (p rest : bytes) :
  no_NUL p = true ->
  split0 (p ++ String NUL rest) = p :: split0 rest.
Proof.
  induction p as [|c p IH]; cbn [no_NUL append split0].
  - now rewrite Ascii.eqb_refl.
  - intros H. apply andb_true_iff in H. destruct H as [Hc Hp].
    apply negb_true_iff in Hc. now rewrite Hc, IH.
Qed.

Lemma split0_stdout (files : list path) :
  Forall (fun p => no_NUL p = true) files ->
  split0 (stdout_bytes (map (fun p => EvStdout p zero) files))
  = (files ++ [EmptyString])%list.
Proof.
  induction 1 as [|p files Hp Hfiles IH]; [reflexivity|].
  cbn [map stdout_bytes app]. unfold zero at 1. cbn [append].
  now rewrite split0_terminated, IH.
Qed.

Section HandlePathsFacts.
Context {World : Type} {os : OS World}.
Variable expanduser : anystr -> anystr.

(** X17.  With [--stdin0], [handle_paths] raises the failure
    "[--stdin0] input format error" exactly when stdin is not empty
    and does not end with a NUL byte: empty input is accepted, an
    unterminated last path is not. *)
Theorem handle_paths_stdin0_format (stdin : bytes) (walk_paths : option bool)
    (paths : list anystr) :
  handle_paths expanduser true true stdin walk_paths paths
  = PathsFailure "`--stdin0` input format error"
  <-> stdin <> EmptyString /\ ends_with_NUL stdin = false.
Proof.
  unfold handle_paths. cbn [andb].
  pose proof (last_split0 stdin) as Hlast.
  destruct (String.eqb (List.last (split0 stdin) EmptyString) "") eqn:Heq;
    cbn [negb].
  - apply String.eqb_eq in Heq. apply Hlast in Heq. split.
    + destruct walk_paths as [walk|]; [|discriminate].
      destruct (sort _ _); discriminate.
    + intros [Hne Hends]. destruct Heq; congruence.
  - apply String.eqb_neq in Heq. split; [intros _|reflexivity].
    split.
    + intros ->. apply Heq. reflexivity.
    + destruct (ends_with_NUL stdin); [|reflexivity].
      exfalso. apply Heq, Hlast. now right.
Qed.

Lemma report_trace (t : bytes) (files : list path) (st : engine World) :
  trace (fst (report t files st))
  = (trace st ++ map (fun p => EvStdout p t) files)%list.
Proof.
  revert st. induction files as [|p files IH]; intros st; cbn [report map].
  - now rewrite app_nil_r.
  - unfold bind, log. cbn. rewrite IH. cbn [trace].
    now rewrite <- app_assoc.
Qed.

(** X18.  What [organize --zero-terminated] reports is what
    [--stdin0] reads: the bytes the report loop of [flush_updates]
    writes for [files] with a NUL terminator are split by
    [handle_paths] into the same paths, in the same order, after the
    paths of the command line, if no path holds a NUL byte. *)
Theorem stdin0_reads_report (files : list path) (st : engine World)
    (paths : list anystr) :
  trace st = [] ->
  Forall (fun p => no_NUL p = true) files ->
  handle_paths expanduser true true
    (stdout_bytes (trace (fst (report zero files st)))) None paths
  = Paths (map expanduser (paths ++ map Bytes files)).
Proof.
  intros Htrace Hfiles. rewrite report_trace, Htrace. cbn [app].
  unfold handle_paths. cbn [andb].
  rewrite (split0_stdout files Hfiles), last_last, removelast_last.
  reflexivity.
Qed.
End HandlePathsFacts.

Lemma stdin0_reads_report_witness :
  handle_paths (fun x => x) true true
    (stdout_bytes
       (trace (fst (report zero ["/dst/x.0.wrr"; "/dst/x.1.wrr"] example_engine))))
    None [Str "/src"]
  = Paths [Str "/src"; Bytes "/dst/x.0.wrr"; Bytes "/dst/x.1.wrr"].
Proof.
  pose proof (stdin0_reads_report (fun x => x)
                ["/dst/x.0.wrr"; "/dst/x.1.wrr"] example_engine [Str "/src"]
                eq_refl ltac:(repeat constructor)) as H.
  exact H.
Defined.


(** ** Sorting paths of both kinds *)

Lemma sort_insert_same (b reverse : bool) (x : anystr) (l : list anystr) :
  is_bytes x = b -> Forall (fun y => is_bytes y = b) l ->
  exists r, sort_insert reverse x l = Some r
            /\ Forall (fun y => is_bytes y = b) r /\ r <> [].
Proof.
  intros Hx Hl. induction Hl as [|y l Hy Hl IH]; cbn [sort_insert].
  - exists [x]. repeat split; [now repeat constructor|discriminate].
  - assert (Hcmp : exists c, (if reverse then anystr_ltb x y
                              else anystr_ltb y x) = Some c).
    { destruct x, y, b, reverse; cbn in *; try discriminate; eauto. }
    destruct Hcmp as [[|] ->].
    + destruct IH as (r & -> & Hr & _). exists (y :: r).
      repeat split; [now constructor|discriminate].
    + exists (x :: y :: l). repeat split; [now repeat constructor|discriminate].
Qed.

Lemma sort_same (b reverse : bool) (l : list anystr) :
  Forall (fun y => is_bytes y = b) l ->
  exists r, sort reverse l = Some r
            /\ Forall (fun y => is_bytes y = b) r /\ (l <> [] -> r <> []).
Proof.
  induction 1 as [|x l Hx Hl IH]; cbn [sort].
  - exists []. repeat split; auto.
  - destruct IH as (r & -> & Hr & _).
    destruct (sort_insert_same b reverse x r Hx Hr) as (r' & -> & Hr' & Hne).
    exists r'. auto.
Qed.

Lemma sort_insert_other (b reverse : bool) (x : anystr) (l : list anystr) :
  is_bytes x = negb b -> Forall (fun y => is_bytes y = b) l -> l <> [] ->
  sort_insert reverse x l = None.
Proof.
  intros Hx Hl Hne. destruct Hl as [|y l Hy Hl]; [contradiction|].
  cbn [sort_insert]. destruct x, y, b, reverse; cbn in *; congruence.
Qed.

Lemma sort_mixed (reverse : bool) (l : list anystr) (x y : anystr) :
  In x l -> In y l -> is_bytes x = false -> is_bytes y = true ->
  sort reverse l = None.
Proof.
  revert x y. induction l as [|a l IH]; [contradiction|].
  intros x y Hx Hy Hxs Hyb. cbn [sort].
  destruct (sort reverse l) as [r|] eqn:Hsort; [|reflexivity].
  assert (Hone : forall b, is_bytes a = negb b ->
             (exists z, In z l /\ is_bytes z = b) ->
             sort_insert reverse a r = None).
  { intros b Ha (z & Hz & Hzb).
    destruct (Forall_Exists_dec (fun y => is_bytes y = b)
                (fun y => bool_dec (is_bytes y) b) l) as [Hall|Hex].
    - destruct (sort_same b reverse l Hall) as (r' & Hr' & Hsame & Hne).
      rewrite Hsort in Hr'. inversion Hr'; subst r'.
      apply (sort_insert_other b); auto.
      apply Hne. intros ->. contradiction.
    - apply Exists_exists in Hex. destruct Hex as (z' & Hz' & Hz'b).
      exfalso.
      assert (Hnone : Some r = None).
      { destruct b.
        - apply (IH z' z); auto. now destruct (is_bytes z').
        - apply (IH z z'); auto. now destruct (is_bytes z'). }
      discriminate. }
  destruct Hx as [<-|Hx], Hy as [<-|Hy].
  - congruence.
  - apply (Hone true); [now rewrite Hxs|eauto].
  - apply (Hone false); [now rewrite Hyb|eauto].
  - specialize (IH x y Hx Hy Hxs Hyb). discriminate.
Qed.

Lemma split0_terminated_pieces (data : bytes) :
  ends_with_NUL data = true ->
  List.last (split0 data) EmptyString = EmptyString
  /\ removelast (split0 data) <> [].
Proof.
  intros Hends. split; [apply last_split0; now right|].
  intros Hnil. pose proof (split0_nonempty data) as Hne.
  destruct (split0 data) as [|p [|q ps]] eqn:Hsplit;
    [contradiction| |discriminate].
  destruct (split0_single data p Hsplit) as [_ H]. congruence.
Qed.

Section SortMixed.
Variable expanduser : anystr -> anystr.

(** X19.  Sorting does not mix: with [--paths-sorted] or
    [--paths-reversed], a path on the command line (a [str]) and a
    NUL-terminated path on stdin ([bytes]) make [handle_paths] fail
    with the [TypeError] of [list.sort], since [expanduser] keeps the
    type of its argument. *)
Theorem handle_paths_sort_mixed (stdin : bytes) (walk : bool)
    (paths : list anystr) (s : string) :
  (forall x, is_bytes (expanduser x) = is_bytes x) ->
  In (Str s) paths ->
  ends_with_NUL stdin = true ->
  handle_paths expanduser true true stdin (Some walk) paths = PathsTypeError.
Proof.
  intros Hkind Hs Hends. unfold handle_paths. cbn [andb].
  destruct (split0_terminated_pieces stdin Hends) as [-> Hpieces].
  cbn [String.eqb negb].
  destruct (removelast (split0 stdin)) as [|p pieces]; [contradiction|].
  unfold elaborate_paths.
  rewrite (sort_mixed (negb walk) _ (expanduser (Str s))
             (expanduser (Bytes p))); [reflexivity| | | |].
  - apply in_map, in_or_app. now left.
  - apply in_map, in_or_app. right. now left.
  - now rewrite Hkind.
  - now rewrite Hkind.
Qed.
End SortMixed.

Lemma handle_paths_sort_mixed_witness :
  handle_paths (fun x => x) true true ("/dst/x.0.wrr" ++ zero) (Some true)
    [Str "/src"]
  = PathsTypeError.
Proof.
  apply (handle_paths_sort_mixed (fun x => x) ("/dst/x.0.wrr" ++ zero) true
           [Str "/src"] "/src").
  - reflexivity.
  - now left.
  - reflexivity.
Defined.


(** ** The walk over the inputs *)

Section LoadMapFacts.
Context {World : Type} {os : OS World}.
Variable LoadElem : Type.
Variable load_func : bytes -> path -> result LoadElem.
Variable emit_func : path -> path -> stat_result -> LoadElem -> M World unit.
Variable follow_symlinks : bool.
Variable errors : errors_policy.

Lemma load_map_one_failure (p : path) (st st' : engine World) (d : string) :
  load_map_one LoadElem load_func emit_func follow_symlinks errors p st
  = (st', Raise (Failure d)) ->
  errors = ErrFail
  /\ exists d', d = elaborate ("while processing `" ++ p ++ "`") d'.
Proof.
  unfold load_map_one, catch at 1.
  match goal with |- (match ?m st with _ => _ end) = _ -> _ =>
    destruct (m st) as [s1 [a|e]] end; [discriminate|].
  destruct e; try discriminate.
  destruct errors; cbn; try discriminate.
  intros [= _ <-]. eauto.
Qed.

(** X20.  A [Failure] that leaves [load_map_orderly] names the input:
    the walk ends with a [Failure] only under [--errors fail], and
    then its message is the failure's, elaborated with "while
    processing" and a path the walk yielded; under [--errors skip] and
    [--errors ignore] no [Failure] of loading or emitting a file ends
    the walk. *)
Theorem load_map_orderly_failure (walked : list (bool * path))
    (st st' : engine World) (d : string) :
  load_map_orderly LoadElem load_func emit_func follow_symlinks errors walked st
  = (st', Raised (Failure d)) ->
  errors = ErrFail
  /\ exists p d', In p (map snd walked)
                  /\ d = elaborate ("while processing `" ++ p ++ "`") d'.
Proof.
  revert st. induction walked as [|[want_stop p] rest IH]; intros st;
    cbn [load_map_orderly]; [discriminate|].
  assert (Hrest : forall s,
             load_map_orderly LoadElem load_func emit_func follow_symlinks
               errors rest s = (st', Raised (Failure d)) ->
             errors = ErrFail
             /\ exists p0 d', In p0 (map snd ((want_stop, p) :: rest))
                              /\ d = elaborate ("while processing `" ++ p0 ++ "`") d').
  { intros s Hs. destruct (IH s Hs) as (He & p0 & d' & Hin & Hd).
    split; [exact He|]. exists p0, d'. split; [now right|exact Hd]. }
  destruct want_stop; [discriminate|].
  destruct (endswith p ".part"); [apply Hrest|].
  destruct (load_map_one LoadElem load_func emit_func follow_symlinks errors
              p st) as [s1 [[]|e]] eqn:Hone; [apply Hrest|].
  intros [= <- ->].
  destruct (load_map_one_failure p st s1 d Hone) as (He & d' & Hd).
  split; [exact He|]. exists p, d'. split; [now left|exact Hd].
Qed.

(** X21.  Partial files are invisible: the paths that end in
    [.part] are skipped before anything is done with them, so the
    walk does what it does on the other paths alone (if no interrupt
    is seen at a skipped path). *)
Theorem load_map_orderly_skips_parts (walked : list (bool * path))
    (st : engine World) :
  Forall (fun item => processed item = false -> fst item = false) walked ->
  load_map_orderly LoadElem load_func emit_func follow_symlinks errors walked st
  = load_map_orderly LoadElem load_func emit_func follow_symlinks errors
      (filter processed walked) st.
Proof.
  intros Hwalked. revert st.
  induction Hwalked as [|[want_stop p] rest Hitem Hrest IH]; intros st;
    [reflexivity|].
  cbn [load_map_orderly filter]. unfold processed in *. cbn [fst snd] in *.
  destruct (endswith p ".part") eqn:Hpart; cbn [negb].
  - rewrite (Hitem eq_refl). apply IH.
  - cbn [load_map_orderly]. rewrite Hpart.
    destruct want_stop; [reflexivity|].
    destruct (load_map_one LoadElem load_func emit_func follow_symlinks errors
                p st) as [s1 [[]|e]]; [apply IH|reflexivity].
Qed.

(** An invariant of [emit_func] that does not look at the world or at
    the trace is an invariant of the walk. *)
Lemma load_map_one_invariant (I : engine World -> Prop) (p : path) :
  books_only I ->
  (forall a q s data, post (emit_func a q s data) I (fun _ => I) I) ->
  post (load_map_one LoadElem load_func emit_func follow_symlinks errors p)
    I (fun _ => I) I.
Proof.
  intros Hbooks Hemit. unfold load_map_one.
  eapply post_catch with (E' := I).
  - apply post_get_state. intros s. apply post_forget.
    eapply post_bind with (Q := fun _ => I).
    { unfold failed_to_open. eapply post_catch; [apply post_observe|].
      intros e. destruct e; apply post_raise; auto. }
    intros fobj.
    eapply post_bind with (Q := fun _ => I).
    { unfold failed_to_open. eapply post_catch; [apply post_observe|].
      intros e. destruct e; apply post_raise; auto. }
    intros in_stat.
    eapply post_bind; [apply post_observe|]. intros data. apply Hemit.
  - intros e. destruct e; try (apply post_raise; auto).
    destruct errors.
    + apply post_raise; auto.
    + eapply post_bind; [apply post_log, Hbooks|]. intros ?.
      apply post_ret; auto.
    + apply post_ret; auto.
Qed.

Lemma load_map_orderly_invariant (I : engine World -> Prop)
    (walked : list (bool * path)) (st : engine World) :
  books_only I ->
  (forall a q s data, post (emit_func a q s data) I (fun _ => I) I) ->
  I st ->
  I (fst (load_map_orderly LoadElem load_func emit_func follow_symlinks errors
            walked st)).
Proof.
  intros Hbooks Hemit. revert st.
  induction walked as [|[want_stop p] rest IH]; intros st Hst;
    cbn [load_map_orderly]; [exact Hst|].
  destruct want_stop; [exact Hst|].
  destruct (endswith p ".part"); [now apply IH|].
  pose proof (load_map_one_invariant I p Hbooks Hemit st Hst) as Hone.
  destruct (load_map_one LoadElem load_func emit_func follow_symlinks errors
              p st) as [s1 [[]|e]]; [now apply IH|exact Hone].
Qed.

Lemma map_wrr_paths_extra_invariant (I : engine World -> Prop)
    (walk_orderly : path -> list (bool * path)) (paths : list path)
    (st : engine World) :
  books_only I ->
  (forall a q s data, post (emit_func a q s data) I (fun _ => I) I) ->
  I st ->
  I (fst (map_wrr_paths_extra LoadElem load_func emit_func follow_symlinks
            errors walk_orderly paths st)).
Proof.
  intros Hbooks Hemit. revert st.
  induction paths as [|p rest IH]; intros st Hst;
    cbn [map_wrr_paths_extra]; [exact Hst|].
  pose proof (load_map_orderly_invariant I (walk_orderly p) st Hbooks Hemit Hst)
    as Hwalk.
  destruct (load_map_orderly LoadElem load_func emit_func follow_symlinks
              errors (walk_orderly p) st) as [s1 [| |e]];
    [now apply IH|exact Hwalk|exact Hwalk].
Qed.
End LoadMapFacts.

Section CmdOrganizeFacts.
Context {World : Type} {os : OS World}.
Variable args : cargs.
Variable cfg : organize.
Variable ReqresExpr : Type.
Variable format_path : ReqresExpr -> Z -> path.
Variable filters_allow : ReqresExpr -> result bool.
Variable stime : ReqresExpr -> Z.
Variable wrr_load_expr : bytes -> path -> result ReqresExpr.

(** X22.  [cmd_organize] with a destination finishes what it queued:
    from an engine whose account is right, however the walk over the
    inputs ends (it returns, is interrupted, or raises), [finish()]
    runs, and either it returns, and then nothing is left queued,
    cached or charged and the walk's outcome is the command's, or the
    command raises the exception of [finish()]. *)
Theorem cmd_organize_to_finishes (fuel : nat)
    (walk_orderly : path -> list (bool * path)) (paths : list path)
    (st st' : engine World) (o : outcome) :
  accounted st ->
  cmd_organize_to args cfg ReqresExpr format_path filters_allow stime
    wrr_load_expr fuel walk_orderly paths st = (st', o) ->
  let walk :=
    map_wrr_paths_extra ReqresExpr wrr_load_expr
      (organize_emit args cfg ReqresExpr format_path filters_allow stime fuel)
      true (errors args) walk_orderly paths st in
  (drained st' /\ o = snd walk)
  \/ exists e, o = Raised e
               /\ finish_updates args cfg (fst walk) = (st', Raise e).
Proof.
  intros Hst. cbn zeta. unfold cmd_organize_to, finally.
  pose proof (map_wrr_paths_extra_invariant ReqresExpr wrr_load_expr
                (organize_emit args cfg ReqresExpr format_path filters_allow
                   stime fuel)
                true (errors args) accounted walk_orderly paths st
                accounted_books_only
                (fun a q s data =>
                   emit_accounted args cfg ReqresExpr format_path
                     filters_allow fuel _ data)
                Hst) as Hwalk.
  destruct (map_wrr_paths_extra ReqresExpr wrr_load_expr
              (organize_emit args cfg ReqresExpr format_path filters_allow
                 stime fuel)
              true (errors args) walk_orderly paths st) as [s1 o1].
  cbn [fst snd] in *.
  destruct (finish_updates args cfg s1) as [s2 [[]|e]] eqn:Hfin;
    intros [= <- <-].
  - left. split; [|reflexivity].
    destruct (finish_updates_passed args cfg s1 s2 Hwalk Hfin)
      as (Hz & Hd & Hc & _).
    repeat split; assumption.
  - right. exists e. split; reflexivity.
Qed.
End CmdOrganizeFacts.


Lemma load_map_orderly_failure_witness :
  ErrFail = ErrFail
  /\ exists p d',
       In p (map snd [(false, "/src/a.wrr.part"); (false, "/src/missing.wrr")])
       /\ "while processing `/src/missing.wrr`: failed to open `/src/missing.wrr`"
          = elaborate ("while processing `" ++ p ++ "`") d'.
Proof.
  apply (load_map_orderly_failure unit example_load example_emit true ErrFail
           [(false, "/src/a.wrr.part"); (false, "/src/missing.wrr")]
           example_engine example_engine).
  vm_compute. reflexivity.
Defined.

Lemma load_map_orderly_skips_parts_witness :
  load_map_orderly unit example_load example_emit true ErrFail
    (example_walk "/src") example_engine
  = load_map_orderly unit example_load example_emit true ErrFail
      [(false, "/src/a.wrr"); (false, "/src/b.wrr")] example_engine.
Proof.
  apply (load_map_orderly_skips_parts unit example_load example_emit true
           ErrFail (example_walk "/src") example_engine).
  repeat constructor.
Defined.

Lemma cmd_organize_to_finishes_witness :
  let r := cmd_organize_to example_args moving_ unit numbered_path allow_all
             (fun _ => 4) example_load 3 example_walk ["/src"] example_engine in
  let walk := map_wrr_paths_extra unit example_load example_emit true ErrFail
                example_walk ["/src"] example_engine in
  snd r = Finished
  /\ ((drained (fst r) /\ snd r = snd walk)
      \/ exists e, snd r = Raised e
                   /\ finish_updates example_args moving_ (fst walk)
                      = (fst r, Raise e)).
Proof.
  intros r walk. split; [vm_compute; reflexivity|].
  apply (cmd_organize_to_finishes example_args moving_ unit numbered_path
           allow_all (fun _ => 4) example_load 3 example_walk ["/src"]
           example_engine (fst r) (snd r)).
  - split; [reflexivity|]. split; constructor.
  - vm_compute. reflexivity.
Defined.


(** ** [elaborate_output] and dry runs *)

Section DryRunOutput.
Context {World : Type} {os : OS World}.
Variable cfg : organize.
Variable ReqresExpr : Type.
Variable format_path : ReqresExpr -> Z -> path.
Variable filters_allow : ReqresExpr -> result bool.

Lemma elaborate_output_dry (args args' : cargs) (output output_format : string) :
  elaborate_output args output = Ok (args', output_format) ->
  dry_run args = true ->
  dry_run args' = true /\ terminator args' = None.
Proof.
  unfold elaborate_output. intros H Hdry. rewrite Hdry in H.
  destruct (String.prefix "format:" output);
    [|destruct (OD.get output output_aliases); [|discriminate]];
    inversion H; subst; cbn; auto.
Qed.

(** X23.  A dry run reports nothing: [elaborate_output] drops the
    terminator when [--dry-run] is set, so with the arguments it
    leaves, [emit] and [finish_updates] write nothing to stdout, and
    they leave the world as it is up to [dsync.sync()] and
    [dsync.finish()]. *)
Theorem dry_run_reports_nothing (args args' : cargs)
    (output output_format : string) (fuel : nat) (new_source : OrganizeSource)
    (rrexpr : ReqresExpr) (st : engine World) :
  elaborate_output args output = Ok (args', output_format) ->
  dry_run args = true ->
  forall st',
    st' = fst (emit args' cfg ReqresExpr format_path filters_allow fuel
                 new_source rrexpr st)
    \/ st' = fst (finish_updates args' cfg st) ->
    synced_only (world st) st'
    /\ exists calls,
         trace st' = (trace st ++ calls)%list
         /\ Forall (fun e => ~ stdout_event e) calls.
Proof.
  intros Hout Hdry st' Hst'.
  destruct (elaborate_output_dry args args' output output_format Hout Hdry)
    as [Hdry' Hterm].
  destruct Hst' as [-> | ->]; split.
  - now apply emit_dry.
  - now apply emit_quiet.
  - now apply finish_updates_dry.
  - now apply finish_updates_quiet.
Qed.
End DryRunOutput.

Lemma dry_run_reports_nothing_witness :
  let args := mkcargs 16384 8192 0 0 1024 (Some newline) false true ErrFail
                false in
  let st' := fst (emit example_args_dry moving_ unit numbered_path allow_all 3
                    example_a tt example_engine) in
  elaborate_output args "format:x.%(num)d"
  = Ok (example_args_dry, "x.%(num)d")
  /\ synced_only (world example_engine) st'
  /\ exists calls,
       trace st' = (trace example_engine ++ calls)%list
       /\ Forall (fun e => ~ stdout_event e) calls.
Proof.
  intros args st'. split; [reflexivity|].
  apply (dry_run_reports_nothing moving_ unit numbered_path allow_all args
           example_args_dry "format:x.%(num)d" "x.%(num)d" 3 example_a tt
           example_engine eq_refl eq_refl).
  now left.
Defined.


(** ** GZip and pipes *)

Lemma substring_whole (s : string) : substring 0 (String.length s) s = s.
Proof. induction s as [|c s IH]; cbn; [reflexivity|now rewrite IH]. Qed.

Section GzipFacts.
Variable gzip : bytes -> bytes.
Variable gunzip : bytes -> result bytes.

(** X24.  [gzip_maybe] never returns more bytes than it was given,
    and, for a compressor whose output starts with the GZip magic and
    is undone by the decompressor, [ungzip_fileobj_maybe] reads the
    data back, unless the data itself starts with the magic bytes and
    did not get smaller: then [gzip_maybe] has left it as it is and
    [ungzip_fileobj_maybe] hands it to the decompressor. *)
Theorem gzip_maybe_round_trip (data : bytes) :
  (forall d, gunzip (gzip d) = Ok d) ->
  (forall d, substring 0 2 (gzip d) = gzip_magic) ->
  len (gzip_maybe gzip data) <= len data
  /\ (len (gzip data) < len data \/ substring 0 2 data <> gzip_magic ->
      ungzip_fileobj_maybe gunzip (gzip_maybe gzip data) = Ok data)
  /\ (len data <= len (gzip data) -> substring 0 2 data = gzip_magic ->
      ungzip_fileobj_maybe gunzip (gzip_maybe gzip data) = gunzip data).
Proof.
  intros Hgunzip Hmagic. unfold gzip_maybe, ungzip_fileobj_maybe.
  destruct (len (gzip data) <? len data) eqn:Hlt.
  - apply Z.ltb_lt in Hlt. split; [lia|]. split.
    + intros _. now rewrite Hmagic, String.eqb_refl.
    + lia.
  - apply Z.ltb_ge in Hlt. split; [lia|]. split.
    + intros [?|Hne]; [lia|]. apply String.eqb_neq in Hne. now rewrite Hne.
    + intros _ ->. now rewrite String.eqb_refl.
Qed.
End GzipFacts.

Lemma gzip_maybe_round_trip_witness :
  gzip_maybe example_gzip "aaaa" = "aaaa"
  /\ len (gzip_maybe example_gzip "aaaa") <= len "aaaa"
  /\ (len (example_gzip "aaaa") < len "aaaa"
      \/ substring 0 2 "aaaa" <> gzip_magic ->
      ungzip_fileobj_maybe example_gunzip (gzip_maybe example_gzip "aaaa")
      = Ok "aaaa")
  /\ (len "aaaa" <= len (example_gzip "aaaa") ->
      substring 0 2 "aaaa" = gzip_magic ->
      ungzip_fileobj_maybe example_gunzip (gzip_maybe example_gzip "aaaa")
      = example_gunzip "aaaa").
Proof.
  split; [reflexivity|].
  apply (gzip_maybe_round_trip example_gzip example_gunzip "aaaa").
  - intros d. unfold example_gunzip, example_gzip. cbn.
    now rewrite Nat.sub_0_r, substring_whole.
  - intros d. unfold example_gzip, gzip_magic. cbn. now destruct d.
Defined.

(** X25.  Pipes compose: the pipe of [pipe1 + pipe2] is the pipe of
    [pipe1] followed by the pipe of [pipe2], the empty pipe returns
    its argument, and [make_envfunc_pipe] is [make_func_pipe] of the
    stages applied to the environment. *)
Theorem pipes_compose {EnvType PipeType : Type}
    (pipe1 pipe2 : list (PipeType -> PipeType))
    (envpipe : list (EnvType -> PipeType -> PipeType)) (env : EnvType)
    (x : PipeType) :
  make_func_pipe (pipe1 ++ pipe2) x
  = make_func_pipe pipe2 (make_func_pipe pipe1 x)
  /\ make_func_pipe [] x = x
  /\ make_envfunc_pipe envpipe env x
     = make_func_pipe (map (fun func => func env) envpipe) x.
Proof.
  unfold make_func_pipe, make_envfunc_pipe. split; [apply fold_left_app|].
  split; [reflexivity|].
  revert x. induction envpipe as [|func rest IH]; intros x; cbn;
    [reflexivity|apply IH].
Qed.


(** ** A record that is already in its place *)

Section InPlace.
Context {World : Type} {os : OS World}.
Variable args : cargs.
Variable cfg : organize.
Variable ReqresExpr : Type.
Variable format_path : ReqresExpr -> Z -> path.
Variable filters_allow : ReqresExpr -> result bool.

Lemma bind_ok {A B} (m : M World A) (f : A -> M World B)
    (s s1 : engine World) (a : A) :
  m s = (s1, Ok a) -> bind m f s = f a s1.
Proof. intros H. unfold bind. now rewrite H. Qed.

Lemma same_outside_refl (s : engine World) : same_outside s s.
Proof. repeat split. Qed.

Lemma same_outside_trans (s1 s2 s3 : engine World) :
  same_outside s1 s2 -> same_outside s2 s3 -> same_outside s1 s3.
Proof. unfold same_outside. intros (-> & -> & ->) (-> & -> & ->). auto. Qed.

Lemma seen_count_same (value : string) (s : engine World) :
  exists s1,
    seen_count value s
    = (s1, Ok (snd (SeenCounter.count value
                      (SeenCounter.mk (consumption s) (seen_counter s)))))
    /\ same_outside s s1.
Proof.
  unfold seen_count.
  destruct (SeenCounter.count value _) as [c r].
  eexists. split; [reflexivity|]. repeat split.
Qed.

Lemma pop_source_same (k : path) (s : engine World) :
  exists old s1, pop_source k s = (s1, Ok old) /\ same_outside s s1.
Proof.
  unfold pop_source, bind, get_state.
  destruct (OD.get k (source_cache s)) as [old|].
  - exists (Some old). eexists. split; [reflexivity|]. repeat split.
  - exists None, s. split; [reflexivity|]. repeat split.
Qed.

Lemma put_source_same (k : path) (src : OrganizeSource) (s : engine World) :
  exists s1, put_source k src s = (s1, Ok tt) /\ same_outside s s1.
Proof.
  unfold put_source, bind, get_state.
  eexists. split; [reflexivity|]. repeat split.
Qed.

(** X26.  Organizing is idempotent on a record that is in its place:
    when the destination computed for the record is the record's own
    path and no intent is queued for it, a lazy [emit] returns with
    nothing queued and the file system as it was, for every action,
    with or without [--latest]; all it does is to report the path to
    stdout when a terminator is set. *)
Theorem emit_in_place (fuel : nat) (new_source : OrganizeSource)
    (rrexpr : ReqresExpr) (st : engine World) :
  let ogprefix := format_path rrexpr 0 in
  let num := snd (SeenCounter.count ogprefix
                    (SeenCounter.mk (consumption st) (seen_counter st))) in
  let k := abspath (format_path rrexpr num) in
  abs_path new_source = k ->
  OD.get k (deferred_intents st) = None ->
  filters_allow rrexpr = Ok true ->
  lazy args = true ->
  let r := emit args cfg ReqresExpr format_path filters_allow (S fuel)
             new_source rrexpr st in
  snd r = Ok tt
  /\ deferred_intents (fst r) = deferred_intents st
  /\ world (fst r) = world st
  /\ trace (fst r)
     = (trace st ++ match terminator args with
                    | Some t => [EvStdout k t]
                    | None => []
                    end)%list.
Proof.
  cbn zeta. intros Hk Hget Hallow Hlazy.
  remember (format_path rrexpr 0) as ogprefix eqn:Hog.
  remember (snd (SeenCounter.count ogprefix
                   (SeenCounter.mk (consumption st) (seen_counter st))))
    as num eqn:Hnum.
  remember (abspath (format_path rrexpr num)) as k eqn:Hkdef.
  assert (Hplace : exists old st1,
             place cfg ReqresExpr format_path ogprefix new_source rrexpr st
             = (st1, Ok (mkdefer None old true new_source,
                         format_path rrexpr num, k))
             /\ same_outside st st1).
  { destruct (seen_count_same ogprefix st) as (s1 & Hs1 & K1).
    rewrite <- Hnum in Hs1.
    destruct (pop_source_same k s1) as (old & s2 & Hs2 & K2).
    assert (K12 : same_outside st s2) by (eapply same_outside_trans; eauto).
    assert (Hs3 : pop_intent k s2 = (s2, Ok None)).
    { unfold pop_intent, bind, get_state.
      destruct K12 as (-> & _). now rewrite Hget. }
    assert (Hs4 : observe (fun w => defer cfg w k old new_source) s2
                  = (s2, Ok (mkdefer None old true new_source))).
    { unfold observe, defer. now rewrite Hk, String.eqb_refl. }
    assert (Hs5 : exists s3,
               (match old with
                | Some updated_source => put_source k updated_source
                | None => ret tt
                end) s2 = (s3, Ok tt) /\ same_outside s2 s3).
    { destruct old as [old|]; [apply put_source_same|].
      exists s2. split; [reflexivity|apply same_outside_refl]. }
    destruct Hs5 as (s3 & Hs5 & K3).
    exists old, s3. split; [|eapply same_outside_trans; eauto].
    unfold place.
    rewrite (bind_ok _ _ _ _ _ Hs1). cbv beta zeta. rewrite <- Hkdef.
    rewrite (bind_ok _ _ _ _ _ Hs2). cbv beta.
    rewrite (bind_ok _ _ _ _ _ Hs3). cbv beta iota.
    rewrite (bind_ok _ _ _ _ _ Hs4). cbv beta. cbn [d_intent d_source].
    rewrite (bind_ok _ _ s2 s2 tt eq_refl). cbv beta.
    rewrite (bind_ok _ _ _ _ _ Hs5). reflexivity. }
  destruct Hplace as (old & st1 & Hplace & Hd & Hw & Ht).
  assert (Hloop : emit_loop cfg ReqresExpr format_path (S fuel) ogprefix
                    new_source rrexpr None st = (st1, Ok (None, k))).
  { cbn [emit_loop]. unfold emit_turn.
    rewrite (bind_ok _ _ _ _ _ (bind_ok _ _ _ _ _ Hplace)). reflexivity. }
  assert (Hemit : exists st2,
             emit args cfg ReqresExpr format_path filters_allow (S fuel)
               new_source rrexpr st = (st2, Ok tt)
             /\ deferred_intents st2 = deferred_intents st
             /\ world st2 = world st
             /\ trace st2 = (trace st ++ match terminator args with
                                         | Some t => [EvStdout k t]
                                         | None => []
                                         end)%list).
  { unfold emit. unfold bind at 1. rewrite Hallow, Hlazy, <- Hog.
    change (negb true) with false. cbv iota.
    rewrite (bind_ok _ _ _ _ _ Hloop). cbn [fst snd].
    destruct (terminator args) as [t|]; unfold bind, ret, log;
      eexists; (split; [reflexivity|]);
      cbn [deferred_intents world trace]; rewrite ?app_nil_r, ?Ht; auto. }
  destruct Hemit as (st2 & -> & Hd2 & Hw2 & Ht2). cbn [fst snd]. auto.
Qed.
End InPlace.

Lemma emit_in_place_witness :
  let r := emit example_args_lazy moving_ unit
             (fun _ _ => "/src/a.wrr") allow_all 1 example_a tt example_engine in
  snd r = Ok tt
  /\ deferred_intents (fst r) = []
  /\ world (fst r) = example_fs
  /\ trace (fst r) = [EvStdout "/src/a.wrr" newline].
Proof.
  exact (emit_in_place example_args_lazy moving_ unit (fun _ _ => "/src/a.wrr")
           allow_all 0 example_a tt example_engine eq_refl eq_refl eq_refl
           eq_refl).
Defined.


(** ** Interrupts *)

Section Interrupts.
Context {World : Type} {os : OS World}.
Variable LoadElem : Type.
Variable load_func : bytes -> path -> result LoadElem.
Variable emit_func : path -> path -> stat_result -> LoadElem -> M World unit.
Variable follow_symlinks : bool.
Variable errors : errors_policy.

(** X27.  A gentle interrupt stops the walk between two files: when
    [want_stop] is first seen set at some path, [load_map_orderly] has
    done what it does on the paths before it, raises
    [KeyboardInterrupt] unless those ended the walk with an exception,
    and touches neither that path nor the ones after it. *)
Theorem load_map_orderly_interrupt (before after : list (bool * path))
    (p : path) (st : engine World) :
  Forall (fun item => fst item = false) before ->
  load_map_orderly LoadElem load_func emit_func follow_symlinks errors
    (before ++ (true, p) :: after) st
  = match load_map_orderly LoadElem load_func emit_func follow_symlinks errors
            before st with
    | (st', Finished) => (st', Interrupted)
    | r => r
    end.
Proof.
  intros Hbefore. revert st.
  induction Hbefore as [|[want_stop q] rest Hq Hrest IH]; intros st;
    [reflexivity|].
  cbn [fst] in Hq. subst want_stop. cbn [app load_map_orderly].
  destruct (endswith q ".part"); [apply IH|].
  destruct (load_map_one LoadElem load_func emit_func follow_symlinks errors
              q st) as [s1 [[]|e]]; [apply IH|reflexivity].
Qed.
End Interrupts.

Lemma load_map_orderly_interrupt_witness :
  load_map_orderly unit example_load example_emit true ErrFail
    ([(false, "/src/a.wrr")]
     ++ (true, "/src/b.wrr.part") :: [(false, "/src/b.wrr")])
    example_engine
  = match load_map_orderly unit example_load example_emit true ErrFail
            [(false, "/src/a.wrr")] example_engine with
    | (st', Finished) => (st', Interrupted)
    | r => r
    end.
Proof.
  apply (load_map_orderly_interrupt unit example_load example_emit true
           ErrFail [(false, "/src/a.wrr")] [(false, "/src/b.wrr")]
           "/src/b.wrr.part" example_engine).
  repeat constructor.
Defined.
